(** * Action execution and synchronisation engine

    A verification development for the workbench of the repository: the
    virtual file store ([FilesStore]), the sandbox link ([e2bStore]), the
    per-artifact action runner ([ActionRunner]) and the repair pass
    ([WorkbenchStore.syncMissingFiles]).

    The TypeScript sources are embedded shallowly.  Synchronous code becomes
    functions; the asynchronous code (promises, [await], the microtask queue)
    becomes an explicit event loop over a world record, with every suspended
    [async] function kept as a first-order frame. *)

From Stdlib Require Import Ascii String.
From stdpp Require Import gmap strings list fin_maps.

Open Scope string_scope.
Open Scope list_scope.
Open Scope nat_scope.
Open Scope stdpp_scope.

(** ** JavaScript string helpers *)

Module Js.

(** [s.startsWith(p)] *)
Definition startsWith (s p : string) : bool := String.prefix p s.

Definition is_slash (c : ascii) : bool := bool_decide (c = "/"%char).

(** [s.split('/')]: the pieces between slashes, empty pieces included. *)
Fixpoint split_go (s : string) (cur : string) : list string :=
  match s with
  | EmptyString => [cur]
  | String c s' =>
      if is_slash c then cur :: split_go s' ""
      else split_go s' (cur +:+ String c "")
  end.

Definition split_slash (s : string) : list string := split_go s "".

(** [Boolean(s)] for a string: the empty string is falsy. *)
Definition truthy (s : string) : bool := negb (bool_decide (s = "")).

(** [s.split('/').filter(Boolean)] *)
Definition path_parts (s : string) : list string :=
  List.filter truthy (split_slash s).

(** [s.replace(/^\//, '')]: drops one leading slash. *)
Definition strip_leading_slash (s : string) : string :=
  match s with
  | String c s' => if is_slash c then s' else s
  | EmptyString => s
  end.

(** The backward scan of [path.dirname] (POSIX flavour of node:path, which
    the browser polyfill shares): [i] runs from [length - 1] down to [1]. *)
Fixpoint dirname_scan (path : string) (i : nat) (matchedSlash : bool)
  : option nat :=
  match i with
  | 0 => None
  | S i' =>
      match String.get i path with
      | Some c =>
          if is_slash c then
            if negb matchedSlash then Some i
            else dirname_scan path i' matchedSlash
          else dirname_scan path i' false
      | None => dirname_scan path i' matchedSlash
      end
  end.

Definition dirname (path : string) : string :=
  if bool_decide (String.length path = 0) then "."
  else
    let hasRoot :=
      match String.get 0 path with Some c => is_slash c | None => false end in
    match dirname_scan path (String.length path - 1) true with
    | None => if hasRoot then "/" else "."
    | Some e =>
        if hasRoot && bool_decide (e = 1) then "//"
        else String.substring 0 e path
    end.

End Js.

(** Modelled from the spec: the constant [WORK_DIR] of [~/utils/constants],
    a module that is not among the sources; the spec gives the fixed work
    directory as [/project]. *)
Definition WORK_DIR : string := "/project".

(** ** The virtual file store (FilesStore) *)

Inductive Dirent : Type :=
| File (content : string) (isBinary : bool)
| Folder.

#[global] Instance Dirent_eq_dec : EqDecision Dirent.
Proof. solve_decision. Defined.

Definition is_file (d : Dirent) : bool :=
  match d with File _ _ => true | Folder => false end.

Module FilesStore.

(** The fields of the class: [#size], [#chatId], [#modifiedFiles], the
    nanostores map [files], and the browser's localStorage as a blob store
    keyed by conversation. *)
Record t : Type := mk {
  filesCount : nat;
  chatId : option string;
  modifiedFiles : gmap string string;
  files : gmap string Dirent;
  storage : gmap string (gmap string Dirent)
}.

Definition empty : t := mk 0 None ∅ ∅ ∅.

Definition set_files (f : gmap string Dirent) (s : t) : t :=
  mk (filesCount s) (chatId s) (modifiedFiles s) f (storage s).

(** [this.files.setKey(path, dirent)] *)
Definition setKey (path : string) (d : Dirent) (s : t) : t :=
  set_files (<[path := d]> (files s)) s.

(** [getFile]: the entry only when it is a file. *)
Definition getFile (filePath : string) (s : t) : option Dirent :=
  match files s !! filePath with
  | Some (File c b) => Some (File c b)
  | _ => None
  end.

Definition content_of (d : Dirent) : option string :=
  match d with File c _ => Some c | Folder => None end.

(** [#persistToStorage]: writes the whole map under the conversation key,
    and does nothing without a conversation. *)
Definition persistToStorage (s : t) : t :=
  match chatId s with
  | Some id =>
      mk (filesCount s) (chatId s) (modifiedFiles s) (files s)
         (<[id := files s]> (storage s))
  | None => s
  end.

Definition resetFileModifications (s : t) : t :=
  mk (filesCount s) (chatId s) ∅ (files s) (storage s).

(** [#clearFiles]: every key removed, the counter and the baseline reset. *)
Definition clearFiles (s : t) : t :=
  mk 0 (chatId s) ∅ ∅ (storage s).

Definition resetFiles (s : t) : t :=
  let s := clearFiles s in
  mk (filesCount s) None (modifiedFiles s) (files s) (storage s).

(** [#loadFromStorage]: every stored entry is set, files are counted. *)
Definition loadFromStorage (id : string) (s : t) : t :=
  match storage s !! id with
  | Some stored =>
      mk (filesCount s + size (filter (λ kv, is_file kv.2 = true) stored))
         (chatId s) (modifiedFiles s) (stored ∪ files s) (storage s)
  | None => s
  end.

Definition setChatId (id : option string) (s : t) : t :=
  if decide (chatId s = id) then s
  else
    let s := clearFiles (mk (filesCount s) id (modifiedFiles s) (files s) (storage s)) in
    match id with
    | Some i => if Js.truthy i then loadFromStorage i s else s
    | None => s
    end.

(** [saveFile]: the baseline entry is written only when the path has none
    and a previous file content exists. *)
Definition saveFile (filePath content : string) (s : t) : t :=
  let oldContent := getFile filePath s ≫= content_of in
  let modified :=
    match modifiedFiles s !! filePath, oldContent with
    | None, Some old => <[filePath := old]> (modifiedFiles s)
    | _, _ => modifiedFiles s
    end in
  persistToStorage
    (mk (filesCount s) (chatId s) modified
        (<[filePath := File content false]> (files s)) (storage s)).

(** A sequence of [saveFile] calls, in order. *)
Definition save_all (writes : list (string * string)) (s : t) : t :=
  fold_left (λ s pc, saveFile pc.1 pc.2 s) writes s.

(** [#ensureFolderExists]: the loop over the parts of the folder path. *)
Fixpoint ensureFolder_loop (parts : list string) (currentPath : string)
    (s : t) : t :=
  match parts with
  | [] => s
  | part :: rest =>
      let currentPath :=
        if Js.truthy currentPath then currentPath +:+ "/" +:+ part
        else "/" +:+ part in
      let s :=
        match files s !! currentPath with
        | Some _ => s
        | None => setKey currentPath Folder s
        end in
      ensureFolder_loop rest currentPath s
  end.

Definition ensureFolderExists (folderPath : string) (s : t) : t :=
  ensureFolder_loop (Js.path_parts folderPath) "" s.

Definition normalize (filePath : string) : string :=
  if Js.startsWith filePath WORK_DIR then filePath
  else WORK_DIR +:+ "/" +:+ filePath.

Definition with_parents (normalizedPath : string) (s : t) : t :=
  let folder := Js.dirname normalizedPath in
  if negb (bool_decide (folder = ".")) && negb (bool_decide (folder = WORK_DIR))
  then ensureFolderExists folder s
  else s.

Definition bump (s : t) : t :=
  mk (S (filesCount s)) (chatId s) (modifiedFiles s) (files s) (storage s).

(** [addFile] of the store with conversations: the counter grows only when
    the path held no file. *)
Definition addFile (filePath content : string) (s : t) : t :=
  let normalizedPath := normalize filePath in
  let s := with_parents normalizedPath s in
  let s :=
    match files s !! normalizedPath with
    | Some (File _ _) => s
    | _ => bump s
    end in
  persistToStorage (setKey normalizedPath (File content false) s).


End FilesStore.


(** ** Promises *)

(** What an awaited sandbox promise resolves with: [undefined] or a boolean. *)
Inductive value : Type := VUndef | VBool (b : bool).

Inductive outcome : Type := Resolved (v : value) | Rejected (e : string).

#[global] Instance value_eq_dec : EqDecision value.
Proof. solve_decision. Defined.
#[global] Instance outcome_eq_dec : EqDecision outcome.
Proof. solve_decision. Defined.

(** Three families of promises, told apart by who settles them: the links of
    a runner's execution chain, the promises handed out for queued sandbox
    operations, and the promises returned by the sandbox implementations. *)
Inductive pid : Type := PChain (n : nat) | POp (n : nat) | PCall (n : nat).

#[global] Instance pid_eq_dec : EqDecision pid.
Proof. solve_decision. Defined.

#[global] Instance pid_countable : Countable pid.
Proof.
  refine (inj_countable'
    (λ p, match p with
          | PChain n => inl n | POp n => inr (inl n) | PCall n => inr (inr n)
          end)
    (λ s, match s with
          | inl n => PChain n | inr (inl n) => POp n | inr (inr n) => PCall n
          end) _).
  by intros [].
Defined.

(** ** The sandbox link (e2bStore): its state *)

(** A sandbox implementation is foreign code; the model keeps its handle. *)
Definition cb : Type := nat.

Module E2B.

Record E2BState : Type := mkState {
  apiKey : string;
  isConnected : bool;
  isConnecting : bool;
  sandboxId : option string;
  error : option string;
  isSyncing : bool;
  autoCreateTriggered : bool
}.

Definition initialState : E2BState :=
  mkState "" false false None None false false.

Definition setConnected (connected : bool) (id : option string)
    (s : E2BState) : E2BState :=
  mkState (apiKey s) connected false id (error s) (isSyncing s)
          (autoCreateTriggered s).

Definition setConnecting (connecting : bool) (s : E2BState) : E2BState :=
  mkState (apiKey s) (isConnected s) connecting (sandboxId s) (error s)
          (isSyncing s) (autoCreateTriggered s).

Definition setError (e : option string) (s : E2BState) : E2BState :=
  mkState (apiKey s) (isConnected s) (isConnecting s) (sandboxId s) e
          (isSyncing s) (autoCreateTriggered s).

Definition setSyncing (b : bool) (s : E2BState) : E2BState :=
  mkState (apiKey s) (isConnected s) (isConnecting s) (sandboxId s) (error s)
          b (autoCreateTriggered s).

Inductive OpType : Type := OpWriteFile | OpMakeDirectory | OpRunCommand.

(** A queued operation; [op_promise] stands for its [resolve]/[reject]
    pair, the two ends of the promise the caller received. *)
Record PendingOperation : Type := mkOp {
  op_type : OpType;
  op_path : option string;
  op_content : option string;
  op_command : option string;
  op_promise : nat
}.

(** The argument of [registerSandboxCallbacks]; [cb_getActiveTerminalId]
    is what the accessor returns when it is called during registration. *)
Record Callbacks : Type := mkCallbacks {
  cb_writeFile : cb;
  cb_makeDirectory : cb;
  cb_runCommand : cb;
  cb_sendTerminalInput : cb;
  cb_createSandbox : cb;
  cb_getActiveTerminalId : option string
}.

(** The module-level variables of the store. *)
Record t : Type := mk {
  state : E2BState;
  terminalSendInput : option cb;
  fileWriteCallback : option cb;
  makeDirectoryCallback : option cb;
  runCommandCallback : option cb;
  createSandboxCallback : option cb;
  activeTerminalId : option string;
  pendingOperations : list PendingOperation;
  isProcessingQueue : bool
}.

Definition init : t :=
  mk initialState None None None None None None [] false.

Definition with_state (f : E2BState → E2BState) (s : t) : t :=
  mk (f (state s)) (terminalSendInput s) (fileWriteCallback s)
     (makeDirectoryCallback s) (runCommandCallback s)
     (createSandboxCallback s) (activeTerminalId s) (pendingOperations s)
     (isProcessingQueue s).

Definition with_queue (q : list PendingOperation) (s : t) : t :=
  mk (state s) (terminalSendInput s) (fileWriteCallback s)
     (makeDirectoryCallback s) (runCommandCallback s)
     (createSandboxCallback s) (activeTerminalId s) q (isProcessingQueue s).

Definition with_processing (b : bool) (s : t) : t :=
  mk (state s) (terminalSendInput s) (fileWriteCallback s)
     (makeDirectoryCallback s) (runCommandCallback s)
     (createSandboxCallback s) (activeTerminalId s) (pendingOperations s) b.

(** The assignments at the head of [registerSandboxCallbacks]. *)
Definition install (c : Callbacks) (s : t) : t :=
  mk (state s) (Some (cb_sendTerminalInput c)) (Some (cb_writeFile c))
     (Some (cb_makeDirectory c)) (Some (cb_runCommand c))
     (Some (cb_createSandbox c)) (cb_getActiveTerminalId c)
     (pendingOperations s) (isProcessingQueue s).

(** The assignments at the head of [reset]; the queue is emptied by the
    loop that follows them. *)
Definition cleared (s : t) : t :=
  mk initialState None None None None None None (pendingOperations s)
     (isProcessingQueue s).

(** [isReady]: connected with a write implementation, or connecting. *)
Definition isReady (s : t) : bool :=
  (isConnected (state s) && bool_decide (is_Some (fileWriteCallback s)))
  || isConnecting (state s).

(** The test [state.isConnecting || state.isConnected] of the operations. *)
Definition accepting (s : t) : bool :=
  isConnecting (state s) || isConnected (state s).

End E2B.

(** ** Actions *)

(** Modelled from the spec: the union [BoltAction] of [~/types/actions], a
    module that is not among the sources; a file action carries a path and a
    content, a shell action carries its command as content. *)
Inductive BoltAction : Type :=
| FileAction (filePath content : string)
| ShellAction (content : string).

Inductive ActionStatus : Type := pending | running | complete | aborted | failed.

#[global] Instance BoltAction_eq_dec : EqDecision BoltAction.
Proof. solve_decision. Defined.
#[global] Instance ActionStatus_eq_dec : EqDecision ActionStatus.
Proof. solve_decision. Defined.

(** An entry of [ActionRunner.actions].  [signal_aborted] is the flag of the
    entry's abort signal, which [abort] raises. *)
Record ActionState : Type := mkAction {
  action : BoltAction;
  status : ActionStatus;
  error : option string;
  executed : bool;
  signal_aborted : bool
}.

#[global] Instance ActionState_eq_dec : EqDecision ActionState.
Proof. solve_decision. Defined.

(** The argument of [addAction] and [runAction]. *)
Record ActionCallbackData : Type := mkData {
  messageId : string;
  actionId : string;
  data_action : BoltAction
}.

(** A JavaScript object used as a map, in insertion order. *)
Section alist.
Context {A : Type}.

Fixpoint alist_lookup (k : string) (l : list (string * A)) : option A :=
  match l with
  | [] => None
  | (k', v) :: rest => if decide (k' = k) then Some v else alist_lookup k rest
  end.

(** [setKey(k, v)]: in place when the key exists, appended otherwise. *)
Fixpoint alist_set (k : string) (v : A) (l : list (string * A))
  : list (string * A) :=
  match l with
  | [] => [(k, v)]
  | (k', v') :: rest =>
      if decide (k' = k) then (k, v) :: rest
      else (k', v') :: alist_set k v rest
  end.

(** [setKey(k, {...m[k], ...update})] for a key the map holds. *)
Definition alist_alter (f : A → A) (k : string) (l : list (string * A))
  : list (string * A) :=
  match alist_lookup k l with
  | Some v => alist_set k (f v) l
  | None => l
  end.
End alist.

(** ** The event loop *)

(** A request to the sandbox, as an implementation receives it. *)
Inductive CallKind : Type :=
| CWrite (path content : string)
| CMkdir (path : string)
| CRun (command : string).

(** Who called an operation of the sandbox link. *)
Inductive origin : Type :=
| FromAction (actionId : string)
| FromSync
| FromOutside.

#[global] Instance CallKind_eq_dec : EqDecision CallKind.
Proof. solve_decision. Defined.
#[global] Instance origin_eq_dec : EqDecision origin.
Proof. solve_decision. Defined.

(** The running totals of [syncMissingFiles]: the snapshot [currentFiles],
    [syncedCount], [missingFiles] and [fileActions.length]. *)
Record SyncState : Type := mkSync {
  s_current : gmap string Dirent;
  s_synced : nat;
  s_missing : list string;
  s_total : nat
}.

Record SyncResult : Type := mkResult {
  synced : nat;
  total : nat;
  missing : list string
}.

#[global] Instance SyncResult_eq_dec : EqDecision SyncResult.
Proof. solve_decision. Defined.

(** An [async] function suspended at an [await]; each constructor names the
    function and the [await] it waits at, and carries its live variables. *)
Inductive frame : Type :=
| KFileMkdir (actionId : string) (t : nat) (filePath content normalizedPath : string)
    (currentPath : string) (rest : list string)
    (* #runFileAction at [await e2bStore.makeDirectory(currentPath)] *)
| KFileWrite (actionId : string) (t : nat) (filePath content normalizedPath : string)
    (* #runFileAction at [await e2bStore.writeFile(normalizedPath, content)] *)
| KShellRun (actionId : string) (t : nat)
    (* #runShellAction at [await e2bStore.runCommand(content)] *)
| KExecJoin (actionId : string) (t : nat)
    (* #executeAction at [await this.#runFileAction / #runShellAction] *)
| KDrain (op : E2B.PendingOperation)
    (* processQueue at the [await] of the implementation called for [op] *)
| KSyncMkdir (st : SyncState) (todo : list (string * string))
    (filePath content e2bPath : string) (currentPath : string) (rest : list string)
    (* syncMissingFiles at [await e2bStore.makeDirectory(currentPath)] *)
| KSyncWrite (st : SyncState) (todo : list (string * string))
    (filePath content e2bPath : string).
    (* syncMissingFiles at [await e2bStore.writeFile(e2bPath, content)] *)

(** What waits on a promise. *)
Inductive reaction : Type :=
| RSetRunning (actionId : string)
    (* addAction: [.then(() => updateAction(id, {status: 'running'}))] *)
| RThenExec (actionId : string) (t : nat)
    (* runAction: [.then(() => executeAction(id))], whose promise is [PChain t] *)
| RCatchLog (p : nat)
    (* runAction: [.catch(error => console.error(..))], whose promise is [PChain p] *)
| RResume (f : frame).

(** What an instrumented run records. *)
Inductive obs : Type :=
| OSubmit (actionId : string) (t p : nat)  (* runAction appended an execution *)
| OBegin (actionId : string)               (* executeAction entered *)
| OEnd (actionId : string) (ok : bool)     (* executeAction left *)
| ORequest (who : origin) (k : CallKind)   (* an operation of the link called *)
| OCall (c : nat) (h : cb) (k : CallKind)  (* an implementation invoked *)
| OError (msg : string).                   (* console.error / logger.error *)

Record World : Type := mkWorld {
  fs : FilesStore.t;
  e2b : E2B.t;
  actions : list (string * ActionState);   (* ActionRunner.actions *)
  tail : nat;                              (* #currentExecutionPromise *)
  artifact : string;                       (* the message id of the artifact *)
  promises : gmap pid outcome;             (* the settled promises *)
  nextChain : nat;
  nextOp : nat;
  nextCall : nat;
  registry : list (pid * reaction);        (* reactions of pending promises *)
  microtasks : list (reaction * outcome);  (* the job queue *)
  trace : list obs;
  syncResults : list SyncResult
}.

Definition with_fs (f : FilesStore.t → FilesStore.t) (w : World) : World :=
  mkWorld (f (fs w)) (e2b w) (actions w) (tail w) (artifact w) (promises w)
    (nextChain w) (nextOp w) (nextCall w) (registry w) (microtasks w) (trace w)
    (syncResults w).

Definition with_e2b (f : E2B.t → E2B.t) (w : World) : World :=
  mkWorld (fs w) (f (e2b w)) (actions w) (tail w) (artifact w) (promises w)
    (nextChain w) (nextOp w) (nextCall w) (registry w) (microtasks w) (trace w)
    (syncResults w).

Definition with_actions (f : list (string * ActionState) → list (string * ActionState))
    (w : World) : World :=
  mkWorld (fs w) (e2b w) (f (actions w)) (tail w) (artifact w) (promises w)
    (nextChain w) (nextOp w) (nextCall w) (registry w) (microtasks w) (trace w)
    (syncResults w).

Definition note (o : obs) (w : World) : World :=
  mkWorld (fs w) (e2b w) (actions w) (tail w) (artifact w) (promises w)
    (nextChain w) (nextOp w) (nextCall w) (registry w) (microtasks w)
    (trace w ++ [o]) (syncResults w).

(** A job enters the microtask queue. *)
Definition push_job (r : reaction) (o : outcome) (w : World) : World :=
  mkWorld (fs w) (e2b w) (actions w) (tail w) (artifact w) (promises w)
    (nextChain w) (nextOp w) (nextCall w) (registry w)
    (microtasks w ++ [(r, o)]) (trace w) (syncResults w).

(** [p.then(r)]: queued at once on a settled promise, registered otherwise. *)
Definition on_settled (p : pid) (r : reaction) (w : World) : World :=
  match promises w !! p with
  | Some o => push_job r o w
  | None =>
      mkWorld (fs w) (e2b w) (actions w) (tail w) (artifact w) (promises w)
        (nextChain w) (nextOp w) (nextCall w) (registry w ++ [(p, r)])
        (microtasks w) (trace w) (syncResults w)
  end.

Definition waits_on (p : pid) (pr : pid * reaction) : bool :=
  bool_decide (pr.1 = p).

(** A pending promise settles: its reactions become jobs, in the order of
    their registration.  Settling a settled promise does nothing. *)
Definition settle (p : pid) (o : outcome) (w : World) : World :=
  match promises w !! p with
  | Some _ => w
  | None =>
      mkWorld (fs w) (e2b w) (actions w) (tail w) (artifact w)
        (<[p := o]> (promises w)) (nextChain w) (nextOp w) (nextCall w)
        (List.filter (λ pr, negb (waits_on p pr)) (registry w))
        (microtasks w
           ++ List.map (λ pr, (pr.2, o)) (List.filter (waits_on p) (registry w)))
        (trace w) (syncResults w)
  end.

(** What an [await] receives: a promise, or a value already at hand. *)
Inductive awaitable : Type := Later (p : pid) | Now (o : outcome).

(** [await]: the function always yields; it resumes as a job. *)
Definition await (a : awaitable) (f : frame) (w : World) : World :=
  match a with
  | Later p => on_settled p (RResume f) w
  | Now o => push_job (RResume f) o w
  end.

(** ** The sandbox link (e2bStore): its operations *)

Module Link.

(** An installed implementation is called: it returns a fresh promise that
    the sandbox settles later. *)
Definition invoke (h : cb) (k : CallKind) (w : World) : World * pid :=
  let c := nextCall w in
  (mkWorld (fs w) (e2b w) (actions w) (tail w) (artifact w) (promises w)
     (nextChain w) (nextOp w) (S c) (registry w) (microtasks w)
     (trace w ++ [OCall c h k]) (syncResults w),
   PCall c).

(** [new Promise((resolve, reject) => pendingOperations.push({..}))] *)
Definition enqueue (ty : E2B.OpType) (path content command : option string)
    (w : World) : World * pid :=
  let q := nextOp w in
  let op := E2B.mkOp ty path content command q in
  (mkWorld (fs w)
     (E2B.with_queue (E2B.pendingOperations (e2b w) ++ [op]) (e2b w))
     (actions w) (tail w) (artifact w) (promises w)
     (nextChain w) (S q) (nextCall w) (registry w) (microtasks w)
     (trace w) (syncResults w),
   POp q).

Definition writeFile (who : origin) (path content : string) (w : World)
  : World * awaitable :=
  let w := note (ORequest who (CWrite path content)) w in
  match E2B.fileWriteCallback (e2b w) with
  | Some h => let '(w, p) := invoke h (CWrite path content) w in (w, Later p)
  | None =>
      if E2B.accepting (e2b w) then
        let '(w, p) := enqueue E2B.OpWriteFile (Some path) (Some content) None w in
        (w, Later p)
      else
        (note (OError "E2B sandbox not connected - cannot write file") w,
         Now (Resolved (VBool false)))
  end.

Definition makeDirectory (who : origin) (path : string) (w : World)
  : World * awaitable :=
  let w := note (ORequest who (CMkdir path)) w in
  match E2B.makeDirectoryCallback (e2b w) with
  | Some h => let '(w, p) := invoke h (CMkdir path) w in (w, Later p)
  | None =>
      if E2B.accepting (e2b w) then
        let '(w, p) := enqueue E2B.OpMakeDirectory (Some path) None None w in
        (w, Later p)
      else
        (note (OError "E2B sandbox not connected - cannot make directory") w,
         Now (Resolved (VBool false)))
  end.

Definition runCommand (who : origin) (command : string) (w : World)
  : World * awaitable :=
  let w := note (ORequest who (CRun command)) w in
  match E2B.runCommandCallback (e2b w) with
  | Some h => let '(w, p) := invoke h (CRun command) w in (w, Later p)
  | None =>
      if E2B.accepting (e2b w) then
        let '(w, p) := enqueue E2B.OpRunCommand None None (Some command) w in
        (w, Later p)
      else
        (note (OError "E2B sandbox not connected - cannot run command") w,
         Now (Resolved VUndef))
  end.

(** Truthiness of an optional string field: present and not empty. *)
Definition present (o : option string) : option string :=
  match o with
  | Some s => if Js.truthy s then Some s else None
  | None => None
  end.

(** The [switch] of [processQueue]: the implementation to call for [op]
    and its request, or nothing when a guard fails ([result = false]). *)
Definition drain_call (op : E2B.PendingOperation) (s : E2B.t)
  : option (cb * CallKind) :=
  match E2B.op_type op with
  | E2B.OpWriteFile =>
      match E2B.fileWriteCallback s, present (E2B.op_path op), E2B.op_content op with
      | Some h, Some path, Some content => Some (h, CWrite path content)
      | _, _, _ => None
      end
  | E2B.OpMakeDirectory =>
      match E2B.makeDirectoryCallback s, present (E2B.op_path op) with
      | Some h, Some path => Some (h, CMkdir path)
      | _, _ => None
      end
  | E2B.OpRunCommand =>
      match E2B.runCommandCallback s, present (E2B.op_command op) with
      | Some h, Some command => Some (h, CRun command)
      | _, _ => None
      end
  end.

(** The [while] loop of [processQueue], up to its next [await]; [ops] is
    the queue as the loop finds it. *)
Fixpoint drain (ops : list E2B.PendingOperation) (w : World) : World :=
  match ops with
  | [] => with_e2b (E2B.with_processing false) w
  | op :: rest =>
      let w := with_e2b (E2B.with_queue rest) w in
      match drain_call op (e2b w) with
      | Some (h, k) =>
          let '(w, p) := invoke h k w in
          await (Later p) (KDrain op) w
      | None =>
          drain rest (settle (POp (E2B.op_promise op)) (Resolved (VBool false)) w)
      end
  end.

(** What [processQueue] does with the value of the awaited call. *)
Definition drain_result (op : E2B.PendingOperation) (v : value) : value :=
  match E2B.op_type op with
  | E2B.OpRunCommand => VBool true
  | _ => v
  end.

Definition drain_resume (op : E2B.PendingOperation) (o : outcome) (w : World)
  : World :=
  let w :=
    match o with
    | Resolved v => settle (POp (E2B.op_promise op)) (Resolved (drain_result op v)) w
    | Rejected e =>
        settle (POp (E2B.op_promise op)) (Rejected e)
          (note (OError "[E2B Store] Failed to process queued operation") w)
    end in
  drain (E2B.pendingOperations (e2b w)) w.

Definition processQueue (w : World) : World :=
  let s := e2b w in
  if E2B.isProcessingQueue s
     || bool_decide (E2B.pendingOperations s = []) then w
  else
    match E2B.fileWriteCallback s, E2B.makeDirectoryCallback s with
    | Some _, Some _ =>
        drain (E2B.pendingOperations s) (with_e2b (E2B.with_processing true) w)
    | _, _ => w
    end.

Definition registerSandboxCallbacks (c : E2B.Callbacks) (w : World) : World :=
  processQueue (with_e2b (E2B.install c) w).

(** [new Error('E2B sandbox reset')] *)
Definition reset_error : outcome := Rejected "E2B sandbox reset".

(** The loop of [reset]: every queued operation is rejected. *)
Fixpoint reject_all (ops : list E2B.PendingOperation) (w : World) : World :=
  match ops with
  | [] => w
  | op :: rest =>
      reject_all rest
        (settle (POp (E2B.op_promise op)) reset_error
           (with_e2b (E2B.with_queue rest) w))
  end.

Definition reset (w : World) : World :=
  let w := with_e2b E2B.cleared w in
  reject_all (E2B.pendingOperations (e2b w)) w.

End Link.

(** ** The action runner (ActionRunner) *)

Module Runner.

(** [#updateAction(id, {status})] and [#updateAction(id, {status: 'failed',
    error})].  Every caller passes an id that [addAction] has stored, and
    entries are never removed, so the entry exists. *)
Definition updateStatus (id : string) (s : ActionStatus) (err : option string)
    (w : World) : World :=
  with_actions
    (alist_alter
       (λ a, mkAction (action a) s
               (match err with Some e => Some e | None => error a end)
               (executed a) (signal_aborted a)) id) w.

Definition addAction (data : ActionCallbackData) (w : World) : World :=
  let id := actionId data in
  match alist_lookup id (actions w) with
  | Some _ => w
  | None =>
      let w :=
        with_actions
          (alist_set id (mkAction (data_action data) pending None false false)) w in
      on_settled (PChain (tail w)) (RSetRunning id) w
  end.

(** [runAction].  A missing action makes [unreachable] throw: nothing
    changes.  The merged object keeps the stored status, error and signal
    and takes the fields of [data.action]. *)
Definition runAction (data : ActionCallbackData) (w : World) : World :=
  let id := actionId data in
  match alist_lookup id (actions w) with
  | None => w
  | Some a =>
      if executed a then w
      else
        let w :=
          with_actions
            (alist_set id
               (mkAction (data_action data) (status a) (error a) true
                  (signal_aborted a))) w in
        let t := nextChain w in
        let p := S t in
        let w :=
          mkWorld (fs w) (e2b w) (actions w) (tail w) (artifact w) (promises w)
            (S (S t)) (nextOp w) (nextCall w) (registry w) (microtasks w)
            (trace w ++ [OSubmit id t p]) (syncResults w) in
        let w := on_settled (PChain (tail w)) (RThenExec id t) w in
        let w := on_settled (PChain t) (RCatchLog p) w in
        mkWorld (fs w) (e2b w) (actions w) p (artifact w) (promises w)
          (nextChain w) (nextOp w) (nextCall w) (registry w) (microtasks w)
          (trace w) (syncResults w)
  end.

(** The [abort] closure of an entry. *)
Definition abort (id : string) (w : World) : World :=
  match alist_lookup id (actions w) with
  | None => w
  | Some _ =>
      updateStatus id aborted None
        (with_actions
           (alist_alter
              (λ a, mkAction (action a) (status a) (error a) (executed a) true)
              id) w)
  end.

(** The promise of [#runFileAction] or [#runShellAction] settles:
    [#executeAction], which awaits it, resumes as a job. *)
Definition inner_done (id : string) (t : nat) (o : outcome) (w : World) : World :=
  push_job (RResume (KExecJoin id t)) o w.

(** The path of a file inside the sandbox. *)
Definition sandbox_path (filePath : string) : string :=
  if Js.startsWith filePath "/home/user/" then filePath
  else "/home/user/" +:+ Js.strip_leading_slash filePath.

(** The tail of [#runFileAction]: the write to the local store. *)
Definition file_local (id : string) (t : nat) (filePath content : string)
    (w : World) : World :=
  inner_done id t (Resolved VUndef)
    (with_fs (FilesStore.addFile filePath content) w).

(** The loop over the parent directories, up to its next [await], and the
    [await] of the write that follows the loop. *)
Fixpoint mkdir_loop (id : string) (t : nat)
    (filePath content normalizedPath : string)
    (currentPath : string) (parts : list string) (w : World) : World :=
  match parts with
  | [] =>
      let '(w, a) := Link.writeFile (FromAction id) normalizedPath content w in
      await a (KFileWrite id t filePath content normalizedPath) w
  | part :: rest =>
      let currentPath := currentPath +:+ "/" +:+ part in
      if Js.startsWith currentPath "/home/user" then
        let '(w, a) := Link.makeDirectory (FromAction id) currentPath w in
        await a (KFileMkdir id t filePath content normalizedPath currentPath rest) w
      else mkdir_loop id t filePath content normalizedPath currentPath rest w
  end.

Definition runFileAction (id : string) (t : nat) (filePath content : string)
    (w : World) : World :=
  if E2B.isReady (e2b w) then
    let normalizedPath := sandbox_path filePath in
    mkdir_loop id t filePath content normalizedPath ""
      (removelast (Js.path_parts normalizedPath)) w
  else file_local id t filePath content w.

Definition runShellAction (id : string) (t : nat) (content : string)
    (w : World) : World :=
  if E2B.isReady (e2b w) then
    let '(w, a) := Link.runCommand (FromAction id) content w in
    await a (KShellRun id t) w
  else inner_done id t (Resolved VUndef) w.

(** [#executeAction] up to its [await].  An id without entry cannot occur
    (see [runAction]); there the [switch] throws. *)
Definition executeAction (id : string) (t : nat) (w : World) : World :=
  match alist_lookup id (actions w) with
  | None => settle (PChain t) (Rejected "TypeError") w
  | Some a =>
      let w := updateStatus id running None (note (OBegin id) w) in
      match action a with
      | ShellAction content => runShellAction id t content w
      | FileAction filePath content => runFileAction id t filePath content w
      end
  end.

(** [#executeAction] after its [await]: the final status, and the promise
    of the [then] callback that called it. *)
Definition join (id : string) (t : nat) (o : outcome) (w : World) : World :=
  match o with
  | Resolved _ =>
      let is_aborted :=
        match alist_lookup id (actions w) with
        | Some a => signal_aborted a
        | None => false
        end in
      settle (PChain t) (Resolved VUndef)
        (note (OEnd id true)
           (updateStatus id (if is_aborted then aborted else complete) None w))
  | Rejected e =>
      settle (PChain t) (Rejected e)
        (note (OEnd id false)
           (updateStatus id failed (Some "Action failed") w))
  end.

End Runner.

(** ** The repair pass (WorkbenchStore.syncMissingFiles) *)

Module Sync.

Definition file_actions (l : list (string * ActionState))
  : list (string * string) :=
  omap (λ kv, match action kv.2 with
              | FileAction filePath content => Some (filePath, content)
              | ShellAction _ => None
              end) l.

Definition finish (st : SyncState) (w : World) : World :=
  mkWorld (fs w) (e2b w) (actions w) (tail w) (artifact w) (promises w)
    (nextChain w) (nextOp w) (nextCall w) (registry w) (microtasks w) (trace w)
    (syncResults w ++ [mkResult (s_synced st) (s_total st) (s_missing st)]).

Definition counted (st : SyncState) : SyncState :=
  mkSync (s_current st) (S (s_synced st)) (s_missing st) (s_total st).

Definition noticed (filePath : string) (st : SyncState) : SyncState :=
  mkSync (s_current st) (s_synced st) (s_missing st ++ [filePath]) (s_total st).

(** The inner loop over the parent directories and the write after it. *)
Fixpoint mkdir_loop (st : SyncState) (todo : list (string * string))
    (filePath content e2bPath : string)
    (currentPath : string) (parts : list string) (w : World) : World :=
  match parts with
  | [] =>
      let '(w, a) := Link.writeFile FromSync e2bPath content w in
      await a (KSyncWrite st todo filePath content e2bPath) w
  | part :: rest =>
      let currentPath := currentPath +:+ "/" +:+ part in
      if Js.startsWith currentPath "/home/user" then
        let '(w, a) := Link.makeDirectory FromSync currentPath w in
        await a (KSyncMkdir st todo filePath content e2bPath currentPath rest) w
      else mkdir_loop st todo filePath content e2bPath currentPath rest w
  end.

(** The loop over the file actions, up to its next [await]. *)
Fixpoint loop (st : SyncState) (todo : list (string * string)) (w : World)
  : World :=
  match todo with
  | [] => finish st w
  | (filePath, content) :: rest =>
      match s_current st !! FilesStore.normalize filePath with
      | Some (File _ _) => loop st rest w
      | _ =>
          let st := noticed filePath st in
          let w := with_fs (FilesStore.addFile filePath content) w in
          if E2B.isReady (e2b w) then
            let e2bPath := Runner.sandbox_path filePath in
            mkdir_loop st rest filePath content e2bPath ""
              (removelast (Js.path_parts e2bPath)) w
          else loop (counted st) rest w
      end
  end.

Definition syncMissingFiles (mid : string) (w : World) : World :=
  if decide (mid = artifact w) then
    let todo := file_actions (actions w) in
    loop (mkSync (FilesStore.files (fs w)) 0 [] (length todo)) todo w
  else
    mkWorld (fs w) (e2b w) (actions w) (tail w) (artifact w) (promises w)
      (nextChain w) (nextOp w) (nextCall w) (registry w) (microtasks w) (trace w)
      (syncResults w ++ [mkResult 0 0 []]).

End Sync.

(** ** Jobs and events *)

(** An [async] function resumes with the outcome of what it awaited. *)
Definition resume (f : frame) (o : outcome) (w : World) : World :=
  match f with
  | KFileMkdir id t filePath content normalizedPath currentPath rest =>
      match o with
      | Resolved _ =>
          Runner.mkdir_loop id t filePath content normalizedPath currentPath rest w
      | Rejected e =>
          Runner.inner_done id t (Rejected e) (note (OError "Failed to write file") w)
      end
  | KFileWrite id t filePath content normalizedPath =>
      match o with
      | Resolved _ => Runner.file_local id t filePath content w
      | Rejected e =>
          Runner.inner_done id t (Rejected e) (note (OError "Failed to write file") w)
      end
  | KShellRun id t =>
      match o with
      | Resolved _ => Runner.inner_done id t (Resolved VUndef) w
      | Rejected e =>
          Runner.inner_done id t (Rejected e)
            (note (OError "Failed to execute shell command") w)
      end
  | KExecJoin id t => Runner.join id t o w
  | KDrain op => Link.drain_resume op o w
  | KSyncMkdir st todo filePath content e2bPath currentPath rest =>
      match o with
      | Resolved _ =>
          Sync.mkdir_loop st todo filePath content e2bPath currentPath rest w
      | Rejected _ => Sync.loop st todo (note (OError "Failed to sync file") w)
      end
  | KSyncWrite st todo filePath content e2bPath =>
      match o with
      | Resolved _ => Sync.loop (Sync.counted st) todo w
      | Rejected _ => Sync.loop st todo (note (OError "Failed to sync file") w)
      end
  end.

(** A job of the microtask queue runs.  A [then] callback is skipped when
    its promise was rejected, and the rejection passes to the derived
    promise; a [catch] callback returns normally, so its promise resolves. *)
Definition run_job (r : reaction) (o : outcome) (w : World) : World :=
  match r with
  | RSetRunning id =>
      match o with
      | Resolved _ => Runner.updateStatus id running None w
      | Rejected _ => w
      end
  | RThenExec id t =>
      match o with
      | Resolved _ => Runner.executeAction id t w
      | Rejected e => settle (PChain t) (Rejected e) w
      end
  | RCatchLog p =>
      match o with
      | Resolved v => settle (PChain p) (Resolved v) w
      | Rejected _ =>
          settle (PChain p) (Resolved VUndef) (note (OError "Action failed:") w)
      end
  | RResume f => resume f o w
  end.

(** What can happen next: a call into the engine, the sandbox settling one
    of its promises, or the next job of the microtask queue. *)
Inductive event : Type :=
| EvAddAction (data : ActionCallbackData)
| EvRunAction (data : ActionCallbackData)
| EvAbort (actionId : string)
| EvSetConnected (connected : bool) (sandboxId : option string)
| EvSetConnecting (connecting : bool)
| EvSetError (e : option string)
| EvRegister (c : E2B.Callbacks)
| EvReset
| EvWriteFile (path content : string)
| EvMakeDirectory (path : string)
| EvRunCommand (command : string)
| EvSaveFile (filePath content : string)
| EvResetFileModifications
| EvSync (mid : string)
| EvSettle (c : nat) (o : outcome)
| EvTick.

Definition with_microtasks (m : list (reaction * outcome)) (w : World) : World :=
  mkWorld (fs w) (e2b w) (actions w) (tail w) (artifact w) (promises w)
    (nextChain w) (nextOp w) (nextCall w) (registry w) m (trace w)
    (syncResults w).

Definition tick (w : World) : World :=
  match microtasks w with
  | [] => w
  | (r, o) :: rest => run_job r o (with_microtasks rest w)
  end.

(** [WorkbenchStore.addAction] and [runAction] find the artifact of the
    message first, and throw without one. *)
Definition step (e : event) (w : World) : World :=
  match e with
  | EvAddAction data =>
      if decide (messageId data = artifact w) then Runner.addAction data w else w
  | EvRunAction data =>
      if decide (messageId data = artifact w) then Runner.runAction data w else w
  | EvAbort id => Runner.abort id w
  | EvSetConnected b id => with_e2b (E2B.with_state (E2B.setConnected b id)) w
  | EvSetConnecting b => with_e2b (E2B.with_state (E2B.setConnecting b)) w
  | EvSetError e => with_e2b (E2B.with_state (E2B.setError e)) w
  | EvRegister c => Link.registerSandboxCallbacks c w
  | EvReset => Link.reset w
  | EvWriteFile path content => (Link.writeFile FromOutside path content w).1
  | EvMakeDirectory path => (Link.makeDirectory FromOutside path w).1
  | EvRunCommand command => (Link.runCommand FromOutside command w).1
  | EvSaveFile filePath content => with_fs (FilesStore.saveFile filePath content) w
  | EvResetFileModifications => with_fs FilesStore.resetFileModifications w
  | EvSync mid => Sync.syncMissingFiles mid w
  | EvSettle c o =>
      if bool_decide (c < nextCall w) then settle (PCall c) o w else w
  | EvTick => tick w
  end.

Definition run (es : list event) (w : World) : World :=
  fold_left (λ w e, step e w) es w.

(** A fresh application: nothing connected, an empty store, and one artifact
    whose runner has no action; its chain starts at [Promise.resolve()]. *)
Definition init (mid : string) : World :=
  mkWorld FilesStore.empty E2B.init [] 0 mid {[PChain 0 := Resolved VUndef]}
    1 0 0 [] [] [] [].

Definition reachable (mid : string) (w : World) : Prop :=
  ∃ es, w = run es (init mid).

(** ** A sandbox that answers

    The calls that implementations have received, in order; the oldest one
    that is still unsettled; and a run in which jobs go first and, with no
    job left, the sandbox settles that call with what [oracle] returns for
    the implementation and the request. *)

Definition calls (tr : list obs) : list (nat * cb * CallKind) :=
  omap (λ o, match o with OCall c h k => Some (c, h, k) | _ => None end) tr.

Definition call_pending (w : World) (chk : nat * cb * CallKind) : bool :=
  bool_decide (promises w !! PCall chk.1.1 = None).

Definition next_pending (w : World) : option (nat * cb * CallKind) :=
  head (List.filter (call_pending w) (calls (trace w))).

Definition drive1 (oracle : cb → CallKind → outcome) (w : World) : World :=
  match microtasks w with
  | _ :: _ => step EvTick w
  | [] =>
      match next_pending w with
      | Some (c, h, k) => step (EvSettle c (oracle h k)) w
      | None => w
      end
  end.

Fixpoint drive (oracle : cb → CallKind → outcome) (n : nat) (w : World) : World :=
  match n with
  | 0 => w
  | S n => drive oracle n (drive1 oracle w)
  end.

(** Every call received so far is settled, and no promise exists yet for a
    call that has not been made. *)
Definition calls_settled (w : World) : Prop :=
  Forall (λ chk, is_Some (promises w !! PCall chk.1.1)) (calls (trace w)).

Definition fresh_calls (w : World) : Prop :=
  ∀ c : nat, nextCall w ≤ c → promises w !! PCall c = None.

(** Nothing is running and nobody waits: no job, no registered reaction. *)
Definition idle (w : World) : Prop :=
  microtasks w = [] ∧ registry w = [] ∧ calls_settled w ∧ fresh_calls w.



(** The world once the sandbox has settled call [c] with [o]: the promise is
    settled, what waited on it has left the registry, and the job it became
    has been taken from the queue. *)
Definition answered (c : nat) (o : outcome) (w : World) : World :=
  mkWorld (fs w) (e2b w) (actions w) (tail w) (artifact w)
    (<[PCall c := o]> (promises w)) (nextChain w) (nextOp w) (nextCall w)
    (List.filter (λ pr, negb (waits_on (PCall c) pr)) (registry w)) []
    (trace w) (syncResults w).

(** Only links of the execution chain have reactions registered: nothing
    waits on a sandbox call or on a queued operation. *)
Definition chain_only (w : World) : Prop :=
  Forall (λ pr : pid * reaction,
            match pr.1 with PChain _ => True | _ => False end) (registry w).

(** Between two jobs of one undisturbed execution: no job is queued, only
    the chain waits, and the sandbox owes no answer. *)
Definition calm (w : World) : Prop :=
  microtasks w = [] ∧ chain_only w ∧ calls_settled w ∧ fresh_calls w.

(** The world after [who] has asked for [k], the installed implementation
    [h] has been invoked, and the sandbox has answered [o]. *)
Definition called (who : origin) (h : cb) (k : CallKind) (o : outcome)
    (w : World) : World :=
  mkWorld (fs w) (e2b w) (actions w) (tail w) (artifact w)
    (<[PCall (nextCall w) := o]> (promises w)) (nextChain w) (nextOp w)
    (S (nextCall w)) (registry w) []
    (trace w ++ [ORequest who k; OCall (nextCall w) h k]) (syncResults w).

(** A sandbox that never rejects. *)
Definition resolves (oracle : cb → CallKind → outcome) : Prop :=
  ∀ h k, ∃ v, oracle h k = Resolved v.




(** ** The execution chain of a runner

    What an instrumented run shows of a turn: the ids in the order
    [runAction] appended them, the ids in the order [executeAction] entered
    them, and a check that executions do not overlap: an execution is
    entered only when none is in progress, left only by the one in
    progress, and an operation of the link is called on behalf of an action
    only while that action is the one in progress. *)

Definition submitted (tr : list obs) : list string :=
  omap (λ o, match o with OSubmit id _ _ => Some id | _ => None end) tr.

Definition begun (tr : list obs) : list string :=
  omap (λ o, match o with OBegin id => Some id | _ => None end) tr.

Definition serial_step (cur : option string) (o : obs) : option (option string) :=
  match o with
  | OBegin id =>
      match cur with None => Some (Some id) | Some _ => None end
  | OEnd id _ =>
      match cur with
      | Some id' => if decide (id' = id) then Some None else None
      | None => None
      end
  | ORequest (FromAction id) _ =>
      match cur with
      | Some id' => if decide (id' = id) then Some cur else None
      | None => None
      end
  | _ => Some cur
  end.

Fixpoint serial_go (cur : option string) (tr : list obs) : option (option string) :=
  match tr with
  | [] => Some cur
  | o :: tr =>
      match serial_step cur o with
      | Some cur' => serial_go cur' tr
      | None => None
      end
  end.

Definition serial (tr : list obs) : option (option string) := serial_go None tr.

(** The execution a frame belongs to: the action and the promise of its
    [then] callback. *)
Definition exec_frame (f : frame) : option (string * nat) :=
  match f with
  | KFileMkdir id t _ _ _ _ _ => Some (id, t)
  | KFileWrite id t _ _ _ => Some (id, t)
  | KShellRun id t => Some (id, t)
  | KExecJoin id t => Some (id, t)
  | _ => None
  end.

Definition exec_of (r : reaction) : option (string * nat) :=
  match r with RResume f => exec_frame f | _ => None end.

(** The callbacks that [runAction] chains. *)
Definition is_link (r : reaction) : bool :=
  match r with RThenExec _ _ | RCatchLog _ => true | _ => false end.

(** Every reaction of the world, registered or queued; the executions in
    progress; the chained callbacks that wait, and those that are jobs. *)
Definition pool (w : World) : list reaction :=
  (registry w).*2 ++ (microtasks w).*1.

Definition execs (w : World) : list (string * nat) := omap exec_of (pool w).

Definition link_regs (w : World) : list (pid * reaction) :=
  List.filter (λ pr, is_link pr.2) (registry w).

Definition link_jobs (w : World) : list (reaction * outcome) :=
  List.filter (λ ro, is_link ro.1) (microtasks w).

(** The [j]-th submission of a turn (from 0) chains on promise [2j]; its
    [then] callback has promise [2j+1] and its [catch] callback [2j+2]. *)
Fixpoint waiting_regs (j : nat) (ids : list string) : list (pid * reaction) :=
  match ids with
  | [] => []
  | id :: rest =>
      (PChain (2 * j), RThenExec id (2 * j + 1))
      :: (PChain (2 * j + 1), RCatchLog (2 * j + 2))
      :: waiting_regs (S j) rest
  end.

(** Where the chain stands for the first submission that is not finished. *)
Inductive phase : Type :=
| Idle                    (* every submission is finished *)
| Queued (v : value)      (* its [then] callback is a job *)
| Running                 (* it is executing *)
| Catching (o : outcome). (* it has ended; its [catch] callback is a job *)

Definition nth_id (ids : list string) (d : nat) : string := default "" (ids !! d).

Definition started (d : nat) (ph : phase) : nat :=
  match ph with Running | Catching _ => S d | _ => d end.

Definition current (ids : list string) (d : nat) (ph : phase) : option string :=
  match ph with Running => Some (nth_id ids d) | _ => None end.

Definition running_execs (ids : list string) (d : nat) (ph : phase)
  : list (string * nat) :=
  match ph with Running => [(nth_id ids d, 2 * d + 1)] | _ => [] end.

Definition expected_regs (ids : list string) (d : nat) (ph : phase)
  : list (pid * reaction) :=
  match ph with
  | Queued _ | Running => [(PChain (2 * d + 1), RCatchLog (2 * d + 2))]
  | _ => []
  end ++ waiting_regs (S d) (drop (S d) ids).

Definition expected_jobs (ids : list string) (d : nat) (ph : phase)
  : list (reaction * outcome) :=
  match ph with
  | Queued v => [(RThenExec (nth_id ids d) (2 * d + 1), Resolved v)]
  | Catching o => [(RCatchLog (2 * d + 2), o)]
  | _ => []
  end.

(** The invariant of the chain: [d] submissions are finished, the next one
    is in phase [ph], [ex] are the executions in progress, [cur] is the
    action that the trace shows in progress and [jobs] are the chained
    callbacks in the job queue. *)
Record chain_inv (w : World) (d : nat) (ph : phase)
    (ex : list (string * nat)) (cur : option string)
    (jobs : list (reaction * outcome)) : Prop := mkChainInv {
  ci_tail : tail w = 2 * length (submitted (trace w));
  ci_next : nextChain w = 2 * length (submitted (trace w)) + 1;
  ci_phase : match ph with
             | Idle => d = length (submitted (trace w))
             | _ => d < length (submitted (trace w))
             end;
  ci_resolved : ∀ j, j ≤ d → ∃ v, promises w !! PChain (2 * j) = Some (Resolved v);
  ci_pending : ∀ n, 2 * d + 1 < n → promises w !! PChain n = None;
  ci_then : match ph with
            | Catching _ => True
            | _ => promises w !! PChain (2 * d + 1) = None
            end;
  ci_regs : link_regs w = expected_regs (submitted (trace w)) d ph;
  ci_jobs : link_jobs w = jobs;
  ci_execs : execs w ≡ₚ ex;
  ci_begun : begun (trace w) = take (started d ph) (submitted (trace w));
  ci_serial : serial (trace w) = Some cur;
  ci_executed : ∀ id, id ∈ submitted (trace w) →
                  ∃ a, alist_lookup id (actions w) = Some a ∧ executed a = true;
  ci_nodup : NoDup (submitted (trace w))
}.

Definition chain_ok (w : World) : Prop :=
  ∃ d ph,
    chain_inv w d ph (running_execs (submitted (trace w)) d ph)
      (current (submitted (trace w)) d ph)
      (expected_jobs (submitted (trace w)) d ph).

Definition non_chain (p : pid) : Prop :=
  match p with PChain _ => False | _ => True end.

(** The action on whose behalf an operation of the link is called. *)
Definition who_of (o : origin) : option string :=
  match o with FromAction id => Some id | _ => None end.

(** The frame in which [#executeAction] waits for the end of the action. *)
Definition is_join (f : frame) : bool :=
  match f with KExecJoin _ _ => true | _ => false end.

(** An observation that says nothing about the chain, for a step made on
    behalf of [who]. *)
Definition neutral (who : option string) (o : obs) : Prop :=
  match o with
  | OSubmit _ _ _ | OBegin _ | OEnd _ _ => False
  | ORequest (FromAction id) _ => who = Some id
  | _ => True
  end.

(** A step made on behalf of [who] fits a trace that shows [cur] in
    progress. *)
Definition compatible (who cur : option string) : Prop :=
  match who with None => True | Some id => cur = Some id end.

Definition links_on_chain (w : World) : Prop :=
  Forall (λ pr : pid * reaction,
            match pr.1 with PChain _ => True | _ => False end) (link_regs w).

(** A step that leaves the chain alone: it may add the executions [add],
    move reactions from the registry to the job queue, and observe things
    that are neutral for [who]. *)
Record chain_frame (who : option string) (add : list (string * nat))
    (w w' : World) : Prop := mkChainFrame {
  cf_tail : tail w' = tail w;
  cf_next : nextChain w' = nextChain w;
  cf_chain : ∀ n, promises w' !! PChain n = promises w !! PChain n;
  cf_regs : link_regs w' = link_regs w;
  cf_jobs : link_jobs w' = link_jobs w;
  cf_execs : execs w' ≡ₚ execs w ++ add;
  cf_trace : ∃ extra, trace w' = trace w ++ extra ∧ Forall (neutral who) extra;
  cf_executed : ∀ id a, alist_lookup id (actions w) = Some a → executed a = true →
                  ∃ a', alist_lookup id (actions w') = Some a' ∧ executed a' = true
}.

Definition delta (who : option string) (add : list (string * nat))
    (w w' : World) : Prop :=
  links_on_chain w → chain_frame who add w w'.

(** ** A turn under a sandbox that answers

    The producer delivers the actions of a turn, each added and then
    submitted, to a fresh runner whose sandbox link is in state [s]; then
    the jobs run and the sandbox answers every call by [oracle]. *)

Definition start (mid : string) (s : E2B.t) : World :=
  with_e2b (λ _, s) (init mid).

Definition submit_all (mid : string) (acts : list (string * BoltAction))
  : list event :=
  flat_map (λ ia, [EvAddAction (mkData mid ia.1 ia.2);
                   EvRunAction (mkData mid ia.1 ia.2)]) acts.

(** The sandbox has its implementations. *)
Definition installed (s : E2B.t) : Prop :=
  is_Some (E2B.fileWriteCallback s)
  ∧ is_Some (E2B.makeDirectoryCallback s)
  ∧ is_Some (E2B.runCommandCallback s).

(** The calls that the loop over the parent directories makes. *)
Fixpoint dir_requests (hm : cb) (currentPath : string) (parts : list string)
  : list (cb * CallKind) :=
  match parts with
  | [] => []
  | part :: rest =>
      let currentPath := currentPath +:+ "/" +:+ part in
      (if Js.startsWith currentPath "/home/user"
       then [(hm, CMkdir currentPath)] else [])
      ++ dir_requests hm currentPath rest
  end.

(** The calls that the execution of an action makes when none rejects. *)
Definition action_requests (s : E2B.t) (a : BoltAction) : list (cb * CallKind) :=
  if E2B.isReady s then
    match a with
    | FileAction filePath content =>
        match E2B.makeDirectoryCallback s, E2B.fileWriteCallback s with
        | Some hm, Some hw =>
            dir_requests hm ""
              (removelast (Js.path_parts (Runner.sandbox_path filePath)))
            ++ [(hw, CWrite (Runner.sandbox_path filePath) content)]
        | _, _ => []
        end
    | ShellAction content =>
        match E2B.runCommandCallback s with
        | Some hr => [(hr, CRun content)]
        | None => []
        end
    end
  else [].

Definition is_resolved (o : outcome) : bool :=
  match o with Resolved _ => true | Rejected _ => false end.

(** No call of the action is rejected. *)
Definition succeeds (oracle : cb → CallKind → outcome) (s : E2B.t)
    (a : BoltAction) : bool :=
  forallb (λ hk, is_resolved (oracle hk.1 hk.2)) (action_requests s a).

(** The entry of an action once the turn is over. *)
Definition final_state (oracle : cb → CallKind → outcome) (s : E2B.t)
    (a : BoltAction) : ActionState :=
  if succeeds oracle s a then mkAction a complete None true false
  else mkAction a failed (Some "Action failed") true false.

(** The entry of an action whose execution has ended with [o]. *)
Definition ended (a : BoltAction) (o : outcome) : ActionState :=
  if is_resolved o then mkAction a complete None true false
  else mkAction a failed (Some "Action failed") true false.

(** The write of an action to the local store. *)
Definition local_write (a : BoltAction) (s : FilesStore.t) : FilesStore.t :=
  match a with
  | FileAction filePath content => FilesStore.addFile filePath content s
  | ShellAction _ => s
  end.

(** The local store after the actions [acts], of which those write that
    the sandbox lets succeed. *)
Definition local_writes (oracle : cb → CallKind → outcome) (s : E2B.t)
    (acts : list (string * BoltAction)) (f : FilesStore.t) : FilesStore.t :=
  fold_left (λ f ia, if succeeds oracle s ia.2 then local_write ia.2 f else f)
    acts f.

(** The body of an execution, between the two halves of [executeAction]. *)
Definition run_inner (id : string) (t : nat) (a : BoltAction) (w : World) : World :=
  match a with
  | ShellAction content => Runner.runShellAction id t content w
  | FileAction filePath content => Runner.runFileAction id t filePath content w
  end.

(** What the actions behind the one in progress have registered: chained on
    promise [p], each its visibility update, its [then] callback and its
    [catch] callback. *)
Fixpoint wait_full (p : nat) (acts : list (string * BoltAction))
  : list (pid * reaction) :=
  match acts with
  | [] => []
  | ia :: rest =>
      (PChain p, RSetRunning ia.1)
      :: (PChain p, RThenExec ia.1 (S p))
      :: (PChain (S p), RCatchLog (S (S p)))
      :: wait_full (S (S p)) rest
  end.

(** The turn is about to execute [(id, a)], chained on promise [p], with
    [rest] behind it; [fin] are the entries of the actions already over. *)
Record turn_ready (s : E2B.t) (p : nat) (v : value) (id : string)
    (a : BoltAction) (rest : list (string * BoltAction)) (w : World) : Prop :=
  mkTurnReady {
  tr_e2b : e2b w = s;
  tr_jobs : microtasks w
            = [(RSetRunning id, Resolved v); (RThenExec id (S p), Resolved v)];
  tr_regs : registry w
            = (PChain (S p), RCatchLog (S (S p))) :: wait_full (S (S p)) rest;
  tr_pending : ∀ n, p < n → promises w !! PChain n = None;
  tr_calls : calls_settled w;
  tr_fresh : fresh_calls w;
  tr_actions : ∀ ia, ia ∈ (id, a) :: rest →
                 alist_lookup ia.1 (actions w)
                 = Some (mkAction ia.2 pending None true false)
}.

(** What a step inside one execution leaves alone. *)
Record same_turn (w w' : World) : Prop := mkSameTurn {
  st_e2b : e2b w' = e2b w;
  st_regs : registry w' = registry w;
  st_actions : actions w' = actions w;
  st_chain : ∀ n, promises w' !! PChain n = promises w !! PChain n;
  st_begun : begun (trace w') = begun (trace w);
  st_calm : calm w'
}.

(** ** The claims that the code does not satisfy, as the spec words them *)



(** The run that refutes C3 on the code: the sandbox is connected, its
    implementations are installed, a file action is added and submitted, the
    directory call resolves and the write call rejects. *)
Definition C3_callbacks : E2B.Callbacks := E2B.mkCallbacks 1 2 3 4 5 None.

Definition C3_action : ActionCallbackData :=
  mkData "m" "0" (FileAction "a.txt" "x").

Definition C3_rejected_write : World :=
  run [EvSetConnected true (Some "sb"); EvRegister C3_callbacks;
       EvAddAction C3_action; EvRunAction C3_action;
       EvTick; EvTick;
       EvSettle 0 (Resolved (VBool true)); EvTick;
       EvSettle 1 (Rejected "write failed"); EvTick;
       EvTick; EvTick]
      (init "m").

(** A second such run, inside the engine alone: the action starts while the
    sandbox is connecting, its first operation is queued, and [reset]
    rejects it. *)
Definition C3_reset_while_queued : World :=
  run [EvSetConnecting true;
       EvAddAction C3_action; EvRunAction C3_action;
       EvTick; EvTick;
       EvReset; EvTick;
       EvTick; EvTick]
      (init "m").



(** A sandbox in which making a directory fails, and a queue of four
    operations, the second with an empty command. *)
Definition C4_oracle (h : cb) (k : CallKind) : outcome :=
  match k with
  | CMkdir _ => Rejected "mkdir failed"
  | _ => Resolved (VBool true)
  end.



(** The claim C8 as the spec states it, for a world whose artifact has one
    recorded file action, for the path /a.txt: the repair reports the
    missing path as a.txt and stores the file at /project/a.txt, and a
    second repair reports nothing. *)
Definition C8_as_stated (w : World) : Prop :=
  let w1 := step (EvSync (artifact w)) w in
  let w2 := step (EvSync (artifact w)) w1 in
  last (syncResults w1) = Some (mkResult 1 1 ["a.txt"])
  ∧ is_Some (FilesStore.getFile "/project/a.txt" (fs w1))
  ∧ last (syncResults w2) = Some (mkResult 0 1 []).

(** The file action for /a.txt is recorded and has not been executed; the
    sandbox was never provisioned. *)
Definition C8_unreflected : World :=
  run [EvAddAction (mkData "m" "0" (FileAction "/a.txt" "x")); EvTick] (init "m").

(** The same with the relative path a.txt. *)
Definition C8_relative : World :=
  run [EvAddAction (mkData "m" "0" (FileAction "a.txt" "x")); EvTick] (init "m").


(** A turn of three actions under a connected sandbox that rejects the
    write of the second one. *)
Definition C2_sandbox : E2B.t :=
  e2b (run [EvSetConnected true (Some "sb"); EvRegister C3_callbacks] (init "m")).

Definition C2_oracle (h : cb) (k : CallKind) : outcome :=
  match k with
  | CWrite path _ =>
      if String.eqb path "/home/user/b.txt" then Rejected "disk full"
      else Resolved (VBool true)
  | _ => Resolved (VBool true)
  end.

Definition C2_acts : list (string * BoltAction) :=
  [("0", FileAction "a.txt" "x"); ("1", FileAction "b.txt" "y");
   ("2", ShellAction "ls")].

Definition C2_turn : World :=
  drive C2_oracle 22 (run (submit_all "m" C2_acts) (start "m" C2_sandbox)).

(** ** The counter of the file store

    The number of file entries of a map, and the stores whose counter
    agrees with it. *)

Definition file_count (m : gmap string Dirent) : nat :=
  size (filter (λ kv : string * Dirent, is_file kv.2 = true) m).

Definition counted (s : FilesStore.t) : Prop :=
  FilesStore.filesCount s = file_count (FilesStore.files s).

(** The operations of the store that a conversation performs, apart from
    [saveFile]. *)
Inductive store_op : Type :=
| SAddFile (filePath content : string)
| SSetChatId (id : option string)
| SResetFiles
| SResetFileModifications.

Definition store_apply (s : FilesStore.t) (o : store_op) : FilesStore.t :=
  match o with
  | SAddFile filePath content => FilesStore.addFile filePath content s
  | SSetChatId id => FilesStore.setChatId id s
  | SResetFiles => FilesStore.resetFiles s
  | SResetFileModifications => FilesStore.resetFileModifications s
  end.


(** A store of conversation [c1] that holds one file. *)
Definition X_store : FilesStore.t :=
  FilesStore.addFile "src/a.ts" "x" (FilesStore.setChatId (Some "c1") FilesStore.empty).

(** ** The queue of the sandbox link

    The operations that the drain loop holds while it waits for their
    calls, the promises of the queued operations, and what every queued
    operation carries. *)

Definition drain_op (r : reaction) : option E2B.PendingOperation :=
  match r with RResume (KDrain op) => Some op | _ => None end.

Definition drains (w : World) : list E2B.PendingOperation := omap drain_op (pool w).

Definition queued (w : World) : list nat :=
  E2B.op_promise <$> E2B.pendingOperations (e2b w).

Definition op_wf (op : E2B.PendingOperation) : Prop :=
  match E2B.op_type op with
  | E2B.OpWriteFile => is_Some (E2B.op_path op) ∧ is_Some (E2B.op_content op)
  | E2B.OpMakeDirectory => is_Some (E2B.op_path op)
  | E2B.OpRunCommand => is_Some (E2B.op_command op)
  end.

(** The invariant of the queue; [hole] is the promise of the operation
    that a step has taken in hand and not yet settled or parked. *)
Record queue_inv (hole : list nat) (w : World) : Prop := mkQueueInv {
  qo_nodup : NoDup (queued w);
  qo_pending : ∀ q, q ∈ queued w → promises w !! POp q = None;
  qo_below : ∀ q, q ∈ queued w → q < nextOp w;
  qo_fresh : ∀ q, nextOp w ≤ q → promises w !! POp q = None;
  qo_flight : ∀ op, op ∈ drains w →
                E2B.op_promise op < nextOp w ∧ E2B.op_promise op ∉ queued w;
  qo_wf : Forall op_wf (E2B.pendingOperations (e2b w));
  qo_live : ∀ q, q < nextOp w →
              is_Some (promises w !! POp q) ∨ q ∈ queued w
              ∨ q ∈ E2B.op_promise <$> drains w ∨ q ∈ hole;
  qo_hole : ∀ q, q ∈ hole → q < nextOp w ∧ q ∉ queued w
}.

Definition queue_ok (w : World) : Prop := queue_inv [] w.

(** A step that leaves the queue, its promises and the drain loop alone. *)
Record op_frame (w w' : World) : Prop := mkOpFrame {
  of_queue : E2B.pendingOperations (e2b w') = E2B.pendingOperations (e2b w);
  of_next : nextOp w' = nextOp w;
  of_ops : ∀ q, promises w' !! POp q = promises w !! POp q;
  of_drains : drains w' ≡ₚ drains w
}.


(** Two operations issued while the sandbox connects. *)
Definition X_two_queued : list event :=
  [EvSetConnecting true; EvWriteFile "/home/user/a" "1"; EvRunCommand "ls"].

(** ** Single executions: entries that were aborted *)

(** The entry of an action that was aborted before its execution ended. *)
Definition aborted_state (oracle : cb → CallKind → outcome) (s : E2B.t)
    (a : BoltAction) : ActionState :=
  if succeeds oracle s a then mkAction a aborted None true true
  else mkAction a failed (Some "Action failed") true true.

(** The entry of an action when its execution ends with [o]. *)
Definition joined (st : ActionState) (o : outcome) : ActionState :=
  match o with
  | Resolved _ =>
      mkAction (action st) (if signal_aborted st then aborted else complete)
        (error st) (executed st) (signal_aborted st)
  | Rejected _ =>
      mkAction (action st) failed (Some "Action failed") (executed st)
        (signal_aborted st)
  end.


(** ** The repair pass, as a function of the snapshot *)

(** The file actions whose local path holds no file in the snapshot. *)
Definition lacking (current : gmap string Dirent) (todo : list (string * string))
  : list (string * string) :=
  List.filter
    (λ pc, match current !! FilesStore.normalize pc.1 with
           | Some (File _ _) => false
           | _ => true
           end) todo.

(** The repairs whose sandbox calls all resolve. *)
Definition repaired (oracle : cb → CallKind → outcome) (s : E2B.t)
    (l : list (string * string)) : list (string * string) :=
  List.filter (λ pc, succeeds oracle s (FileAction pc.1 pc.2)) l.

Definition add_all (l : list (string * string)) (f : FilesStore.t) : FilesStore.t :=
  fold_left (λ f pc, FilesStore.addFile pc.1 pc.2 f) l f.

(** What a step of the repair pass leaves alone. *)
Record sync_frame (w w' : World) : Prop := mkSyncFrame {
  sf_calm : calm w';
  sf_e2b : e2b w' = e2b w;
  sf_actions : actions w' = actions w;
  sf_results : syncResults w' = syncResults w;
  sf_artifact : artifact w' = artifact w;
  sf_registry : registry w' = registry w
}.


(** Two file actions added under a connected sandbox, and nothing run. *)
Definition X_two_files : World :=
  run [EvSetConnected true (Some "sb"); EvRegister C3_callbacks;
       EvAddAction (mkData "m" "0" (FileAction "a.txt" "x"));
       EvAddAction (mkData "m" "1" (FileAction "b.txt" "y")); EvTick; EvTick]
    (init "m").

(** A drain in progress: one operation queued while connecting, then the
    implementations registered, and the sandbox has not answered yet. *)
Definition X_draining : list event :=
  [EvSetConnecting true; EvWriteFile "/home/user/a" "1"; EvRegister C3_callbacks].


(** ** The artifacts of the workbench (WorkbenchStore) *)

Module Workbench.

(** An entry of [artifacts]; [art_runner] tells the runners apart: it is
    the number of runners created before this one. *)
Record ArtifactState : Type := mkArtifact {
  art_id : string;
  art_title : string;
  art_closed : bool;
  art_runner : nat
}.

Record ArtifactCallbackData : Type := mkArtifactData {
  ad_messageId : string;
  ad_title : string;
  ad_id : string
}.

(** [Partial<ArtifactUpdateState>]: the fields that are given. *)
Record ArtifactUpdate : Type := mkUpdate {
  up_title : option string;
  up_closed : option bool
}.

Record t : Type := mk {
  artifacts : gmap string ArtifactState;
  artifactIdList : list string;
  runners : nat
}.

Definition empty : t := mk ∅ [] 0.

Definition getArtifact (id : string) (s : t) : option ArtifactState :=
  artifacts s !! id.

(** [firstArtifact]: with an empty list the index yields [undefined], which
    as a key is the string "undefined". *)
Definition firstArtifact (s : t) : option ArtifactState :=
  getArtifact (default "undefined" (head (artifactIdList s))) s.

Definition addArtifact (d : ArtifactCallbackData) (s : t) : t :=
  match getArtifact (ad_messageId d) s with
  | Some _ => s
  | None =>
      mk (<[ad_messageId d := mkArtifact (ad_id d) (ad_title d) false (runners s)]>
            (artifacts s))
         (if bool_decide (ad_messageId d ∈ artifactIdList s) then artifactIdList s
          else artifactIdList s ++ [ad_messageId d])
         (S (runners s))
  end.

Definition updateArtifact (messageId : string) (u : ArtifactUpdate) (s : t) : t :=
  match getArtifact messageId s with
  | None => s
  | Some a =>
      mk (<[messageId := mkArtifact (art_id a) (default (art_title a) (up_title u))
                           (default (art_closed a) (up_closed u)) (art_runner a)]>
            (artifacts s))
         (artifactIdList s) (runners s)
  end.

(** What [setChatId(undefined)] and [resetForNewChat] do to the artifacts:
    the list is emptied and every key is removed. *)
Definition clearArtifacts (s : t) : t := mk ∅ [] (runners s).

Inductive op : Type :=
| AddArtifact (d : ArtifactCallbackData)
| UpdateArtifact (messageId : string) (u : ArtifactUpdate)
| ClearArtifacts.

Definition apply (s : t) (o : op) : t :=
  match o with
  | AddArtifact d => addArtifact d s
  | UpdateArtifact messageId u => updateArtifact messageId u s
  | ClearArtifacts => clearArtifacts s
  end.

(** The list names the artifacts that exist, each once. *)
Definition listed (s : t) : Prop :=
  NoDup (artifactIdList s)
  ∧ ∀ id, id ∈ artifactIdList s ↔ is_Some (artifacts s !! id).

End Workbench.

(** ** The choice of the model provider (streamText) *)

Module Llm.

Record ProviderConfig : Type := mkConfig {
  cfg_apiKey : option string;
  cfg_modelId : option string
}.

(** The model handed to the streaming call: [getOpenRouterModel(apiKey,
    modelId)], or [getAnthropicModel] of the key of the environment. *)
Inductive Model : Type :=
| OpenRouter (apiKey modelId : string)
| Anthropic (envKey : string).

(** [providerConfig?.apiKey] and [providerConfig?.modelId] as conditions. *)
Definition given_key (cfg : option ProviderConfig) : option string :=
  cfg ≫= λ c, Link.present (cfg_apiKey c).

Definition given_model (cfg : option ProviderConfig) : option string :=
  cfg ≫= λ c, Link.present (cfg_modelId c).

Definition choose_model (envKey : string) (cfg : option ProviderConfig) : Model :=
  match given_key cfg, given_model cfg with
  | Some k, Some m => OpenRouter k m
  | _, _ => Anthropic envKey
  end.

Definition beta_header : string * string :=
  ("anthropic-beta", "max-tokens-3-5-sonnet-2024-07-15").

(** The [headers] constant. *)
Definition own_headers (cfg : option ProviderConfig) : list (string * string) :=
  match given_key cfg with
  | Some _ => []
  | None => [beta_header]
  end.

(** The headers of the call: [...options] comes last, so headers given in
    the options replace the constant. *)
Definition headers (options_headers : option (list (string * string)))
    (cfg : option ProviderConfig) : list (string * string) :=
  default (own_headers cfg) options_headers.

End Llm.

(** ** The API key of the sandbox link (e2bStore) *)

Module ApiKey.

(** The state map, the atom [e2bApiKey], and the item [e2b_api_key] of
    localStorage. *)
Record t : Type := mk {
  state : E2B.E2BState;
  atom : string;
  item : option string
}.

Definition with_key (key : string) (s : E2B.E2BState) : E2B.E2BState :=
  E2B.mkState key (E2B.isConnected s) (E2B.isConnecting s) (E2B.sandboxId s)
    (E2B.error s) (E2B.isSyncing s) (E2B.autoCreateTriggered s).

(** [storage] tells whether [localStorage] is defined. *)
Definition setApiKey (storage : bool) (key : string) (s : t) : t :=
  mk (with_key key (state s)) key (if storage then Some key else item s).

Definition getApiKey (s : t) : string := atom s.

Definition loadApiKey (storage : bool) (s : t) : t * string :=
  if storage then
    let key := default "" (Link.present (item s)) in
    (mk (with_key key (state s)) key (item s), key)
  else (s, "").

(** [reset], as far as the key is concerned: the state map goes back to
    its initial value; the atom and the stored item stay. *)
Definition reset (s : t) : t := mk E2B.initialState (atom s) (item s).

End ApiKey.


(** The key holds a file. *)
Definition file_at (m : gmap string Dirent) (k : string) : bool :=
  match m !! k with Some (File _ _) => true | _ => false end.

(** One action added, submitted and begun. *)
Definition X_begun : list event :=
  [EvAddAction C3_action; EvRunAction C3_action; EvTick; EvTick].

(** ** The provider settings (providerStore) *)

Module Provider.

(** The two fields that are persisted, and the error; the list of models
    and the loading flag play no part here. *)
Record ProviderSettings : Type := mkSettings {
  apiKey : string;
  selectedModel : string;
  error : option string
}.

(** The store and the item [bolt_provider_settings] of localStorage, as
    the object that [JSON.parse] gives back: its [apiKey] and its
    [selectedModel]. *)
Record t : Type := mk {
  settings : ProviderSettings;
  item : option (string * string)
}.

Definition default_model : string := "anthropic/claude-3.5-sonnet".

(** [a || b] on strings. *)
Definition or_else (a b : string) : string := if Js.truthy a then a else b.

(** [loadFromStorage]: the partial settings, [None] for the empty object;
    [window] tells whether the code runs in a browser. *)
Definition loadFromStorage (window : bool) (item : option (string * string))
  : option (string * string) :=
  if window then
    match item with
    | Some (k, m) => Some (or_else k "", or_else m "")
    | None => None
    end
  else None.

(** [saveToStorage]: the fields of [existing] are replaced by the two of
    the settings. *)
Definition saveToStorage (window : bool) (s : ProviderSettings)
    (item : option (string * string)) : option (string * string) :=
  if window then Some (apiKey s, selectedModel s) else item.

(** The store as the module creates it when it is loaded. *)
Definition initial (window : bool) (item : option (string * string)) : t :=
  mk (mkSettings
        (or_else (default "" (fst <$> loadFromStorage window item)) "")
        (or_else (default "" (snd <$> loadFromStorage window item)) default_model)
        None)
     item.

Definition setApiKey (window : bool) (key : string) (s : t) : t :=
  let st := mkSettings key (selectedModel (settings s)) None in
  mk st (saveToStorage window st (item s)).

Definition setSelectedModel (window : bool) (modelId : string) (s : t) : t :=
  let st := mkSettings (apiKey (settings s)) modelId (error (settings s)) in
  mk st (saveToStorage window st (item s)).

Definition setError (e : option string) (s : t) : t :=
  mk (mkSettings (apiKey (settings s)) (selectedModel (settings s)) e) (item s).

(** The page is loaded again: the store is created from what is stored. *)
Definition reload (window : bool) (s : t) : t := initial window (item s).

End Provider.


(** * Properties *)

(** ** The state setters of the sandbox link *)

(** C10: for every boolean and id, [setConnected] stores its second argument
    as the sandbox id (null when omitted), sets [isConnecting] to false and
    [isConnected] to its first argument, and leaves the other fields alone;
    so [setConnected(false)] erases a stored id and ends a connecting phase. *)
Theorem C10_setConnected_overwrites :
  ∀ (b : bool) (id : option string) (w : World),
    let s := E2B.state (e2b w) in
    let w' := step (EvSetConnected b id) w in
    let s' := E2B.state (e2b w') in
    E2B.sandboxId s' = id
    ∧ E2B.isConnecting s' = false
    ∧ E2B.isConnected s' = b
    ∧ E2B.sandboxId (E2B.setConnected false None s) = None
    ∧ E2B.isConnecting (E2B.setConnected false None s) = false
    ∧ E2B.apiKey s' = E2B.apiKey s
    ∧ E2B.error s' = E2B.error s
    ∧ E2B.isSyncing s' = E2B.isSyncing s
    ∧ E2B.autoCreateTriggered s' = E2B.autoCreateTriggered s
    ∧ E2B.pendingOperations (e2b w') = E2B.pendingOperations (e2b w)
    ∧ E2B.fileWriteCallback (e2b w') = E2B.fileWriteCallback (e2b w).
Proof. intros b id w. cbn. repeat split. Qed.

(** ** The modification baseline *)

Section baseline.
Import FilesStore.

Lemma saveFile_files (p c : string) (s : t) :
  files (saveFile p c s) = <[p := File c false]> (files s).
Proof. unfold saveFile, persistToStorage. cbn. by destruct (chatId s). Qed.

Lemma saveFile_modified (p c : string) (s : t) :
  modifiedFiles (saveFile p c s) =
    match modifiedFiles s !! p, getFile p s ≫= content_of with
    | None, Some old => <[p := old]> (modifiedFiles s)
    | _, _ => modifiedFiles s
    end.
Proof. unfold saveFile, persistToStorage. cbn. by destruct (chatId s). Qed.

(** A recorded baseline survives a write to any path. *)
Lemma saveFile_keeps_baseline (p q c x : string) (s : t) :
  modifiedFiles s !! p = Some x →
  modifiedFiles (saveFile q c s) !! p = Some x.
Proof.
  intros Hp. rewrite saveFile_modified.
  destruct (modifiedFiles s !! q) eqn:Hq; [done|].
  destruct (getFile q s ≫= content_of); [|done].
  rewrite lookup_insert_ne; [done|]. intros ->. congruence.
Qed.

Lemma saveFile_first_touch (p y x : string) (b : bool) (s : t) :
  files s !! p = Some (File x b) →
  modifiedFiles s !! p = None →
  modifiedFiles (saveFile p y s) = <[p := x]> (modifiedFiles s).
Proof.
  intros Hf Hm. rewrite saveFile_modified, Hm.
  unfold getFile. by rewrite Hf.
Qed.

Lemma save_all_keeps_baseline (writes : list (string * string)) :
  ∀ (p x : string) (s : t),
    modifiedFiles s !! p = Some x →
    modifiedFiles (save_all writes s) !! p = Some x.
Proof.
  induction writes as [|[q c] writes IH]; intros p x s Hp; [done|].
  cbn. apply IH. by apply saveFile_keeps_baseline.
Qed.

(** Repeated writes to [p] never touch a baseline that has an entry
    for [p]. *)
Lemma save_all_same_path (cs : list string) :
  ∀ (p x : string) (m : gmap string string) (s : t),
    modifiedFiles s = <[p := x]> m →
    modifiedFiles (save_all (List.map (λ c, (p, c)) cs) s) = <[p := x]> m.
Proof.
  induction cs as [|c cs IH]; intros p x m s Hs; [done|].
  cbn. apply IH. rewrite saveFile_modified, Hs, lookup_insert_eq. done.
Qed.
End baseline.

(** C6: the first write to a path that holds a file records that file's
    content as the path's baseline, and no later write, to this path or to
    another, replaces it; with an empty baseline, writing [y] and then [z]
    over [x] leaves exactly the entry from the path to [x]. *)
Theorem C6_first_touch_baseline :
  ∀ (p x y : string) (b : bool) (s : FilesStore.t),
    FilesStore.files s !! p = Some (File x b) →
    FilesStore.modifiedFiles s !! p = None →
    (∀ later : list (string * string),
       FilesStore.modifiedFiles
         (FilesStore.save_all later (FilesStore.saveFile p y s)) !! p = Some x)
    ∧ (∀ cs : list string,
         FilesStore.modifiedFiles
           (FilesStore.save_all (List.map (λ c, (p, c)) (y :: cs)) s)
         = <[p := x]> (FilesStore.modifiedFiles s))
    ∧ (∀ z : string,
         FilesStore.modifiedFiles s = ∅ →
         FilesStore.modifiedFiles
           (FilesStore.saveFile p z (FilesStore.saveFile p y s)) = {[p := x]}).
Proof.
  intros p x y b s Hf Hm.
  pose proof (saveFile_first_touch p y x b s Hf Hm) as H1.
  split; [|split].
  - intros later. apply save_all_keeps_baseline.
    rewrite H1. apply lookup_insert_eq.
  - intros cs. cbn. by apply save_all_same_path.
  - intros z He. rewrite saveFile_modified, H1, lookup_insert_eq, He. done.
Qed.

Lemma C6_first_touch_baseline_witness :
  let s := FilesStore.saveFile "/project/a.txt" "x" FilesStore.empty in
  FilesStore.modifiedFiles
    (FilesStore.saveFile "/project/a.txt" "z"
       (FilesStore.saveFile "/project/a.txt" "y" s))
  = {["/project/a.txt" := "x"]}.
Proof.
  intros s.
  apply (C6_first_touch_baseline "/project/a.txt" "x" "y" false s);
    reflexivity.
Defined.

(** ** Adding a file below missing folders *)



(** ** Settling promises *)

Lemma settle_e2b (p : pid) (o : outcome) (w : World) : e2b (settle p o w) = e2b w.
Proof. unfold settle. by destruct (promises w !! p). Qed.

Lemma settle_trace (p : pid) (o : outcome) (w : World) :
  trace (settle p o w) = trace w.
Proof. unfold settle. by destruct (promises w !! p). Qed.

Lemma settle_nextCall (p : pid) (o : outcome) (w : World) :
  nextCall (settle p o w) = nextCall w.
Proof. unfold settle. by destruct (promises w !! p). Qed.

Lemma settle_fs (p : pid) (o : outcome) (w : World) : fs (settle p o w) = fs w.
Proof. unfold settle. by destruct (promises w !! p). Qed.

Lemma settle_actions (p : pid) (o : outcome) (w : World) :
  actions (settle p o w) = actions w.
Proof. unfold settle. by destruct (promises w !! p). Qed.

(** A pending promise takes the outcome it is settled with. *)
Lemma settle_pending (p : pid) (o : outcome) (w : World) :
  promises w !! p = None → promises (settle p o w) !! p = Some o.
Proof. intros H. unfold settle. rewrite H. cbn. apply lookup_insert_eq. Qed.

(** A settled promise never changes. *)
Lemma settle_settled (p q : pid) (o o' : outcome) (w : World) :
  promises w !! q = Some o' → promises (settle p o w) !! q = Some o'.
Proof.
  intros H. unfold settle. destruct (promises w !! p) eqn:Hp; [done|].
  cbn. rewrite lookup_insert_ne; [done|]. intros ->. congruence.
Qed.

Lemma settle_other (p q : pid) (o : outcome) (w : World) :
  p ≠ q → promises (settle p o w) !! q = promises w !! q.
Proof.
  intros H. unfold settle. destruct (promises w !! p) eqn:Hp; [done|].
  cbn. by rewrite lookup_insert_ne.
Qed.

(** ** Resetting the sandbox link *)

Lemma reject_all_e2b (ops : list E2B.PendingOperation) (w : World) :
  e2b (Link.reject_all ops w) =
    match ops with [] => e2b w | _ => E2B.with_queue [] (e2b w) end.
Proof.
  revert w. induction ops as [|op ops IH]; intros w; [done|].
  cbn. rewrite IH, settle_e2b. by destruct ops.
Qed.

Lemma reject_all_trace (ops : list E2B.PendingOperation) (w : World) :
  trace (Link.reject_all ops w) = trace w
  ∧ nextCall (Link.reject_all ops w) = nextCall w.
Proof.
  revert w. induction ops as [|op ops IH]; intros w; [done|].
  cbn. destruct (IH (settle (POp (E2B.op_promise op)) Link.reset_error
                       (with_e2b (E2B.with_queue ops) w))) as [-> ->].
  by rewrite settle_trace, settle_nextCall.
Qed.

Lemma reject_all_settled (ops : list E2B.PendingOperation) (w : World) (q : pid)
    (o : outcome) :
  promises w !! q = Some o → promises (Link.reject_all ops w) !! q = Some o.
Proof.
  revert w. induction ops as [|op ops IH]; intros w H; [done|].
  cbn. apply IH. by apply settle_settled.
Qed.

Lemma reject_all_rejects (ops : list E2B.PendingOperation) (w : World)
    (op : E2B.PendingOperation) :
  op ∈ ops →
  promises w !! POp (E2B.op_promise op) = None →
  promises (Link.reject_all ops w) !! POp (E2B.op_promise op) = Some Link.reset_error.
Proof.
  revert w. induction ops as [|op' ops IH]; intros w Hin Hp.
  - by apply elem_of_nil in Hin.
  - cbn. destruct (decide (E2B.op_promise op' = E2B.op_promise op)) as [He|Hne].
    + apply reject_all_settled. rewrite He. by apply settle_pending.
    + apply elem_of_cons in Hin as [->|Hin]; [done|].
      apply IH; [done|]. rewrite settle_other; [done|]. congruence.
Qed.

Lemma reject_all_is_Some (ops : list E2B.PendingOperation) (w : World)
    (op : E2B.PendingOperation) :
  op ∈ ops →
  is_Some (promises (Link.reject_all ops w) !! POp (E2B.op_promise op)).
Proof.
  intros Hin.
  destruct (promises w !! POp (E2B.op_promise op)) as [o|] eqn:Hp.
  - exists o. by apply reject_all_settled.
  - exists Link.reset_error. by apply reject_all_rejects.
Qed.

(** With an empty queue, registering implementations only installs them. *)
Lemma register_empty_queue (c : E2B.Callbacks) (w : World) :
  E2B.pendingOperations (e2b w) = [] →
  Link.registerSandboxCallbacks c w = with_e2b (E2B.install c) w.
Proof.
  intros Hq. unfold Link.registerSandboxCallbacks, Link.processQueue.
  cbn. rewrite Hq. cbn. by rewrite orb_true_r.
Qed.

(** C5: [reset] puts the connection state back to its initial values, drops
    every implementation, empties the queue and rejects each queued
    operation whose promise is still pending with the error "E2B sandbox
    reset", so none stays unsettled; it invokes no implementation, and a
    registration that follows finds nothing to drain: it invokes nothing
    and settles nothing. *)
Theorem C5_reset_rejects_queued :
  ∀ (w : World),
    let w' := step EvReset w in
    E2B.state (e2b w') = E2B.initialState
    ∧ (E2B.fileWriteCallback (e2b w') = None
       ∧ E2B.makeDirectoryCallback (e2b w') = None
       ∧ E2B.runCommandCallback (e2b w') = None
       ∧ E2B.terminalSendInput (e2b w') = None
       ∧ E2B.createSandboxCallback (e2b w') = None
       ∧ E2B.activeTerminalId (e2b w') = None)
    ∧ E2B.pendingOperations (e2b w') = []
    ∧ (∀ op, op ∈ E2B.pendingOperations (e2b w) →
         promises w !! POp (E2B.op_promise op) = None →
         promises w' !! POp (E2B.op_promise op)
           = Some (Rejected "E2B sandbox reset"))
    ∧ (∀ op, op ∈ E2B.pendingOperations (e2b w) →
         is_Some (promises w' !! POp (E2B.op_promise op)))
    ∧ trace w' = trace w
    ∧ (∀ c : E2B.Callbacks,
         let w'' := step (EvRegister c) w' in
         trace w'' = trace w'
         ∧ nextCall w'' = nextCall w
         ∧ promises w'' = promises w'
         ∧ registry w'' = registry w'
         ∧ microtasks w'' = microtasks w'
         ∧ E2B.pendingOperations (e2b w'') = []).
Proof.
  intros w w'. subst w'. cbn [step]. unfold Link.reset.
  set (w0 := with_e2b E2B.cleared w).
  assert (Hq : E2B.pendingOperations (e2b w0) = E2B.pendingOperations (e2b w)) by done.
  rewrite Hq.
  set (w1 := Link.reject_all (E2B.pendingOperations (e2b w)) w0).
  assert (He : e2b w1 = E2B.with_queue [] (e2b w0)).
  { unfold w1. rewrite reject_all_e2b.
    destruct (E2B.pendingOperations (e2b w)) eqn:Hops; [|done].
    unfold w0, E2B.with_queue, E2B.cleared. cbn. by rewrite Hops. }
  destruct (reject_all_trace (E2B.pendingOperations (e2b w)) w0) as [Ht Hn].
  fold w1 in Ht, Hn.
  split; [by rewrite He|]. split; [by rewrite He|]. split; [by rewrite He|].
  split; [intros op Hin Hp; by apply reject_all_rejects|].
  split; [intros op Hin; by apply reject_all_is_Some|].
  split; [done|].
  intros c. cbn. rewrite register_empty_queue by (by rewrite He).
  cbn. rewrite He. done.
Qed.

Lemma C5_reset_rejects_queued_witness :
  let w := run [EvSetConnecting true; EvWriteFile "/home/user/a" "1";
                EvWriteFile "/home/user/b" "2"] (init "m") in
  let w' := step EvReset w in
  promises w' !! POp 0 = Some (Rejected "E2B sandbox reset")
  ∧ promises w' !! POp 1 = Some (Rejected "E2B sandbox reset").
Proof.
  intros w w'.
  pose proof (C5_reset_rejects_queued w) as (_ & _ & _ & H & _).
  split.
  - apply (H (E2B.mkOp E2B.OpWriteFile (Some "/home/user/a") (Some "1") None 0)).
    + vm_compute. left.
    + reflexivity.
  - apply (H (E2B.mkOp E2B.OpWriteFile (Some "/home/user/b") (Some "2") None 1)).
    + vm_compute. right. left.
    + reflexivity.
Defined.

(** ** The local write of a file action *)

Lemma addFile_files (filePath content : string) (s : FilesStore.t) :
  FilesStore.files (FilesStore.addFile filePath content s)
    !! FilesStore.normalize filePath = Some (File content false).
Proof.
  unfold FilesStore.addFile, FilesStore.persistToStorage, FilesStore.setKey,
    FilesStore.set_files.
  set (s1 := FilesStore.with_parents _ s).
  set (s2 := match FilesStore.files s1 !! _ with Some (File _ _) => s1 | _ => _ end).
  cbn. destruct (FilesStore.chatId s2); cbn; apply lookup_insert_eq.
Qed.

Lemma addFile_getFile (filePath content : string) (s : FilesStore.t) :
  FilesStore.getFile (FilesStore.normalize filePath)
    (FilesStore.addFile filePath content s) = Some (File content false).
Proof. unfold FilesStore.getFile. by rewrite addFile_files. Qed.

(** The local write happens when the sandbox is not ready, and when the
    sandbox write resolves, with [true] or with [false]. *)
Lemma runFileAction_not_ready (id : string) (t : nat) (filePath content : string)
    (w : World) :
  E2B.isReady (e2b w) = false →
  FilesStore.getFile (FilesStore.normalize filePath)
    (fs (Runner.runFileAction id t filePath content w)) = Some (File content false).
Proof.
  intros H. unfold Runner.runFileAction. rewrite H. cbn. apply addFile_getFile.
Qed.

Lemma write_resolved_local (id : string) (t : nat)
    (filePath content normalizedPath : string) (v : value) (w : World) :
  FilesStore.getFile (FilesStore.normalize filePath)
    (fs (resume (KFileWrite id t filePath content normalizedPath) (Resolved v) w))
  = Some (File content false).
Proof. cbn. apply addFile_getFile. Qed.

(** C3, on the code: when a sandbox call of a file action rejects, the
    action fails and the local store is never written.  In general, a rejected
    directory or write call leaves the store as it was; in the two runs, one
    with a rejecting implementation and one with a [reset] while the first
    operation is queued, the action ends [failed] and the store is empty. *)
Theorem C3_rejected_sandbox_call_skips_local_write :
  (∀ id t filePath content normalizedPath e w,
     fs (resume (KFileWrite id t filePath content normalizedPath) (Rejected e) w)
     = fs w)
  ∧ (∀ id t filePath content normalizedPath currentPath rest e w,
       fs (resume (KFileMkdir id t filePath content normalizedPath currentPath rest)
             (Rejected e) w) = fs w)
  ∧ (alist_lookup "0" (actions C3_rejected_write)
       = Some (mkAction (FileAction "a.txt" "x") failed (Some "Action failed")
                 true false)
     ∧ FilesStore.files (fs C3_rejected_write) = ∅
     ∧ FilesStore.getFile (FilesStore.normalize "a.txt") (fs C3_rejected_write)
       = None
     ∧ microtasks C3_rejected_write = []
     ∧ registry C3_rejected_write = [])
  ∧ (alist_lookup "0" (actions C3_reset_while_queued)
       = Some (mkAction (FileAction "a.txt" "x") failed (Some "Action failed")
                 true false)
     ∧ FilesStore.files (fs C3_reset_while_queued) = ∅
     ∧ microtasks C3_reset_while_queued = []
     ∧ registry C3_reset_while_queued = []).
Proof.
  split; [done|]. split; [done|]. split; vm_compute; repeat split.
Qed.

(** ** Driving the sandbox *)
Lemma drive_add oracle (n m : nat) (w : World) :
  drive oracle (n + m) w = drive oracle m (drive oracle n w).
Proof. revert w. induction n as [|n IH]; intros w; [done|]. cbn. apply IH. Qed.

Lemma calls_snoc (tr : list obs) (o : obs) :
  calls (tr ++ [o]) =
    calls tr ++ match o with OCall c h k => [(c, h, k)] | _ => [] end.
Proof. unfold calls. rewrite omap_app. by destruct o. Qed.

(** With every earlier call settled, a call just made is the next to settle. *)
Lemma next_pending_fresh (w : World) (c : nat) (h : cb) (k : CallKind)
    (tr : list obs) :
  Forall (λ chk, is_Some (promises w !! PCall chk.1.1)) (calls tr) →
  promises w !! PCall c = None →
  trace w = tr ++ [OCall c h k] →
  next_pending w = Some (c, h, k).
Proof.
  intros Hs Hc Ht. unfold next_pending. rewrite Ht, calls_snoc.
  rewrite List.filter_app.
  replace (List.filter (call_pending w) (calls tr)) with (@nil (nat * cb * CallKind)).
  - cbn. unfold call_pending. cbn. by rewrite bool_decide_eq_true_2.
  - symmetry. induction Hs as [|x l Hx Hl IH]; [done|].
    cbn. unfold call_pending at 1. rewrite bool_decide_eq_false_2; [done|].
    intros E. rewrite E in Hx. by destruct Hx.
Qed.


Lemma drive_answer oracle (w : World) (c : nat) (h : cb) (k : CallKind) (f : frame) :
  microtasks w = [] →
  next_pending w = Some (c, h, k) →
  c < nextCall w →
  List.filter (waits_on (PCall c)) (registry w) = [(PCall c, RResume f)] →
  drive oracle 2 w = resume f (oracle h k) (answered c (oracle h k) w).
Proof.
  intros Hm Hn Hc Hf. cbn [drive]. unfold drive1 at 2. rewrite Hm, Hn.
  assert (Hp : promises w !! PCall c = None).
  { unfold next_pending in Hn. apply head_Some_elem_of in Hn.
    apply list_elem_of_In, List.filter_In in Hn as [_ Hn].
    unfold call_pending in Hn. by apply bool_decide_eq_true in Hn. }
  cbn [step]. rewrite bool_decide_eq_true_2 by done.
  unfold settle. rewrite Hp, Hm, Hf. cbn. done.
Qed.










(** ** Registration drains the queue *)












(** ** Calls answered by the sandbox *)

Lemma idle_calm (w : World) : idle w → calm w.
Proof.
  intros (Hm & Hr & Hcs & Hfc). repeat split; try done.
  unfold chain_only. rewrite Hr. constructor.
Qed.

Lemma chain_only_filter (w : World) (c : nat) :
  chain_only w →
  List.filter (waits_on (PCall c)) (registry w) = []
  ∧ List.filter (λ pr, negb (waits_on (PCall c) pr)) (registry w) = registry w.
Proof.
  unfold chain_only. generalize (registry w). intros l.
  induction 1 as [|[p r] l Hp Hl [IH1 IH2]]; [done|].
  cbn in Hp. destruct p as [n|n|n]; try done.
  assert (E : waits_on (PCall c) (PChain n, r) = false) by done.
  cbn [List.filter]. rewrite E. cbn [negb]. by rewrite IH1, IH2.
Qed.

Lemma called_calm who h k o w : calm w → calm (called who h k o w).
Proof.
  intros (Hm & Hr & Hcs & Hfc). repeat split; try done.
  - unfold calls_settled. cbn.
    rewrite <- (app_nil_r [ORequest who k; OCall (nextCall w) h k]).
    change ([ORequest who k; OCall (nextCall w) h k] ++ [])
      with ([ORequest who k] ++ [OCall (nextCall w) h k]).
    rewrite app_assoc, !calls_snoc, app_nil_r.
    apply Forall_app. split.
    + eapply Forall_impl; [exact Hcs|]. intros x [ox Hx]. cbn.
      destruct (decide (PCall (nextCall w) = PCall x.1.1)) as [E|E].
      * rewrite E, lookup_insert_eq. eauto.
      * rewrite lookup_insert_ne by done. eauto.
    + constructor; [|constructor]. cbn. rewrite lookup_insert_eq. eauto.
  - intros c Hc. cbn in *. rewrite lookup_insert_ne by (intros [= E]; lia).
    apply Hfc. lia.
Qed.

(** One call of an installed implementation, from the request to the
    resumption of the caller, takes two steps of the answering sandbox. *)
Lemma answer_call oracle who h k f (w w1 : World) :
  calm w →
  w1 = (Link.invoke h k (note (ORequest who k) w)).1 →
  drive oracle 2 (await (Later (PCall (nextCall w))) f w1)
  = resume f (oracle h k) (called who h k (oracle h k) w).
Proof.
  intros (Hm & Hr & Hcs & Hfc) ->.
  destruct (chain_only_filter w (nextCall w) Hr) as [Hf1 Hf2].
  assert (Hw : await (Later (PCall (nextCall w))) f
                 (Link.invoke h k (note (ORequest who k) w)).1
               = mkWorld (fs w) (e2b w) (actions w) (tail w) (artifact w)
                   (promises w) (nextChain w) (nextOp w) (S (nextCall w))
                   (registry w ++ [(PCall (nextCall w), RResume f)]) []
                   ((trace w ++ [ORequest who k]) ++ [OCall (nextCall w) h k])
                   (syncResults w)).
  { unfold Link.invoke, await, on_settled. cbn.
    rewrite (Hfc (nextCall w)) by done. by rewrite Hm. }
  rewrite Hw. erewrite (drive_answer _ _ (nextCall w) h k f).
  - f_equal. unfold answered, called. cbn. rewrite List.filter_app, Hf2. cbn.
    unfold waits_on at 1. cbn. rewrite bool_decide_eq_true_2 by done. cbn.
    rewrite app_nil_r, <- app_assoc. done.
  - done.
  - eapply next_pending_fresh; [| |done].
    + rewrite calls_snoc, app_nil_r. exact Hcs.
    + cbn. by apply Hfc.
  - cbn. lia.
  - cbn. rewrite List.filter_app, Hf1. cbn. unfold waits_on. cbn.
    by rewrite bool_decide_eq_true_2.
Qed.

Lemma answer_writeFile oracle who path content f h (w : World) :
  calm w →
  E2B.fileWriteCallback (e2b w) = Some h →
  drive oracle 2
    (let '(w1, a) := Link.writeFile who path content w in await a f w1)
  = resume f (oracle h (CWrite path content))
      (called who h (CWrite path content) (oracle h (CWrite path content)) w).
Proof.
  intros Hc Hh. unfold Link.writeFile. cbn. rewrite Hh.
  by apply answer_call.
Qed.

Lemma answer_makeDirectory oracle who path f h (w : World) :
  calm w →
  E2B.makeDirectoryCallback (e2b w) = Some h →
  drive oracle 2
    (let '(w1, a) := Link.makeDirectory who path w in await a f w1)
  = resume f (oracle h (CMkdir path))
      (called who h (CMkdir path) (oracle h (CMkdir path)) w).
Proof.
  intros Hc Hh. unfold Link.makeDirectory. cbn. rewrite Hh.
  by apply answer_call.
Qed.

Lemma answer_runCommand oracle who command f h (w : World) :
  calm w →
  E2B.runCommandCallback (e2b w) = Some h →
  drive oracle 2
    (let '(w1, a) := Link.runCommand who command w in await a f w1)
  = resume f (oracle h (CRun command))
      (called who h (CRun command) (oracle h (CRun command)) w).
Proof.
  intros Hc Hh. unfold Link.runCommand. cbn. rewrite Hh.
  by apply answer_call.
Qed.

(** ** The repair pass *)

Lemma sync_mkdir_drives oracle st todo filePath content e2bPath hw hm :
  resolves oracle →
  ∀ parts currentPath w,
    calm w →
    E2B.fileWriteCallback (e2b w) = Some hw →
    E2B.makeDirectoryCallback (e2b w) = Some hm →
    ∃ n w',
      drive oracle n
        (Sync.mkdir_loop st todo filePath content e2bPath currentPath parts w)
      = Sync.loop (Sync.counted st) todo w'
      ∧ calm w' ∧ fs w' = fs w ∧ e2b w' = e2b w ∧ actions w' = actions w
      ∧ syncResults w' = syncResults w ∧ artifact w' = artifact w
      ∧ registry w' = registry w.
Proof.
  intros Hres parts. induction parts as [|part rest IH]; intros cur w Hc Hw Hm.
  - cbn [Sync.mkdir_loop].
    destruct (Hres hw (CWrite e2bPath content)) as [v Hv].
    exists 2, (called FromSync hw (CWrite e2bPath content) (Resolved v) w).
    split.
    + erewrite answer_writeFile by done. rewrite Hv. done.
    + split; [by apply called_calm|]. done.
  - cbn [Sync.mkdir_loop].
    destruct (Js.startsWith (cur +:+ "/" +:+ part) "/home/user") eqn:Hs.
    + destruct (Hres hm (CMkdir (cur +:+ "/" +:+ part))) as [v Hv].
      set (w1 := called FromSync hm (CMkdir (cur +:+ "/" +:+ part)) (Resolved v) w).
      destruct (IH (cur +:+ "/" +:+ part) w1) as (n & w' & Hd & Hc' & Hrest);
        [by apply called_calm|done|done|].
      exists (2 + n), w'. split; [|split; [done|exact Hrest]].
      rewrite drive_add. erewrite answer_makeDirectory by done. rewrite Hv.
      exact Hd.
    + apply IH; done.
Qed.

Lemma getFile_None_lookup (p : string) (s : FilesStore.t) :
  FilesStore.getFile p s = None →
  match FilesStore.files s !! p with Some (File _ _) => False | _ => True end.
Proof. unfold FilesStore.getFile. by destruct (FilesStore.files s !! p) as [[]|]. Qed.

(** The repair of a turn with one file action that the store lacks. *)
Lemma sync_first (p c : string) (w : World) :
  Sync.file_actions (actions w) = [(p, c)] →
  FilesStore.getFile (FilesStore.normalize p) (fs w) = None →
  step (EvSync (artifact w)) w =
    let st := Sync.noticed p (mkSync (FilesStore.files (fs w)) 0 [] 1) in
    let w' := with_fs (FilesStore.addFile p c) w in
    if E2B.isReady (e2b w) then
      Sync.mkdir_loop st [] p c (Runner.sandbox_path p) ""
        (removelast (Js.path_parts (Runner.sandbox_path p))) w'
    else Sync.finish (Sync.counted st) w'.
Proof.
  intros Ha Hg. cbn [step]. unfold Sync.syncMissingFiles.
  rewrite decide_True by done. rewrite Ha. cbn [length Sync.loop s_current].
  apply getFile_None_lookup in Hg.
  destruct (FilesStore.files (fs w) !! FilesStore.normalize p) as [[]|]; done.
Qed.

(** The repair of a turn with one file action that the store holds. *)
Lemma sync_second (p c c' : string) (b : bool) (w : World) :
  Sync.file_actions (actions w) = [(p, c)] →
  FilesStore.files (fs w) !! FilesStore.normalize p = Some (File c' b) →
  step (EvSync (artifact w)) w
  = Sync.finish (mkSync (FilesStore.files (fs w)) 0 [] 1) w.
Proof.
  intros Ha Hg. cbn [step]. unfold Sync.syncMissingFiles.
  rewrite decide_True by done. rewrite Ha. cbn [length Sync.loop s_current].
  by rewrite Hg.
Qed.

(** C8, amended: if a turn has one recorded file action, for a path [p], the
    store has no file at the local path of [p], nothing else is running, and
    the sandbox is not ready or has its implementations installed and rejects
    no call, then the repair reports one repaired file of one, with the
    missing path exactly as the action recorded it ([a.txt] for a.txt, and
    the leading slash kept for /a.txt); afterwards the store has the file
    at the local path of [p] (/project/a.txt for a.txt); and a second repair
    with no change in between reports nothing repaired and nothing missing
    of one, and leaves the store as it is. *)
Theorem C8_reconcile_repairs_then_idempotent :
  ∀ (oracle : cb → CallKind → outcome) (p c : string) (w : World),
    Sync.file_actions (actions w) = [(p, c)] →
    FilesStore.getFile (FilesStore.normalize p) (fs w) = None →
    idle w →
    (E2B.isReady (e2b w) = false
     ∨ (is_Some (E2B.fileWriteCallback (e2b w))
        ∧ is_Some (E2B.makeDirectoryCallback (e2b w))
        ∧ resolves oracle)) →
    ∃ n,
      let w1 := drive oracle n (step (EvSync (artifact w)) w) in
      let w2 := step (EvSync (artifact w)) w1 in
      syncResults w1 = syncResults w ++ [mkResult 1 1 [p]]
      ∧ FilesStore.getFile (FilesStore.normalize p) (fs w1) = Some (File c false)
      ∧ idle w1
      ∧ syncResults w2 = syncResults w1 ++ [mkResult 0 1 []]
      ∧ fs w2 = fs w1
      ∧ idle w2.
Proof.
  intros oracle p c w Ha Hg Hidle Hsb.
  rewrite (sync_first p c w Ha Hg). cbn zeta.
  set (st := Sync.noticed p (mkSync (FilesStore.files (fs w)) 0 [] 1)).
  set (wA := with_fs (FilesStore.addFile p c) w).
  assert (HcA : calm wA) by (by apply idle_calm).
  assert (Hfin : ∃ n w',
            drive oracle n
              (if E2B.isReady (e2b w) then
                 Sync.mkdir_loop st [] p c (Runner.sandbox_path p) ""
                   (removelast (Js.path_parts (Runner.sandbox_path p))) wA
               else Sync.finish (Sync.counted st) wA)
            = Sync.finish (Sync.counted st) w'
            ∧ calm w' ∧ fs w' = fs wA ∧ actions w' = actions w
            ∧ syncResults w' = syncResults w ∧ artifact w' = artifact w
            ∧ registry w' = registry w).
  { destruct (E2B.isReady (e2b w)) eqn:Hr.
    - destruct Hsb as [?|([hw Hw] & [hm Hm] & Hres)]; [done|].
      destruct (sync_mkdir_drives oracle st [] p c (Runner.sandbox_path p) hw hm
                  Hres (removelast (Js.path_parts (Runner.sandbox_path p))) "" wA)
        as (n & w' & Hd & Hc' & Hfs & He & Hac & Hsr & Har & Hrg); try done.
      exists n, w'. rewrite Hd. done.
    - exists 0, wA. done. }
  destruct Hfin as (n & w' & Hd & (Hm' & _ & Hcs' & Hfc') & Hfs & Hac & Hsr & Har & Hrg).
  exists n. rewrite Hd. clear Hd.
  set (w1 := Sync.finish (Sync.counted st) w').
  assert (Hfile : FilesStore.files (fs w1) !! FilesStore.normalize p
                  = Some (File c false)).
  { unfold w1. cbn. rewrite Hfs. apply addFile_files. }
  assert (Hidle1 : idle w1).
  { destruct Hidle as (_ & Hr & _). unfold idle, w1. cbn. by rewrite Hrg. }
  split; [unfold w1; cbn; by rewrite Hsr|].
  split; [unfold FilesStore.getFile; by rewrite Hfile|].
  split; [done|].
  replace (artifact w) with (artifact w1) by (unfold w1; done).
  rewrite (sync_second p c c false w1) by (done || (unfold w1; cbn; by rewrite Hac)).
  cbn. done.
Qed.

Lemma C8_reconcile_repairs_then_idempotent_witness :
  ∃ n,
    let w1 := drive C4_oracle n (step (EvSync "m") C8_relative) in
    syncResults w1 = [mkResult 1 1 ["a.txt"]]
    ∧ FilesStore.getFile "/project/a.txt" (fs w1) = Some (File "x" false)
    ∧ syncResults (step (EvSync "m") w1) = [mkResult 1 1 ["a.txt"]; mkResult 0 1 []].
Proof.
  destruct (C8_reconcile_repairs_then_idempotent C4_oracle "a.txt" "x" C8_relative)
    as (n & H1 & H2 & _ & H3 & _).
  - reflexivity.
  - reflexivity.
  - split; [reflexivity|]. split; [reflexivity|]. split.
    + unfold calls_settled. vm_compute. constructor.
    + intros c _.
      change (promises C8_relative) with ({[PChain 0 := Resolved VUndef]} : gmap pid outcome).
      by apply lookup_singleton_ne.
  - left. reflexivity.
  - exists n. split; [exact H1|]. split; [exact H2|].
    change (artifact C8_relative) with "m" in H3. rewrite H3.
    change (artifact C8_relative) with "m" in H1. by rewrite H1.
Defined.

(** C8, counterexample: for the recorded path /a.txt the repair reports the
    missing path as /a.txt, not a.txt. *)
Lemma C8_leading_slash_reported_as_given : ¬ C8_as_stated C8_unreflected.
Proof. intros (H & _). vm_compute in H. discriminate. Qed.

Example C8_with_ready_sandbox :
  let w := run [EvSetConnected true (Some "sb"); EvRegister C3_callbacks;
                EvAddAction (mkData "m" "0" (FileAction "src/a.txt" "x")); EvTick]
               (init "m") in
  let w1 := drive (λ _ _, Resolved (VBool true)) 6 (step (EvSync "m") w) in
  syncResults w1 = [mkResult 1 1 ["src/a.txt"]]
  ∧ calls (trace w1) = [(0, 2, CMkdir "/home/user"); (1, 2, CMkdir "/home/user/src");
                        (2, 1, CWrite "/home/user/src/a.txt" "x")]
  ∧ syncResults (step (EvSync "m") w1) = [mkResult 1 1 ["src/a.txt"]; mkResult 0 1 []].
Proof. vm_compute. done. Qed.

(** ** Steps that leave the chain alone *)

Lemma neutral_weaken (who : option string) (o : obs) :
  neutral None o → neutral who o.
Proof. destruct o as [| | |[]| |]; cbn; try done. Qed.

Lemma chain_frame_same who w w' :
  tail w' = tail w → nextChain w' = nextChain w → promises w' = promises w →
  registry w' = registry w → microtasks w' = microtasks w →
  trace w' = trace w → actions w' = actions w →
  chain_frame who [] w w'.
Proof.
  intros Ht Hn Hp Hr Hm Htr Ha. split; try done.
  - intros n. by rewrite Hp.
  - unfold link_regs. by rewrite Hr.
  - unfold link_jobs. by rewrite Hm.
  - unfold execs, pool. by rewrite Hr, Hm, app_nil_r.
  - exists []. by rewrite app_nil_r.
  - intros id a. rewrite Ha. eauto.
Qed.

Lemma chain_frame_refl who w : chain_frame who [] w w.
Proof. by apply chain_frame_same. Qed.

Lemma delta_refl who w : delta who [] w w.
Proof. intros _. apply chain_frame_refl. Qed.

Lemma links_on_chain_frame who add w w' :
  chain_frame who add w w' → links_on_chain w → links_on_chain w'.
Proof. intros H. unfold links_on_chain. by rewrite (cf_regs _ _ _ _ H). Qed.

Lemma delta_trans who a1 a2 w w1 w2 :
  delta who a1 w w1 → delta who a2 w1 w2 → delta who (a1 ++ a2) w w2.
Proof.
  intros H1 H2 Hl. specialize (H1 Hl).
  specialize (H2 (links_on_chain_frame _ _ _ _ H1 Hl)).
  destruct H1 as [t1 n1 c1 r1 j1 e1 (x1 & tr1 & f1) x1'].
  destruct H2 as [t2 n2 c2 r2 j2 e2 (x2 & tr2 & f2) x2'].
  split.
  - congruence.
  - congruence.
  - intros n. by rewrite c2, c1.
  - congruence.
  - congruence.
  - rewrite e2, e1. by rewrite app_assoc.
  - exists (x1 ++ x2). rewrite tr2, tr1, app_assoc. split; [done|].
    by apply Forall_app.
  - intros id a Ha He. destruct (x1' id a Ha He) as (a' & Ha' & He'). eauto.
Qed.

Lemma delta_weaken who add w w' : delta None add w w' → delta who add w w'.
Proof.
  intros H Hl. destruct (H Hl) as [t n c r j e (x & tr & f) x'].
  split; try done. exists x. split; [done|].
  eapply Forall_impl; [exact f|]. apply neutral_weaken.
Qed.

(** Chaining two quiet steps. *)
Lemma delta_then who add w w1 w2 :
  delta who [] w w1 → delta who add w1 w2 → delta who add w w2.
Proof. intros H1 H2. by apply (delta_trans who [] add w w1 w2). Qed.

Lemma delta_note who o w : neutral who o → delta who [] w (note o w).
Proof.
  intros Hn _. split; try done.
  - by rewrite app_nil_r.
  - exists [o]. split; [done|]. by constructor.
  - eauto.
Qed.

Lemma delta_with_fs f w : delta None [] w (with_fs f w).
Proof. intros _. by apply chain_frame_same. Qed.

Lemma delta_with_e2b f w : delta None [] w (with_e2b f w).
Proof. intros _. by apply chain_frame_same. Qed.

Lemma execs_app_job (w : World) (r : reaction) (o : outcome) :
  execs (push_job r o w) = execs w ++ omap exec_of [r].
Proof.
  unfold execs, pool. cbn. by rewrite fmap_app, app_assoc, omap_app.
Qed.

Lemma delta_push_job r o w :
  is_link r = false → delta None (omap exec_of [r]) w (push_job r o w).
Proof.
  intros Hr _. split; try done.
  - unfold link_jobs. cbn. rewrite List.filter_app. cbn. rewrite Hr.
    by rewrite app_nil_r.
  - by rewrite execs_app_job.
  - exists []. by rewrite app_nil_r.
  - eauto.
Qed.

Lemma delta_on_settled p r w :
  is_link r = false → delta None (omap exec_of [r]) w (on_settled p r w).
Proof.
  intros Hr. unfold on_settled. destruct (promises w !! p); [by apply delta_push_job|].
  intros _. split; try done.
  - unfold link_regs. cbn. rewrite List.filter_app. cbn. rewrite Hr.
    by rewrite app_nil_r.
  - unfold execs, pool. cbn. rewrite fmap_app, !omap_app. cbn.
    rewrite <- !app_assoc. f_equiv. apply Permutation_app_comm.
  - exists []. by rewrite app_nil_r.
  - eauto.
Qed.

Lemma delta_await a f w : delta None (omap exec_of [RResume f]) w (await a f w).
Proof.
  destruct a; [by apply delta_on_settled|by apply delta_push_job].
Qed.


(** Settling a promise moves its reactions to the job queue, in order. *)
Lemma settle_pool (p : pid) (o : outcome) (w : World) : pool (settle p o w) ≡ₚ pool w.
Proof.
  unfold settle. destruct (promises w !! p); [done|].
  unfold pool. cbn. rewrite fmap_app, app_assoc.
  rewrite (Permutation_app_comm _ ((microtasks w).*1)).
  rewrite <- app_assoc.
  rewrite (Permutation_app_comm ((microtasks w).*1)). f_equiv.
  generalize (registry w). intros l. induction l as [|[q r] l IH]; [done|].
  cbn. destruct (waits_on p (q, r)); cbn.
  - rewrite <- IH. by rewrite Permutation_middle.
  - by rewrite IH.
Qed.

Lemma settle_execs (p : pid) (o : outcome) (w : World) : execs (settle p o w) ≡ₚ execs w.
Proof. unfold execs. by rewrite settle_pool. Qed.

(** No chained callback waits on a promise of the sandbox. *)
Lemma links_not_waiting (p : pid) (w : World) :
  non_chain p → links_on_chain w →
  List.filter (λ pr, is_link pr.2) (List.filter (waits_on p) (registry w)) = []
  ∧ List.filter (λ pr, is_link pr.2)
      (List.filter (λ pr, negb (waits_on p pr)) (registry w))
    = link_regs w.
Proof.
  intros Hp. unfold links_on_chain, link_regs.
  generalize (registry w). intros l. induction l as [|[q r] l IH]; [done|].
  cbn [List.filter]. destruct (is_link (q, r).2) eqn:Hl.
  - intros [Hq Hrest]%Forall_cons. destruct (IH Hrest) as [IH1 IH2].
    assert (E : waits_on p (q, r) = false).
    { unfold waits_on. apply bool_decide_eq_false_2. cbn in *. intros ->.
      by destruct p. }
    rewrite E. cbn [negb List.filter]. rewrite Hl. by rewrite IH1, IH2.
  - intros Hrest. destruct (IH Hrest) as [IH1 IH2].
    destruct (waits_on p (q, r)); cbn [negb List.filter]; rewrite Hl; done.
Qed.

Lemma delta_settle (p : pid) (o : outcome) (w : World) :
  non_chain p → delta None [] w (settle p o w).
Proof.
  intros Hp Hl. destruct (links_not_waiting p w Hp Hl) as [H1 H2].
  split.
  - unfold settle. by destruct (promises w !! p).
  - unfold settle. by destruct (promises w !! p).
  - intros n. apply settle_other. intros ->. done.
  - unfold settle. destruct (promises w !! p); [done|]. exact H2.
  - unfold settle. destruct (promises w !! p); [done|].
    unfold link_jobs. cbn. rewrite List.filter_app.
    replace (List.filter (λ ro : reaction * outcome, is_link ro.1)
               (List.map (λ pr : pid * reaction, (pr.2, o))
                  (List.filter (waits_on p) (registry w)))) with (@nil (reaction * outcome)).
    + by rewrite app_nil_r.
    + revert H1. generalize (List.filter (waits_on p) (registry w)).
      intros l. induction l as [|[q r] l IH]; [done|].
      cbn. destruct (is_link r); [done|]. exact IH.
  - rewrite app_nil_r. apply settle_execs.
  - exists []. by rewrite app_nil_r, settle_trace.
  - intros id a. rewrite settle_actions. eauto.
Qed.

Lemma delta_invoke h k w : delta None [] w (Link.invoke h k w).1.
Proof.
  intros _. split; try done.
  - by rewrite app_nil_r.
  - exists [OCall (nextCall w) h k]. split; [done|]. by constructor.
  - eauto.
Qed.

Lemma delta_enqueue ty path content command w :
  delta None [] w (Link.enqueue ty path content command w).1.
Proof. intros _. by apply chain_frame_same. Qed.


Lemma neutral_request (who : origin) (k : CallKind) :
  neutral (who_of who) (ORequest who k).
Proof. by destruct who. Qed.

Lemma writeFile_eq who path content w :
  Link.writeFile who path content w =
    let w1 := note (ORequest who (CWrite path content)) w in
    match E2B.fileWriteCallback (e2b w) with
    | Some h => ((Link.invoke h (CWrite path content) w1).1, Later (PCall (nextCall w)))
    | None =>
        if E2B.accepting (e2b w) then
          ((Link.enqueue E2B.OpWriteFile (Some path) (Some content) None w1).1,
           Later (POp (nextOp w)))
        else
          (note (OError "E2B sandbox not connected - cannot write file") w1,
           Now (Resolved (VBool false)))
    end.
Proof.
  unfold Link.writeFile. cbn.
  destruct (E2B.fileWriteCallback (e2b w)); [done|].
  by destruct (E2B.accepting (e2b w)).
Qed.

Lemma makeDirectory_eq who path w :
  Link.makeDirectory who path w =
    let w1 := note (ORequest who (CMkdir path)) w in
    match E2B.makeDirectoryCallback (e2b w) with
    | Some h => ((Link.invoke h (CMkdir path) w1).1, Later (PCall (nextCall w)))
    | None =>
        if E2B.accepting (e2b w) then
          ((Link.enqueue E2B.OpMakeDirectory (Some path) None None w1).1,
           Later (POp (nextOp w)))
        else
          (note (OError "E2B sandbox not connected - cannot make directory") w1,
           Now (Resolved (VBool false)))
    end.
Proof.
  unfold Link.makeDirectory. cbn.
  destruct (E2B.makeDirectoryCallback (e2b w)); [done|].
  by destruct (E2B.accepting (e2b w)).
Qed.

Lemma runCommand_eq who command w :
  Link.runCommand who command w =
    let w1 := note (ORequest who (CRun command)) w in
    match E2B.runCommandCallback (e2b w) with
    | Some h => ((Link.invoke h (CRun command) w1).1, Later (PCall (nextCall w)))
    | None =>
        if E2B.accepting (e2b w) then
          ((Link.enqueue E2B.OpRunCommand None None (Some command) w1).1,
           Later (POp (nextOp w)))
        else
          (note (OError "E2B sandbox not connected - cannot run command") w1,
           Now (Resolved VUndef))
    end.
Proof.
  unfold Link.runCommand. cbn.
  destruct (E2B.runCommandCallback (e2b w)); [done|].
  by destruct (E2B.accepting (e2b w)).
Qed.

Lemma delta_writeFile who path content w :
  delta (who_of who) [] w (Link.writeFile who path content w).1.
Proof.
  rewrite writeFile_eq. cbn zeta.
  eapply delta_then; [apply (delta_note _ (ORequest who (CWrite path content))),
                      neutral_request|].
  apply delta_weaken.
  destruct (E2B.fileWriteCallback (e2b w)) as [h|]; [apply delta_invoke|].
  destruct (E2B.accepting (e2b w)); [apply delta_enqueue|by apply delta_note].
Qed.

Lemma delta_makeDirectory who path w :
  delta (who_of who) [] w (Link.makeDirectory who path w).1.
Proof.
  rewrite makeDirectory_eq. cbn zeta.
  eapply delta_then; [apply (delta_note _ (ORequest who (CMkdir path))),
                      neutral_request|].
  apply delta_weaken.
  destruct (E2B.makeDirectoryCallback (e2b w)) as [h|]; [apply delta_invoke|].
  destruct (E2B.accepting (e2b w)); [apply delta_enqueue|by apply delta_note].
Qed.

Lemma delta_runCommand who command w :
  delta (who_of who) [] w (Link.runCommand who command w).1.
Proof.
  rewrite runCommand_eq. cbn zeta.
  eapply delta_then; [apply (delta_note _ (ORequest who (CRun command))),
                      neutral_request|].
  apply delta_weaken.
  destruct (E2B.runCommandCallback (e2b w)) as [h|]; [apply delta_invoke|].
  destruct (E2B.accepting (e2b w)); [apply delta_enqueue|by apply delta_note].
Qed.

Lemma delta_op_await who f w (res : World * awaitable) :
  delta who [] w res.1 →
  delta who (omap exec_of [RResume f]) w (let '(w1, a) := res in await a f w1).
Proof.
  destruct res as [w1 a]. intros H.
  eapply delta_then; [exact H|]. apply delta_weaken, delta_await.
Qed.

Lemma delta_drain (ops : list E2B.PendingOperation) :
  ∀ w, delta None [] w (Link.drain ops w).
Proof.
  induction ops as [|op rest IH]; intros w; [apply delta_with_e2b|].
  cbn [Link.drain].
  eapply delta_then; [apply (delta_with_e2b (E2B.with_queue rest))|].
  set (w1 := with_e2b (E2B.with_queue rest) w).
  destruct (Link.drain_call op (e2b w1)) as [[h k]|].
  - pose proof (delta_invoke h k w1) as H.
    destruct (Link.invoke h k w1) as [w2 p].
    eapply delta_then; [exact H|]. apply (delta_await (Later p) (KDrain op)).
  - eapply delta_then; [|apply IH]. by apply delta_settle.
Qed.

Lemma delta_drain_resume op o w : delta None [] w (Link.drain_resume op o w).
Proof.
  unfold Link.drain_resume. cbn zeta.
  eapply delta_then; [|apply delta_drain].
  destruct o.
  - apply delta_settle. exact I.
  - eapply delta_then; [|apply delta_settle; exact I]. by apply delta_note.
Qed.

Lemma delta_processQueue w : delta None [] w (Link.processQueue w).
Proof.
  unfold Link.processQueue.
  destruct (_ || _); [apply delta_refl|].
  destruct (E2B.fileWriteCallback (e2b w)); [|apply delta_refl].
  destruct (E2B.makeDirectoryCallback (e2b w)); [|apply delta_refl].
  eapply delta_then; [apply delta_with_e2b|apply delta_drain].
Qed.

Lemma delta_register c w : delta None [] w (Link.registerSandboxCallbacks c w).
Proof.
  unfold Link.registerSandboxCallbacks.
  eapply delta_then; [apply delta_with_e2b|apply delta_processQueue].
Qed.

Lemma delta_reject_all (ops : list E2B.PendingOperation) :
  ∀ w, delta None [] w (Link.reject_all ops w).
Proof.
  induction ops as [|op rest IH]; intros w; [apply delta_refl|].
  cbn [Link.reject_all].
  eapply delta_then; [apply (delta_with_e2b (E2B.with_queue rest))|].
  eapply delta_then; [|apply IH]. by apply delta_settle.
Qed.

Lemma delta_reset w : delta None [] w (Link.reset w).
Proof.
  unfold Link.reset.
  eapply delta_then; [apply delta_with_e2b|apply delta_reject_all].
Qed.

(** The repair pass never touches the chain. *)
Lemma delta_sync_finish st w : delta None [] w (Sync.finish st w).
Proof. intros _. by apply chain_frame_same. Qed.

Lemma delta_sync_mkdir st todo filePath content e2bPath (parts : list string) :
  ∀ currentPath w,
    delta None [] w
      (Sync.mkdir_loop st todo filePath content e2bPath currentPath parts w).
Proof.
  induction parts as [|part rest IH]; intros cur w; cbn [Sync.mkdir_loop].
  - apply (delta_op_await None (KSyncWrite st todo filePath content e2bPath) w
             (Link.writeFile FromSync e2bPath content w)).
    apply (delta_writeFile FromSync).
  - destruct (Js.startsWith _ _); [|apply IH].
    apply (delta_op_await None
             (KSyncMkdir st todo filePath content e2bPath (cur +:+ "/" +:+ part) rest)
             w (Link.makeDirectory FromSync (cur +:+ "/" +:+ part) w)).
    apply (delta_makeDirectory FromSync).
Qed.

Lemma delta_sync_loop (todo : list (string * string)) :
  ∀ st w, delta None [] w (Sync.loop st todo w).
Proof.
  induction todo as [|[filePath content] rest IH]; intros st w; cbn [Sync.loop].
  - apply delta_sync_finish.
  - destruct (s_current st !! FilesStore.normalize filePath) as [[]|].
    + apply IH.
    + eapply delta_then; [apply delta_with_fs|].
      destruct (E2B.isReady _); [apply delta_sync_mkdir|apply IH].
    + eapply delta_then; [apply delta_with_fs|].
      destruct (E2B.isReady _); [apply delta_sync_mkdir|apply IH].
Qed.

Lemma delta_syncMissingFiles mid w : delta None [] w (Sync.syncMissingFiles mid w).
Proof.
  unfold Sync.syncMissingFiles. destruct (decide _); [apply delta_sync_loop|].
  intros _. by apply chain_frame_same.
Qed.

(** ** Objects used as maps *)

Lemma alist_lookup_set {A : Type} (k k' : string) (v : A) (l : list (string * A)) :
  alist_lookup k' (alist_set k v l)
  = if decide (k = k') then Some v else alist_lookup k' l.
Proof.
  induction l as [|[k0 v0] l IH]; cbn.
  - destruct (decide (k = k')); done.
  - destruct (decide (k0 = k)) as [->|Hne]; cbn.
    + destruct (decide (k = k')); done.
    + destruct (decide (k0 = k')) as [->|Hne'].
      * by rewrite decide_False by done.
      * exact IH.
Qed.

Lemma alist_lookup_alter {A : Type} (f : A → A) (k k' : string) (l : list (string * A)) :
  alist_lookup k' (alist_alter f k l)
  = if decide (k = k') then f <$> alist_lookup k l else alist_lookup k' l.
Proof.
  unfold alist_alter. destruct (alist_lookup k l) as [v|] eqn:Hk.
  - rewrite alist_lookup_set. by destruct (decide (k = k')).
  - destruct (decide (k = k')) as [->|]; [by rewrite Hk|done].
Qed.

(** An update of the action map that keeps every [executed] flag that is
    set leaves the chain alone. *)
Lemma delta_with_actions f w :
  (∀ id a, alist_lookup id (actions w) = Some a → executed a = true →
           ∃ a', alist_lookup id (f (actions w)) = Some a' ∧ executed a' = true) →
  delta None [] w (with_actions f w).
Proof.
  intros Hf _. split; try done.
  - by rewrite app_nil_r.
  - exists []. by rewrite app_nil_r.
Qed.

Lemma delta_updateStatus id s err w : delta None [] w (Runner.updateStatus id s err w).
Proof.
  apply delta_with_actions. intros id' a Ha He.
  rewrite alist_lookup_alter. destruct (decide (id = id')) as [->|]; [|eauto].
  rewrite Ha. cbn. eauto.
Qed.

Lemma delta_addAction data w : delta None [] w (Runner.addAction data w).
Proof.
  unfold Runner.addAction.
  destruct (alist_lookup (actionId data) (actions w)) eqn:Hl; [apply delta_refl|].
  eapply delta_then; [|by apply (delta_on_settled _ (RSetRunning _))].
  apply delta_with_actions. intros id a0 Ha He.
  rewrite alist_lookup_set. destruct (decide (actionId data = id)) as [<-|]; [|eauto].
  congruence.
Qed.

Lemma delta_abort id w : delta None [] w (Runner.abort id w).
Proof.
  unfold Runner.abort. destruct (alist_lookup id (actions w)); [|apply delta_refl].
  eapply delta_then; [|apply delta_updateStatus].
  apply delta_with_actions. intros id' a0 Ha He.
  rewrite alist_lookup_alter. destruct (decide (id = id')) as [->|]; [|eauto].
  rewrite Ha. cbn. eauto.
Qed.

(** ** The steps of one execution *)

Lemma delta_inner_done id t o w : delta None [(id, t)] w (Runner.inner_done id t o w).
Proof. by apply (delta_push_job (RResume (KExecJoin id t))). Qed.

Lemma delta_file_local id t filePath content w :
  delta None [(id, t)] w (Runner.file_local id t filePath content w).
Proof.
  unfold Runner.file_local.
  eapply delta_then; [apply delta_with_fs|apply delta_inner_done].
Qed.

Lemma delta_runner_mkdir id t filePath content normalizedPath (parts : list string) :
  ∀ currentPath w,
    delta (Some id) [(id, t)] w
      (Runner.mkdir_loop id t filePath content normalizedPath currentPath parts w).
Proof.
  induction parts as [|part rest IH]; intros cur w; cbn [Runner.mkdir_loop].
  - apply (delta_op_await (Some id) (KFileWrite id t filePath content normalizedPath) w
             (Link.writeFile (FromAction id) normalizedPath content w)).
    apply (delta_writeFile (FromAction id)).
  - destruct (Js.startsWith _ _); [|apply IH].
    apply (delta_op_await (Some id)
             (KFileMkdir id t filePath content normalizedPath (cur +:+ "/" +:+ part) rest)
             w (Link.makeDirectory (FromAction id) (cur +:+ "/" +:+ part) w)).
    apply (delta_makeDirectory (FromAction id)).
Qed.

Lemma delta_runFileAction id t filePath content w :
  delta (Some id) [(id, t)] w (Runner.runFileAction id t filePath content w).
Proof.
  unfold Runner.runFileAction. destruct (E2B.isReady _).
  - apply delta_runner_mkdir.
  - apply delta_weaken, delta_file_local.
Qed.

Lemma delta_runShellAction id t content w :
  delta (Some id) [(id, t)] w (Runner.runShellAction id t content w).
Proof.
  unfold Runner.runShellAction. destruct (E2B.isReady _).
  - apply (delta_op_await (Some id) (KShellRun id t) w
             (Link.runCommand (FromAction id) content w)).
    apply (delta_runCommand (FromAction id)).
  - apply delta_weaken, delta_inner_done.
Qed.

(** A frame that is not the join of an execution resumes without touching
    the chain; a frame of an execution leaves one frame of that execution. *)
Lemma delta_resume f o w :
  is_join f = false →
  delta (fst <$> exec_frame f) (omap exec_of [RResume f]) w (resume f o w).
Proof.
  intros Hj. destruct f; try done; cbn [resume exec_frame exec_of omap fmap option_fmap
                                          option_map fst list_omap].
  - destruct o.
    + apply delta_runner_mkdir.
    + apply delta_weaken.
      eapply delta_then; [|apply delta_inner_done]; by apply delta_note.
  - destruct o.
    + apply delta_weaken, delta_file_local.
    + apply delta_weaken.
      eapply delta_then; [|apply delta_inner_done]; by apply delta_note.
  - destruct o.
    + apply delta_weaken, delta_inner_done.
    + apply delta_weaken.
      eapply delta_then; [|apply delta_inner_done]; by apply delta_note.
  - apply delta_drain_resume.
  - destruct o.
    + apply delta_sync_mkdir.
    + eapply delta_then; [|apply delta_sync_loop]; by apply delta_note.
  - destruct o.
    + apply delta_sync_loop.
    + eapply delta_then; [|apply delta_sync_loop]; by apply delta_note.
Qed.

#[local] Arguments Nat.mul : simpl never.

(** ** Reading the trace *)

Lemma submitted_app tr tr' : submitted (tr ++ tr') = submitted tr ++ submitted tr'.
Proof. apply omap_app. Qed.

Lemma begun_app tr tr' : begun (tr ++ tr') = begun tr ++ begun tr'.
Proof. apply omap_app. Qed.

Lemma serial_go_app tr tr' cur :
  serial_go cur (tr ++ tr') = serial_go cur tr ≫= λ c, serial_go c tr'.
Proof.
  revert cur. induction tr as [|o tr IH]; intros cur; [done|].
  cbn. destruct (serial_step cur o); [apply IH|done].
Qed.

Lemma neutral_trace who cur (extra : list obs) :
  Forall (neutral who) extra → compatible who cur →
  submitted extra = [] ∧ begun extra = [] ∧ serial_go cur extra = Some cur.
Proof.
  intros Hn Hc. induction Hn as [|o extra Ho Hn (IH1 & IH2 & IH3)]; [done|].
  destruct o as [| | |[id| |] k| |]; cbn in *; try done.
  destruct who as [id'|]; [|done]. cbn in Hc. subst cur. injection Ho as ->.
  by rewrite decide_True.
Qed.

Lemma waiting_regs_on_chain j ids :
  Forall (λ pr : pid * reaction,
            match pr.1 with PChain _ => True | _ => False end) (waiting_regs j ids).
Proof.
  revert j. induction ids as [|id ids IH]; intros j; [constructor|].
  cbn. constructor; [done|]. constructor; [done|]. apply IH.
Qed.

Lemma chain_inv_links w d ph ex cur jobs :
  chain_inv w d ph ex cur jobs → links_on_chain w.
Proof.
  intros H. unfold links_on_chain. rewrite (ci_regs _ _ _ _ _ _ H).
  unfold expected_regs. apply Forall_app. split; [|apply waiting_regs_on_chain].
  destruct ph; repeat constructor.
Qed.

(** The invariant passes through every step that leaves the chain alone. *)
Lemma chain_inv_frame who add w w' d ph ex cur jobs :
  chain_inv w d ph ex cur jobs → delta who add w w' → compatible who cur →
  chain_inv w' d ph (ex ++ add) cur jobs.
Proof.
  intros Hi Hd Hc. pose proof (Hd (chain_inv_links _ _ _ _ _ _ Hi)) as Hf.
  destruct Hf as [ft fn fc fr fj fe (extra & ftr & fne) fx].
  destruct (neutral_trace who cur extra fne Hc) as (Hs & Hb & Hser).
  destruct Hi as [it inx ip ir ipe ith irg ijb iex ibg ise ixd ind].
  assert (Hsub : submitted (trace w') = submitted (trace w)).
  { by rewrite ftr, submitted_app, Hs, app_nil_r. }
  split; rewrite ?Hsub.
  - congruence.
  - congruence.
  - done.
  - intros j Hj. rewrite fc. by apply ir.
  - intros n Hn. rewrite fc. by apply ipe.
  - destruct ph; try done; by rewrite fc.
  - congruence.
  - congruence.
  - by rewrite fe, iex.
  - by rewrite ftr, begun_app, Hb, app_nil_r.
  - unfold serial in *. rewrite ftr, serial_go_app, ise. exact Hser.
  - intros id Hid. destruct (ixd id Hid) as (a & Ha & He). eauto.
  - done.
Qed.

Lemma chain_inv_quiet w w' d ph ex cur jobs :
  chain_inv w d ph ex cur jobs → delta None [] w w' → chain_inv w' d ph ex cur jobs.
Proof.
  intros Hi Hd. rewrite <- (app_nil_r ex). by eapply chain_inv_frame.
Qed.

(** ** Taking the next job *)

Lemma pop_link_jobs w r o rest :
  microtasks w = (r, o) :: rest →
  link_jobs w = (if is_link r then [(r, o)] else []) ++ link_jobs (with_microtasks rest w).
Proof. intros H. unfold link_jobs. rewrite H. cbn. by destruct (is_link r). Qed.

Lemma pop_execs w r o rest :
  microtasks w = (r, o) :: rest →
  execs w ≡ₚ omap exec_of [r] ++ execs (with_microtasks rest w).
Proof.
  intros H. unfold execs, pool. rewrite H. cbn [with_microtasks registry microtasks].
  rewrite fmap_cons, !omap_app. cbn [fst].
  change (r :: rest.*1) with ([r] ++ rest.*1). rewrite omap_app.
  rewrite !app_assoc. f_equiv. apply Permutation_app_comm.
Qed.

Lemma nth_id_lookup ids d : d < length ids → ids !! d = Some (nth_id ids d).
Proof.
  intros H. unfold nth_id. destruct (ids !! d) eqn:E; [done|].
  apply lookup_ge_None in E. lia.
Qed.

Lemma nth_id_elem ids d : d < length ids → nth_id ids d ∈ ids.
Proof. intros H. eapply list_elem_of_lookup_2, nth_id_lookup, H. Qed.

(** A job that is neither chained nor part of an execution leaves the
    invariant as it is when it is taken from the queue. *)
Lemma chain_inv_pop w r o rest d ph ex cur jobs :
  chain_inv w d ph ex cur jobs →
  microtasks w = (r, o) :: rest →
  is_link r = false → exec_of r = None →
  chain_inv (with_microtasks rest w) d ph ex cur jobs.
Proof.
  intros Hi Hm Hl He.
  pose proof (pop_link_jobs w r o rest Hm) as Hj. rewrite Hl, app_nil_l in Hj.
  pose proof (pop_execs w r o rest Hm) as Hx. cbn [omap list_omap] in Hx.
  rewrite He, app_nil_l in Hx.
  destruct Hi as [it inx ip ir ipe ith irg ijb iex ibg ise ixd ind].
  split; try done.
  - by rewrite <- Hj.
  - by rewrite <- Hx.
Qed.

(** The [then] callback of a submission runs: the execution begins. *)
Lemma chain_inv_begin w id t o rest d ph :
  chain_inv w d ph (running_execs (submitted (trace w)) d ph)
    (current (submitted (trace w)) d ph)
    (expected_jobs (submitted (trace w)) d ph) →
  microtasks w = (RThenExec id t, o) :: rest →
  ∃ v a, ph = Queued v ∧ o = Resolved v ∧ id = nth_id (submitted (trace w)) d
    ∧ t = 2 * d + 1
    ∧ alist_lookup id (actions w) = Some a
    ∧ chain_inv (note (OBegin id) (with_microtasks rest w)) d Running [] (Some id) [].
Proof.
  intros Hi Hm.
  pose proof (pop_link_jobs w _ _ rest Hm) as Hj. cbn [is_link app] in Hj.
  pose proof (pop_execs w _ _ rest Hm) as Hx.
  cbn [omap list_omap exec_of app] in Hx.
  destruct Hi as [it inx ip ir ipe ith irg ijb iex ibg ise ixd ind].
  rewrite ijb in Hj. destruct ph as [|v| |o']; try done.
  cbn [expected_jobs] in Hj. injection Hj as Hid Ht Ho Hj. subst id t o.
  destruct (ixd (nth_id (submitted (trace w)) d)) as (a & Ha & He).
  { by apply nth_id_elem. }
  exists v, a. repeat split; try done.
  all: cbn [trace note with_microtasks tail nextChain promises actions];
    rewrite ?submitted_app, ?app_nil_r; try done.
  - change (execs (with_microtasks rest w) ≡ₚ []). by rewrite <- Hx, iex.
  - rewrite begun_app, ibg. cbn. symmetry. apply take_S_r. by apply nth_id_lookup.
  - unfold serial in *. rewrite serial_go_app, ise. done.
Qed.

Lemma chain_inv_pop_exec w f o rest d ph id t :
  chain_inv w d ph (running_execs (submitted (trace w)) d ph)
    (current (submitted (trace w)) d ph)
    (expected_jobs (submitted (trace w)) d ph) →
  microtasks w = (RResume f, o) :: rest →
  exec_frame f = Some (id, t) →
  ph = Running ∧ id = nth_id (submitted (trace w)) d ∧ t = 2 * d + 1
  ∧ chain_inv (with_microtasks rest w) d Running [] (Some id) [].
Proof.
  intros Hi Hm Hf.
  pose proof (pop_link_jobs w _ _ rest Hm) as Hj. cbn [is_link app] in Hj.
  pose proof (pop_execs w _ _ rest Hm) as Hx.
  cbn [omap list_omap exec_of app] in Hx. rewrite Hf in Hx. cbn [app] in Hx.
  destruct Hi as [it inx ip ir ipe ith irg ijb iex ibg ise ixd ind].
  rewrite iex in Hx.
  destruct ph as [|v| |o']; try (by apply Permutation_nil_cons in Hx).
  cbn [running_execs] in Hx. apply Permutation_singleton_l in Hx.
  injection Hx as Hid Ht Hx. subst id t.
  repeat split; try done.
  - by rewrite <- Hj.
  - by rewrite <- Hx.
Qed.

(** ** Settling a link of the chain *)

Lemma filter_map_link (o : outcome) (l : list (pid * reaction)) :
  List.filter (λ ro : reaction * outcome, is_link ro.1)
    (List.map (λ pr : pid * reaction, (pr.2, o)) l)
  = List.map (λ pr : pid * reaction, (pr.2, o)) (List.filter (λ pr, is_link pr.2) l).
Proof.
  induction l as [|[q r] l IH]; [done|]. cbn. destruct (is_link r); cbn; by rewrite IH.
Qed.

Lemma filter_swap {A : Type} (P Q : A → bool) (l : list A) :
  List.filter P (List.filter Q l) = List.filter Q (List.filter P l).
Proof.
  induction l as [|x l IH]; [done|]. cbn.
  destruct (P x) eqn:HP, (Q x) eqn:HQ; cbn; rewrite ?HP, ?HQ, IH; done.
Qed.

Lemma settle_chain_view (n : nat) (o : outcome) (w : World) :
  promises w !! PChain n = None →
  link_regs (settle (PChain n) o w)
    = List.filter (λ pr, negb (waits_on (PChain n) pr)) (link_regs w)
  ∧ link_jobs (settle (PChain n) o w)
    = link_jobs w
      ++ List.map (λ pr : pid * reaction, (pr.2, o))
           (List.filter (waits_on (PChain n)) (link_regs w))
  ∧ promises (settle (PChain n) o w) = <[PChain n := o]> (promises w)
  ∧ tail (settle (PChain n) o w) = tail w
  ∧ nextChain (settle (PChain n) o w) = nextChain w.
Proof.
  intros Hp. unfold settle. rewrite Hp. unfold link_regs, link_jobs. cbn.
  split; [apply filter_swap|]. split; [|done].
  rewrite List.filter_app, filter_map_link. f_equal. f_equal. apply filter_swap.
Qed.

Lemma waiting_regs_above (ids : list string) :
  ∀ j n, n < 2 * j →
    List.filter (waits_on (PChain n)) (waiting_regs j ids) = []
    ∧ List.filter (λ pr, negb (waits_on (PChain n) pr)) (waiting_regs j ids)
      = waiting_regs j ids.
Proof.
  induction ids as [|id ids IH]; intros j n Hn; [done|].
  destruct (IH (S j) n) as [IH1 IH2]; [lia|].
  assert (E1 : waits_on (PChain n) (PChain (2 * j), RThenExec id (2 * j + 1)) = false).
  { apply bool_decide_eq_false_2. intros [= E]. lia. }
  assert (E2 : waits_on (PChain n) (PChain (2 * j + 1), RCatchLog (2 * j + 2)) = false).
  { apply bool_decide_eq_false_2. intros [= E]. lia. }
  cbn [waiting_regs List.filter]. rewrite E1, E2.
  cbn [negb]. by rewrite IH1, IH2.
Qed.

(** The execution ends: the promise of the [then] callback settles and the
    [catch] callback becomes a job. *)
Lemma chain_inv_join w d id o b :
  chain_inv w d Running [] (Some id) [] →
  chain_inv (settle (PChain (2 * d + 1)) o (note (OEnd id b) w)) d (Catching o)
    [] None [(RCatchLog (2 * d + 2), o)].
Proof.
  intros [it inx ip ir ipe ith irg ijb iex ibg ise ixd ind].
  set (w1 := note (OEnd id b) w).
  assert (Hp : promises w1 !! PChain (2 * d + 1) = None) by done.
  destruct (settle_chain_view (2 * d + 1) o w1 Hp) as (Hr & Hj & Hpr & Ht & Hn).
  assert (Hsub : submitted (trace w1) = submitted (trace w)).
  { unfold w1. cbn. by rewrite submitted_app, app_nil_r. }
  assert (E1 : waits_on (PChain (2 * d + 1)) (PChain (2 * d + 1), RCatchLog (2 * d + 2))
               = true) by (by apply bool_decide_eq_true_2).
  destruct (waiting_regs_above (drop (S d) (submitted (trace w))) (S d) (2 * d + 1))
    as [Hw1 Hw2]; [lia|].
  change (link_regs w1) with (link_regs w) in *.
  change (link_jobs w1) with (link_jobs w) in *.
  rewrite irg in Hr, Hj. unfold expected_regs in Hr, Hj.
  cbn [app List.filter] in Hr, Hj. rewrite E1 in Hr, Hj.
  cbn [negb] in Hr. rewrite Hw2 in Hr. rewrite Hw1, ijb in Hj.
  split; rewrite ?settle_trace, ?Hsub, ?settle_actions; try done.
  - by rewrite Ht.
  - by rewrite Hn.
  - intros j Hj'. rewrite Hpr, lookup_insert_ne by (intros [= E]; lia). by apply ir.
  - intros n Hn'. rewrite Hpr, lookup_insert_ne by (intros [= E]; lia). by apply ipe.
  - by rewrite settle_execs.
  - unfold w1. cbn. by rewrite begun_app, app_nil_r.
  - unfold w1, serial in *. cbn. rewrite serial_go_app, ise. cbn.
    by rewrite decide_True.
Qed.

Lemma chain_inv_pop_catch w p o rest d ph :
  chain_inv w d ph (running_execs (submitted (trace w)) d ph)
    (current (submitted (trace w)) d ph)
    (expected_jobs (submitted (trace w)) d ph) →
  microtasks w = (RCatchLog p, o) :: rest →
  ph = Catching o ∧ p = 2 * d + 2
  ∧ chain_inv (with_microtasks rest w) d (Catching o) [] None [].
Proof.
  intros Hi Hm.
  pose proof (pop_link_jobs w _ _ rest Hm) as Hj. cbn [is_link app] in Hj.
  pose proof (pop_execs w _ _ rest Hm) as Hx.
  cbn [omap list_omap exec_of app] in Hx.
  destruct Hi as [it inx ip ir ipe ith irg ijb iex ibg ise ixd ind].
  rewrite ijb in Hj. destruct ph as [|v| |o']; try done.
  cbn [expected_jobs] in Hj. injection Hj as Hp Ho Hj. subst p o'.
  repeat split; try done. by rewrite <- Hx.
Qed.

Lemma drop_S_nth (ids : list string) (d : nat) :
  d < length ids → drop d ids = nth_id ids d :: drop (S d) ids.
Proof.
  intros H. apply nth_id_lookup in H. by apply drop_S in H.
Qed.

(** The [catch] callback runs: its promise resolves, and the [then] callback
    of the next submission, if there is one, becomes a job. *)
Lemma chain_inv_catch w d o v :
  chain_inv w d (Catching o) [] None [] →
  ∃ ph,
    chain_inv (settle (PChain (2 * d + 2)) (Resolved v) w) (S d) ph
      (running_execs (submitted (trace w)) (S d) ph)
      (current (submitted (trace w)) (S d) ph)
      (expected_jobs (submitted (trace w)) (S d) ph).
Proof.
  intros [it inx ip ir ipe ith irg ijb iex ibg ise ixd ind].
  assert (Hp : promises w !! PChain (2 * d + 2) = None) by (apply ipe; lia).
  destruct (settle_chain_view (2 * d + 2) (Resolved v) w Hp) as (Hr & Hj & Hpr & Ht & Hn).
  rewrite irg in Hr, Hj. unfold expected_regs in Hr, Hj. cbn [app] in Hr, Hj.
  rewrite ijb in Hj. cbn [app] in Hj.
  destruct (decide (S d = length (submitted (trace w)))) as [Hk|Hk].
  - exists Idle.
    rewrite drop_ge in Hr, Hj by lia. cbn in Hr, Hj.
    split; rewrite ?settle_trace, ?settle_actions; try done.
    + by rewrite Ht.
    + by rewrite Hn.
    + intros j Hj'. rewrite Hpr. destruct (decide (j = S d)) as [->|].
      * replace (2 * S d) with (2 * d + 2) by lia. rewrite lookup_insert_eq. eauto.
      * rewrite lookup_insert_ne by (intros [= E]; lia). apply ir. lia.
    + intros n Hn'. rewrite Hpr, lookup_insert_ne by (intros [= E]; lia).
      apply ipe. lia.
    + rewrite Hpr, lookup_insert_ne by (intros [= E]; lia). apply ipe. lia.
    + rewrite Hr. unfold expected_regs. by rewrite drop_ge by lia.
    + by rewrite settle_execs.
  - exists (Queued v).
    assert (Hlt : S d < length (submitted (trace w))) by lia.
    rewrite (drop_S_nth _ (S d) Hlt) in Hr, Hj.
    cbn [waiting_regs List.filter] in Hr, Hj.
    assert (E1 : waits_on (PChain (2 * d + 2))
                   (PChain (2 * S d), RThenExec (nth_id (submitted (trace w)) (S d))
                                        (2 * S d + 1)) = true).
    { apply bool_decide_eq_true_2. cbn. f_equal. lia. }
    assert (E2 : waits_on (PChain (2 * d + 2))
                   (PChain (2 * S d + 1), RCatchLog (2 * S d + 2)) = false).
    { apply bool_decide_eq_false_2. intros [= E]. lia. }
    destruct (waiting_regs_above (drop (S (S d)) (submitted (trace w))) (S (S d))
                (2 * d + 2)) as [Hw1 Hw2]; [lia|].
    rewrite E1, E2 in Hr, Hj. cbn [negb] in Hr. rewrite Hw2 in Hr. rewrite Hw1 in Hj.
    split; rewrite ?settle_trace, ?settle_actions; try done.
    + by rewrite Ht.
    + by rewrite Hn.
    + intros j Hj'. rewrite Hpr. destruct (decide (j = S d)) as [->|].
      * replace (2 * S d) with (2 * d + 2) by lia. rewrite lookup_insert_eq. eauto.
      * rewrite lookup_insert_ne by (intros [= E]; lia). apply ir. lia.
    + intros n Hn'. rewrite Hpr, lookup_insert_ne by (intros [= E]; lia).
      apply ipe. lia.
    + rewrite Hpr, lookup_insert_ne by (intros [= E]; lia). apply ipe. lia.
    + by rewrite settle_execs.
Qed.

(** ** A submission *)

Lemma runAction_skip data w :
  (∀ a, alist_lookup (actionId data) (actions w) = Some a → executed a = true) →
  Runner.runAction data w = w.
Proof.
  intros H. unfold Runner.runAction.
  destruct (alist_lookup (actionId data) (actions w)) as [a|] eqn:Ha; [|done].
  by rewrite (H a eq_refl).
Qed.

Lemma runAction_fields data w a :
  alist_lookup (actionId data) (actions w) = Some a →
  executed a = false →
  promises w !! PChain (nextChain w) = None →
  let id := actionId data in
  let t := nextChain w in
  let w' := Runner.runAction data w in
  trace w' = trace w ++ [OSubmit id t (S t)]
  ∧ tail w' = S t ∧ nextChain w' = S (S t) ∧ promises w' = promises w
  ∧ actions w'
    = alist_set id (mkAction (data_action data) (status a) (error a) true
                      (signal_aborted a)) (actions w)
  ∧ match promises w !! PChain (tail w) with
    | Some o =>
        microtasks w' = microtasks w ++ [(RThenExec id t, o)]
        ∧ registry w' = registry w ++ [(PChain t, RCatchLog (S t))]
    | None =>
        microtasks w' = microtasks w
        ∧ registry w'
          = registry w ++ [(PChain (tail w), RThenExec id t); (PChain t, RCatchLog (S t))]
    end.
Proof.
  intros Ha He Hp. unfold Runner.runAction. rewrite Ha, He. cbn zeta.
  unfold on_settled. cbn.
  destruct (promises w !! PChain (tail w)) as [o|] eqn:Ht; cbn; rewrite Hp; cbn.
  - done.
  - by rewrite <- app_assoc.
Qed.

Lemma waiting_regs_app (l1 l2 : list string) :
  ∀ j, waiting_regs j (l1 ++ l2) = waiting_regs j l1 ++ waiting_regs (j + length l1) l2.
Proof.
  induction l1 as [|id l1 IH]; intros j; cbn [waiting_regs app length].
  - by rewrite Nat.add_0_r.
  - rewrite IH. replace (S j + length l1) with (j + S (length l1)) by lia. done.
Qed.

Lemma nth_id_app_l (ids : list string) (id : string) (d : nat) :
  d < length ids → nth_id (ids ++ [id]) d = nth_id ids d.
Proof. intros H. unfold nth_id. by rewrite lookup_app_l. Qed.

Lemma nth_id_app_r (ids : list string) (id : string) :
  nth_id (ids ++ [id]) (length ids) = id.
Proof. unfold nth_id. by rewrite list_lookup_middle. Qed.

Lemma execs_ext (w w' : World) (rs : list (pid * reaction))
    (js : list (reaction * outcome)) :
  registry w' = registry w ++ rs → microtasks w' = microtasks w ++ js →
  omap exec_of rs.*2 = [] → omap exec_of js.*1 = [] →
  execs w' ≡ₚ execs w.
Proof.
  intros Hr Hm H1 H2. unfold execs, pool. rewrite Hr, Hm, !fmap_app, !omap_app.
  rewrite H1, H2. by rewrite !app_nil_r.
Qed.

Lemma chain_ok_runAction data w : chain_ok w → chain_ok (Runner.runAction data w).
Proof.
  intros (d & ph & Hi).
  destruct (alist_lookup (actionId data) (actions w)) as [a|] eqn:Ha;
    [|rewrite runAction_skip; [by exists d, ph|intros a; congruence]].
  destruct (executed a) eqn:He;
    [rewrite runAction_skip; [by exists d, ph|intros a' ?; by simplify_eq]|].
  destruct Hi as [it inx ip ir ipe ith irg ijb iex ibg ise ixd ind].
  remember (submitted (trace w)) as ids eqn:Hids.
  remember (length ids) as k eqn:Hk.
  remember (actionId data) as id eqn:Hid.
  assert (Hnew : id ∉ ids).
  { intros Hin. destruct (ixd id Hin) as (a' & Ha' & He'). congruence. }
  assert (Hfresh : promises w !! PChain (nextChain w) = None).
  { rewrite inx. destruct ph; try (apply ipe; lia).
    by replace (2 * k + 1) with (2 * d + 1) by lia. }
  destruct (runAction_fields data w a) as (Htr & Htl & Hnx & Hpr & Hac & Hq);
    [by rewrite <- Hid|done|done|].
  rewrite <- Hid in Htr, Hac, Hq. rewrite inx, it in *.
  remember (Runner.runAction data w) as w' eqn:Hw'.
  assert (Hsub : submitted (trace w') = ids ++ [id]).
  { by rewrite Htr, submitted_app, <- Hids. }
  assert (Hlen : length (ids ++ [id]) = S k) by (rewrite length_app; cbn; lia).
  assert (Hexd : ∀ id', id' ∈ ids ++ [id] →
            ∃ a', alist_lookup id' (actions w') = Some a' ∧ executed a' = true).
  { intros id' Hin. rewrite Hac, alist_lookup_set.
    destruct (decide (id = id')) as [<-|Hne]; [eauto|].
    apply elem_of_app in Hin as [Hin|Hin%list_elem_of_singleton]; [by apply ixd|done]. }
  assert (Hnd : NoDup (ids ++ [id])).
  { apply NoDup_app. split; [done|]. split; [|apply NoDup_singleton].
    intros x Hx ->%list_elem_of_singleton. done. }
  assert (Hser : serial (trace w') = serial (trace w)).
  { unfold serial. rewrite Htr, serial_go_app. by destruct (serial_go None (trace w)). }
  assert (Hbg : begun (trace w') = begun (trace w)).
  { by rewrite Htr, begun_app, app_nil_r. }
  destruct (decide (d = k)) as [Hdk|Hdk].
  - (* the chain was idle: the callback is queued at once *)
    assert (ph = Idle) as -> by (destruct ph; try done; lia).
    destruct (ir d) as [v Hv]; [lia|]. rewrite Hdk in Hv. rewrite Hv in Hq.
    destruct Hq as [Hm Hr].
    exists d, (Queued v). rewrite Hsub.
    split; rewrite ?Hsub, ?Hlen, ?Hpr; try done; try lia.
    + unfold link_regs in *. rewrite Hr, List.filter_app, irg. cbn.
      unfold expected_regs. rewrite !drop_ge by lia.
      cbn. rewrite Hdk. do 3 f_equal. lia.
    + unfold link_jobs in *. rewrite Hm, List.filter_app, ijb. cbn.
      by rewrite Hdk, Hk, nth_id_app_r.
    + etrans; [|exact iex].
      eapply execs_ext; [exact Hr|exact Hm|done|done].
    + rewrite Hbg, ibg. cbn. rewrite take_app_le by lia. done.
    + by rewrite Hser.
  - (* the chain is busy: both callbacks are registered *)
    assert (Hlt : d < k) by (destruct ph; lia).
    assert (Hpend : promises w !! PChain (2 * k) = None) by (apply ipe; lia).
    rewrite Hpend in Hq. destruct Hq as [Hm Hr].
    exists d, ph. rewrite Hsub.
    assert (Hnth : nth_id (ids ++ [id]) d = nth_id ids d).
    { apply nth_id_app_l. lia. }
    split; rewrite ?Hsub, ?Hlen, ?Hpr; try done; try lia.
    + destruct ph; cbn in ip; lia.
    + unfold link_regs in *. rewrite Hr, List.filter_app, irg. cbn.
      unfold expected_regs. rewrite <- app_assoc. f_equal.
      rewrite drop_app_le by lia. rewrite waiting_regs_app.
      rewrite length_drop. replace (S d + (length ids - S d)) with k by lia.
      cbn. by replace (S (2 * k + 1)) with (2 * k + 2) by lia.
    + unfold link_jobs in *. rewrite Hm, ijb.
      unfold expected_jobs. by rewrite Hnth.
    + unfold running_execs. rewrite Hnth. etrans; [|exact iex].
      eapply execs_ext; [exact Hr|by rewrite Hm, app_nil_r|done|done].
    + rewrite Hbg, ibg. rewrite take_app_le; [done|]. destruct ph; cbn; lia.
    + rewrite Hser, ise. unfold current. by rewrite Hnth.
Qed.

(** ** The invariant holds in every reachable world *)

Lemma delta_submitted who add w w' d ph ex cur jobs :
  chain_inv w d ph ex cur jobs → delta who add w w' →
  submitted (trace w') = submitted (trace w).
Proof.
  intros Hi Hd. destruct (Hd (chain_inv_links _ _ _ _ _ _ Hi))
    as [_ _ _ _ _ _ (extra & -> & Hn) _].
  rewrite submitted_app.
  assert (submitted extra = []) as ->; [|by rewrite app_nil_r].
  clear -Hn. induction Hn as [|o extra Ho Hn IH]; [done|].
  by destruct o.
Qed.

Lemma chain_ok_quiet w w' : chain_ok w → delta None [] w w' → chain_ok w'.
Proof.
  intros (d & ph & Hi) Hd. exists d, ph.
  rewrite (delta_submitted _ _ _ _ _ _ _ _ _ Hi Hd).
  by eapply chain_inv_quiet.
Qed.

Lemma chain_ok_init mid : chain_ok (init mid).
Proof.
  exists 0, Idle. split; try done.
  - intros j Hj. exists VUndef. by replace j with 0 by lia.
  - intros n Hn. cbn. apply lookup_singleton_ne. intros [= E]. lia.
  - by intros id ?%elem_of_nil.
  - constructor.
Qed.

Lemma chain_ok_tick w : chain_ok w → chain_ok (tick w).
Proof.
  intros (d & ph & Hi). unfold tick.
  destruct (microtasks w) as [|[r o] rest] eqn:Hm; [by exists d, ph|].
  destruct r as [id|id t|p|f]; cbn [run_job].
  - (* the status of a registered action becomes running *)
    pose proof (chain_inv_pop _ _ _ _ _ _ _ _ _ Hi Hm eq_refl eq_refl) as H0.
    apply (chain_ok_quiet (with_microtasks rest w)); [by exists d, ph|].
    destruct o; [apply delta_updateStatus|apply delta_refl].
  - (* an execution begins *)
    destruct (chain_inv_begin _ _ _ _ _ _ _ Hi Hm)
      as (v & a & -> & -> & Hid & -> & Ha & H0).
    unfold Runner.executeAction.
    change (actions (with_microtasks rest w)) with (actions w). rewrite Ha.
    set (w0 := with_microtasks rest w) in *.
    pose proof (chain_inv_quiet _ _ _ _ _ _ _ H0
                  (delta_updateStatus id running None (note (OBegin id) w0))) as H1.
    set (w1 := Runner.updateStatus id running None (note (OBegin id) w0)) in *.
    assert (Hs1 : submitted (trace w1) = submitted (trace w)).
    { unfold w1, w0. cbn. by rewrite submitted_app, app_nil_r. }
    assert (Hgo : ∀ w2, delta (Some id) [(id, 2 * d + 1)] w1 w2 → chain_ok w2).
    { intros w2 Hd. exists d, Running.
      rewrite (delta_submitted _ _ _ _ _ _ _ _ _ H1 Hd), Hs1.
      cbn [running_execs current expected_jobs]. rewrite <- Hid.
      by apply (chain_inv_frame (Some id) [(id, 2 * d + 1)] w1 w2 d Running []
                  (Some id) []). }
    destruct (action a); apply Hgo.
    + apply delta_runFileAction.
    + apply delta_runShellAction.
  - (* the catch callback of an ended execution runs *)
    destruct (chain_inv_pop_catch _ _ _ _ _ _ Hi Hm) as (-> & -> & H0).
    set (w0 := with_microtasks rest w) in *.
    destruct o as [v|e].
    + destruct (chain_inv_catch w0 d (Resolved v) v H0) as [ph' H1].
      exists (S d), ph'. by rewrite settle_trace.
    + pose proof (chain_inv_quiet _ _ _ _ _ _ _ H0
                    (delta_note None (OError "Action failed:") w0 I)) as H1.
      destruct (chain_inv_catch _ d (Rejected e) VUndef H1) as [ph' H2].
      exists (S d), ph'. rewrite settle_trace. exact H2.
  - destruct (exec_frame f) as [[id t]|] eqn:Hf.
    + (* a frame of the running execution resumes *)
      destruct (chain_inv_pop_exec _ _ _ _ _ _ _ _ Hi Hm Hf) as (-> & Hid & -> & H0).
      set (w0 := with_microtasks rest w) in *.
      destruct (is_join f) eqn:Hj.
      * destruct f; try done. injection Hf as -> ->.
        cbn [resume]. unfold Runner.join. exists d.
        destruct o as [v|e].
        -- set (st := if match alist_lookup id (actions w0) with
                         | Some a => signal_aborted a
                         | None => false
                         end then aborted else complete).
           pose proof (chain_inv_quiet _ _ _ _ _ _ _ H0
                         (delta_updateStatus id st None w0)) as H1.
           exists (Catching (Resolved VUndef)). rewrite settle_trace.
           apply (chain_inv_join _ d id (Resolved VUndef) true) in H1.
           cbn [trace note] in *. rewrite submitted_app, app_nil_r. exact H1.
        -- pose proof (chain_inv_quiet _ _ _ _ _ _ _ H0
                         (delta_updateStatus id failed (Some "Action failed") w0)) as H1.
           exists (Catching (Rejected e)). rewrite settle_trace.
           apply (chain_inv_join _ d id (Rejected e) false) in H1.
           cbn [trace note] in *. rewrite submitted_app, app_nil_r. exact H1.
      * pose proof (delta_resume f o w0 Hj) as Hd. rewrite Hf in Hd.
        cbn [fmap option_fmap option_map fst omap list_omap exec_of] in Hd.
        rewrite Hf in Hd. exists d, Running.
        rewrite (delta_submitted _ _ _ _ _ _ _ _ _ H0 Hd).
        change (submitted (trace w0)) with (submitted (trace w)).
        cbn [running_execs current expected_jobs]. rewrite <- Hid.
        by apply (chain_inv_frame (Some id) [(id, 2 * d + 1)] w0 _ d Running []
                    (Some id) []).
    + (* a frame outside the runner resumes *)
      assert (Hj : is_join f = false) by (by destruct f).
      pose proof (chain_inv_pop _ _ _ _ _ _ _ _ _ Hi Hm eq_refl Hf) as H0.
      apply (chain_ok_quiet (with_microtasks rest w)); [by exists d, ph|].
      pose proof (delta_resume f o (with_microtasks rest w) Hj) as Hd.
      rewrite Hf in Hd. cbn in Hd. by rewrite Hf in Hd.
Qed.

Lemma chain_ok_step e w : chain_ok w → chain_ok (step e w).
Proof.
  intros Hi. destruct e; cbn [step].
  - destruct (decide _); [|done]. eapply chain_ok_quiet; [done|apply delta_addAction].
  - destruct (decide _); [|done]. by apply chain_ok_runAction.
  - eapply chain_ok_quiet; [done|apply delta_abort].
  - eapply chain_ok_quiet; [done|apply delta_with_e2b].
  - eapply chain_ok_quiet; [done|apply delta_with_e2b].
  - eapply chain_ok_quiet; [done|apply delta_with_e2b].
  - eapply chain_ok_quiet; [done|apply delta_register].
  - eapply chain_ok_quiet; [done|apply delta_reset].
  - eapply chain_ok_quiet; [done|apply (delta_writeFile FromOutside)].
  - eapply chain_ok_quiet; [done|apply (delta_makeDirectory FromOutside)].
  - eapply chain_ok_quiet; [done|apply (delta_runCommand FromOutside)].
  - eapply chain_ok_quiet; [done|apply delta_with_fs].
  - eapply chain_ok_quiet; [done|apply delta_with_fs].
  - eapply chain_ok_quiet; [done|apply delta_syncMissingFiles].
  - destruct (bool_decide _); [|done].
    eapply chain_ok_quiet; [done|by apply delta_settle].
  - by apply chain_ok_tick.
Qed.

Lemma chain_ok_run es : ∀ w, chain_ok w → chain_ok (run es w).
Proof.
  induction es as [|e es IH]; intros w Hi; [done|].
  cbn. apply IH. by apply chain_ok_step.
Qed.

Lemma chain_ok_reachable mid w : reachable mid w → chain_ok w.
Proof. intros [es ->]. apply chain_ok_run, chain_ok_init. Qed.

(** C1: in every run, whatever the order of the calls into the engine and
    whenever the sandbox settles its promises, the executions of one runner
    do not overlap - at most one is in progress, an execution is entered
    only when none is in progress, and the link is called on behalf of an
    action only while that action is the one in progress - and they are
    entered in the order of submission. *)
Theorem C1_executions_serial_in_submission_order :
  ∀ (mid : string) (es : list event),
    let w := run es (init mid) in
    is_Some (serial (trace w))
    ∧ begun (trace w) `prefix_of` submitted (trace w)
    ∧ length (execs w) ≤ 1.
Proof.
  intros mid es w.
  destruct (chain_ok_run es (init mid) (chain_ok_init mid)) as (d & ph & Hi).
  fold w in Hi. destruct Hi as [_ _ _ _ _ _ _ _ iex ibg ise _ _].
  split; [by rewrite ise|]. split.
  - rewrite ibg. apply prefix_take.
  - rewrite iex. destruct ph; cbn; lia.
Qed.



(** ** One execution under a sandbox that answers *)

Lemma same_turn_refl (w : World) : calm w → same_turn w w.
Proof. by constructor. Qed.

Lemma same_turn_trans (w1 w2 w3 : World) :
  same_turn w1 w2 → same_turn w2 w3 → same_turn w1 w3.
Proof.
  intros [] []. constructor; try congruence; intros n; etrans; eauto.
Qed.

Lemma begun_snoc (tr : list obs) (o : obs) :
  begun (tr ++ [o]) = begun tr ++ match o with OBegin id => [id] | _ => [] end.
Proof. unfold begun. rewrite omap_app. by destruct o. Qed.

Lemma same_turn_called who h k o (w : World) :
  calm w → same_turn w (called who h k o w).
Proof.
  intros Hc. constructor; try done.
  - intros n. cbn. by rewrite lookup_insert_ne.
  - cbn. change [ORequest who k; OCall (nextCall w) h k]
      with ([ORequest who k] ++ [OCall (nextCall w) h k]).
    by rewrite app_assoc, !begun_snoc, !app_nil_r.
  - by apply called_calm.
Qed.

Lemma same_turn_error msg (w : World) :
  calm w → same_turn w (note (OError msg) w).
Proof.
  intros (Hm & Hr & Hcs & Hfc). constructor; try done.
  - cbn. by rewrite begun_snoc, app_nil_r.
  - repeat split; try done.
    unfold calls_settled. cbn. by rewrite calls_snoc, app_nil_r.
Qed.

Lemma same_turn_fs f (w : World) : calm w → same_turn w (with_fs f w).
Proof. intros (Hm & Hr & Hcs & Hfc). by constructor. Qed.

Lemma runner_mkdir_drives oracle id t filePath content normalizedPath hw hm :
  ∀ parts currentPath w,
    calm w →
    E2B.fileWriteCallback (e2b w) = Some hw →
    E2B.makeDirectoryCallback (e2b w) = Some hm →
    ∃ n w' o,
      drive oracle n
        (Runner.mkdir_loop id t filePath content normalizedPath currentPath parts w)
      = Runner.inner_done id t o w'
      ∧ same_turn w w'
      ∧ is_resolved o
        = forallb (λ hk, is_resolved (oracle hk.1 hk.2))
            (dir_requests hm currentPath parts
               ++ [(hw, CWrite normalizedPath content)])
      ∧ fs w' = if is_resolved o then FilesStore.addFile filePath content (fs w)
                else fs w.
Proof.
  intros parts. induction parts as [|part rest IH]; intros cur w Hc Hw Hm.
  - cbn [Runner.mkdir_loop dir_requests app forallb].
    set (k := CWrite normalizedPath content).
    set (w1 := called (FromAction id) hw k (oracle hw k) w).
    assert (H1 : same_turn w w1) by by apply same_turn_called.
    destruct (oracle hw k) as [v|e] eqn:Ho.
    + exists 2, (with_fs (FilesStore.addFile filePath content) w1), (Resolved VUndef).
      split; [|split; [|split]].
      * erewrite answer_writeFile by done. fold k. rewrite Ho. done.
      * eapply same_turn_trans; [exact H1|]. apply same_turn_fs, H1.
      * cbn. by rewrite Ho.
      * done.
    + exists 2, (note (OError "Failed to write file") w1), (Rejected e).
      split; [|split; [|split]].
      * erewrite answer_writeFile by done. fold k. rewrite Ho. done.
      * eapply same_turn_trans; [exact H1|]. apply same_turn_error, H1.
      * cbn. by rewrite Ho.
      * done.
  - cbn [Runner.mkdir_loop dir_requests].
    destruct (Js.startsWith (cur +:+ "/" +:+ part) "/home/user") eqn:Hs.
    + set (k := CMkdir (cur +:+ "/" +:+ part)).
      set (w1 := called (FromAction id) hm k (oracle hm k) w).
      assert (H1 : same_turn w w1) by by apply same_turn_called.
      destruct (oracle hm k) as [v|e] eqn:Ho.
      * destruct (IH (cur +:+ "/" +:+ part) w1)
          as (n & w' & o & Hd & Hst & Ho' & Hfs); [apply H1|done|done|].
        exists (2 + n), w', o. split; [|split; [|split]].
        -- rewrite drive_add. erewrite answer_makeDirectory by done.
           fold k. rewrite Ho. exact Hd.
        -- eapply same_turn_trans; [exact H1|exact Hst].
        -- rewrite Ho'. cbn [app forallb]. cbn [fst snd]. fold k. by rewrite Ho.
        -- exact Hfs.
      * exists 2, (note (OError "Failed to write file") w1), (Rejected e).
        split; [|split; [|split]].
        -- erewrite answer_makeDirectory by done. fold k. rewrite Ho. done.
        -- eapply same_turn_trans; [exact H1|]. apply same_turn_error, H1.
        -- cbn [app forallb]. cbn [fst snd]. fold k. by rewrite Ho.
        -- done.
    + cbn [app]. apply IH; done.
Qed.

Lemma inner_drives oracle id t a (w : World) :
  calm w →
  (E2B.isReady (e2b w) = true → installed (e2b w)) →
  ∃ n w' o,
    drive oracle n (run_inner id t a w) = Runner.inner_done id t o w'
    ∧ same_turn w w'
    ∧ is_resolved o = succeeds oracle (e2b w) a
    ∧ fs w' = if is_resolved o then local_write a (fs w) else fs w.
Proof.
  intros Hc Hin. unfold succeeds, action_requests.
  destruct a as [filePath content|content]; cbn [run_inner local_write].
  - unfold Runner.runFileAction.
    destruct (E2B.isReady (e2b w)) eqn:Hr.
    + destruct (Hin eq_refl) as ([hw Hw] & [hm Hm] & _). rewrite Hw, Hm.
      by apply runner_mkdir_drives.
    + exists 0, (with_fs (FilesStore.addFile filePath content) w), (Resolved VUndef).
      split; [done|]. split; [by apply same_turn_fs|done].
  - unfold Runner.runShellAction.
    destruct (E2B.isReady (e2b w)) eqn:Hr.
    + destruct (Hin eq_refl) as (_ & _ & [hr Hr']). rewrite Hr'.
      set (k := CRun content).
      set (w1 := called (FromAction id) hr k (oracle hr k) w).
      assert (H1 : same_turn w w1) by by apply same_turn_called.
      destruct (oracle hr k) as [v|e] eqn:Ho.
      * exists 2, w1, (Resolved VUndef). split; [|split; [|split]].
        -- erewrite answer_runCommand by done. fold k. rewrite Ho. done.
        -- done.
        -- cbn. fold k. by rewrite Ho.
        -- done.
      * exists 2, (note (OError "Failed to execute shell command") w1), (Rejected e).
        split; [|split; [|split]].
        -- erewrite answer_runCommand by done. fold k. rewrite Ho. done.
        -- eapply same_turn_trans; [exact H1|]. apply same_turn_error, H1.
        -- cbn. fold k. by rewrite Ho.
        -- done.
    + exists 0, w, (Resolved VUndef). split; [done|].
      split; [by apply same_turn_refl|]. split; [done|]. by destruct (is_resolved _).
Qed.

Lemma drive1_job oracle r o m (w : World) :
  microtasks w = (r, o) :: m →
  drive1 oracle w = run_job r o (with_microtasks m w).
Proof. intros H. unfold drive1. rewrite H. cbn. unfold tick. by rewrite H. Qed.

Lemma settle_view (p : pid) (o : outcome) (w : World) :
  promises w !! p = None →
  settle p o w
  = mkWorld (fs w) (e2b w) (actions w) (tail w) (artifact w)
      (<[p := o]> (promises w)) (nextChain w) (nextOp w) (nextCall w)
      (List.filter (λ pr, negb (waits_on p pr)) (registry w))
      (microtasks w
         ++ List.map (λ pr, (pr.2, o)) (List.filter (waits_on p) (registry w)))
      (trace w) (syncResults w).
Proof. intros H. unfold settle. by rewrite H. Qed.

Lemma waits_on_chain (n m : nat) (r : reaction) :
  waits_on (PChain n) (PChain m, r) = bool_decide (m = n).
Proof.
  unfold waits_on. cbn. apply bool_decide_ext. split; [by intros [=]|by intros ->].
Qed.

Lemma wait_full_above (rest : list (string * BoltAction)) :
  ∀ q n, n < q →
    List.filter (waits_on (PChain n)) (wait_full q rest) = []
    ∧ List.filter (λ pr, negb (waits_on (PChain n) pr)) (wait_full q rest)
      = wait_full q rest.
Proof.
  induction rest as [|ia rest IH]; intros q n Hn; [done|].
  cbn [wait_full List.filter]. rewrite !waits_on_chain.
  rewrite !bool_decide_eq_false_2 by lia. cbn [negb].
  destruct (IH (S (S q)) n) as [-> ->]; [lia|done].
Qed.

Lemma turn_begin oracle s p v id a rest (w : World) :
  turn_ready s p v id a rest w →
  ∃ w2,
    drive oracle 2 w = run_inner id (S p) a w2
    ∧ calm w2 ∧ e2b w2 = s ∧ registry w2 = registry w
    ∧ (∀ n, promises w2 !! PChain n = promises w !! PChain n)
    ∧ alist_lookup id (actions w2) = Some (mkAction a running None true false)
    ∧ (∀ id', id' ≠ id → alist_lookup id' (actions w2) = alist_lookup id' (actions w))
    ∧ begun (trace w2) = begun (trace w) ++ [id]
    ∧ fs w2 = fs w.
Proof.
  intros [He Hj Hr Hp Hcs Hfc Ha].
  assert (Hid : alist_lookup id (actions w) = Some (mkAction a pending None true false)).
  { apply (Ha (id, a)). left. }
  set (w1 := Runner.updateStatus id running None
               (with_microtasks [(RThenExec id (S p), Resolved v)] w)).
  assert (Hid1 : alist_lookup id (actions w1) = Some (mkAction a running None true false)).
  { unfold w1. cbn. rewrite alist_lookup_alter, decide_True by done.
    by rewrite Hid. }
  set (w2 := Runner.updateStatus id running None
               (note (OBegin id) (with_microtasks [] w1))).
  exists w2. split; [|repeat split].
  - cbn [drive]. rewrite (drive1_job _ _ _ _ _ Hj). cbn [run_job]. fold w1.
    rewrite (drive1_job oracle (RThenExec id (S p)) (Resolved v) [] w1) by done.
    cbn [run_job]. unfold Runner.executeAction.
    change (actions (with_microtasks [] w1)) with (actions w1).
    rewrite Hid1. fold w2. by destruct a.
  - unfold chain_only. change (registry w2) with (registry w). rewrite Hr.
    constructor; [done|]. clear. generalize (S (S p)).
    induction rest as [|ia rest IH]; intros q; cbn; [constructor|].
    repeat (constructor; [done|]). apply IH.
  - unfold calls_settled. change (promises w2) with (promises w).
    change (trace w2) with (trace w ++ [OBegin id]).
    by rewrite calls_snoc, app_nil_r.
  - exact Hfc.
  - exact He.
  - unfold w2. cbn. rewrite alist_lookup_alter, decide_True by done.
    change (alist_lookup id (actions w1) = Some (mkAction a running None true false)) in Hid1.
    cbn in Hid1. by rewrite Hid1.
  - intros id' Hne. unfold w2, w1. cbn.
    by rewrite !alist_lookup_alter, !decide_False by done.
  - change (trace w2) with (trace w ++ [OBegin id]). by rewrite begun_snoc.
Qed.

Lemma join_view id a rest p o (w : World) :
  microtasks w = [] →
  registry w = (PChain (S p), RCatchLog (S (S p))) :: wait_full (S (S p)) rest →
  promises w !! PChain (S p) = None →
  alist_lookup id (actions w) = Some (mkAction a running None true false) →
  Runner.join id (S p) o w
  = mkWorld (fs w) (e2b w) (alist_set id (ended a o) (actions w)) (tail w)
      (artifact w)
      (<[PChain (S p) :=
           match o with Resolved _ => Resolved VUndef | Rejected e => Rejected e end]>
         (promises w))
      (nextChain w) (nextOp w) (nextCall w) (wait_full (S (S p)) rest)
      [(RCatchLog (S (S p)),
        match o with Resolved _ => Resolved VUndef | Rejected e => Rejected e end)]
      (trace w ++ [OEnd id (is_resolved o)]) (syncResults w).
Proof.
  intros Hm Hr Hp Hid.
  destruct (wait_full_above rest (S (S p)) (S p)) as [Hf1 Hf2]; [lia|].
  destruct o as [v|e]; unfold Runner.join; rewrite ?Hid; cbn [signal_aborted].
  - rewrite settle_view by exact Hp. cbn. rewrite Hr, Hm. cbn [List.filter].
    rewrite waits_on_chain, bool_decide_eq_true_2 by done. cbn [negb].
    rewrite Hf1, Hf2. unfold alist_alter. rewrite Hid. done.
  - rewrite settle_view by exact Hp. cbn. rewrite Hr, Hm. cbn [List.filter].
    rewrite waits_on_chain, bool_decide_eq_true_2 by done. cbn [negb].
    rewrite Hf1, Hf2. unfold alist_alter. rewrite Hid. done.
Qed.

Lemma turn_end oracle p id a rest o (w : World) :
  calm w →
  registry w = (PChain (S p), RCatchLog (S (S p))) :: wait_full (S (S p)) rest →
  (∀ n, p < n → promises w !! PChain n = None) →
  alist_lookup id (actions w) = Some (mkAction a running None true false) →
  ∃ w',
    drive oracle 2 (Runner.inner_done id (S p) o w) = w'
    ∧ e2b w' = e2b w
    ∧ alist_lookup id (actions w') = Some (ended a o)
    ∧ (∀ id', id' ≠ id → alist_lookup id' (actions w') = alist_lookup id' (actions w))
    ∧ begun (trace w') = begun (trace w)
    ∧ calls_settled w' ∧ fresh_calls w'
    ∧ (∀ n, S (S p) < n → promises w' !! PChain n = None)
    ∧ match rest with
      | [] => microtasks w' = [] ∧ registry w' = []
      | ia :: rest2 =>
          ∃ v',
            microtasks w'
            = [(RSetRunning ia.1, Resolved v');
               (RThenExec ia.1 (S (S (S p))), Resolved v')]
            ∧ registry w'
              = (PChain (S (S (S p))), RCatchLog (S (S (S (S p)))))
                :: wait_full (S (S (S (S p)))) rest2
      end
    ∧ fs w' = fs w.
Proof.
  intros (Hm & Hco & Hcs & Hfc) Hr Hp Hid.
  eexists. split; [reflexivity|].
  cbn [drive]. unfold Runner.inner_done.
  rewrite (drive1_job oracle (RResume (KExecJoin id (S p))) o [] (push_job _ o w))
    by (cbn; by rewrite Hm).
  cbn [run_job resume].
  rewrite (join_view id a rest p o) by (try done; apply Hp; lia).
  cbn [fs e2b actions tail artifact promises nextChain nextOp nextCall registry
       microtasks trace syncResults with_microtasks push_job].
  set (o' := match o with Resolved _ => Resolved VUndef | Rejected e => Rejected e end).
  erewrite drive1_job by reflexivity.
  set (v' := match o' with Resolved v => v | Rejected _ => VUndef end).
  match goal with |- context [run_job _ _ ?x] => set (wj := x) end.
  set (wc := match o' with
             | Resolved _ => wj
             | Rejected _ => note (OError "Action failed:") wj
             end).
  assert (Hrun : run_job (RCatchLog (S (S p))) o' wj
                 = settle (PChain (S (S p))) (Resolved v') wc).
  { unfold wc, v'. by destruct o'. }
  rewrite Hrun. clear Hrun.
  assert (Hcp : promises wc = <[PChain (S p) := o']> (promises w)).
  { unfold wc. by destruct o'. }
  assert (Hca : actions wc = alist_set id (ended a o) (actions w)).
  { unfold wc. by destruct o'. }
  assert (Hcr : registry wc = wait_full (S (S p)) rest).
  { unfold wc. by destruct o'. }
  assert (Hcm : microtasks wc = []).
  { unfold wc. by destruct o'. }
  assert (Hce : e2b wc = e2b w).
  { unfold wc. by destruct o'. }
  assert (Hcn : nextCall wc = nextCall w).
  { unfold wc. by destruct o'. }
  assert (Hcf : fs wc = fs w).
  { unfold wc. by destruct o'. }
  assert (Hcc : calls (trace wc) = calls (trace w)).
  { unfold wc. destruct o'; cbn; by rewrite ?calls_snoc, ?app_nil_r. }
  assert (Hcb : begun (trace wc) = begun (trace w)).
  { unfold wc. destruct o'; cbn; by rewrite ?begun_snoc, ?app_nil_r. }
  clearbody wc. clear wj.
  rewrite settle_view
    by (rewrite Hcp, lookup_insert_ne by (intros [=]; lia); apply Hp; lia).
  cbn [fs e2b actions tail artifact promises nextChain nextOp nextCall registry
       microtasks trace syncResults].
  rewrite Hcp, Hca, Hcr, Hcm, Hce, Hcb.
  split; [done|]. split; [by rewrite alist_lookup_set, decide_True|].
  split; [intros id' Hne; by rewrite alist_lookup_set, decide_False|].
  split; [done|]. split; [|split; [|split; [|split; [|exact Hcf]]]].
  - unfold calls_settled. cbn [promises trace]. rewrite Hcc.
    eapply Forall_impl; [exact Hcs|]. intros x [ox Hx]. cbn.
    rewrite !lookup_insert_ne by done. eauto.
  - intros c Hc. cbn in *. rewrite !lookup_insert_ne by done.
    apply Hfc. lia.
  - intros n Hn. rewrite !lookup_insert_ne by (intros [=]; lia). apply Hp. lia.
  - destruct rest as [|ia rest2]; [done|]. exists v'.
    cbn [wait_full List.filter List.map app].
    rewrite !waits_on_chain.
    rewrite !(bool_decide_eq_true_2 (S (S p) = S (S p))) by done.
    rewrite bool_decide_eq_false_2 by lia. cbn [negb List.map app fst snd].
    destruct (wait_full_above rest2 (S (S (S (S p)))) (S (S p))) as [-> ->]; [lia|].
    done.
Qed.

Lemma turn_step oracle s p v id a rest (w : World) :
  (E2B.isReady s = true → installed s) →
  turn_ready s p v id a rest w →
  id ∉ rest.*1 →
  ∃ n w',
    drive oracle n w = w'
    ∧ alist_lookup id (actions w') = Some (final_state oracle s a)
    ∧ (∀ id', id' ≠ id → alist_lookup id' (actions w') = alist_lookup id' (actions w))
    ∧ begun (trace w') = begun (trace w) ++ [id]
    ∧ match rest with
      | [] => idle w'
      | ia :: rest2 => ∃ v', turn_ready s (S (S p)) v' ia.1 ia.2 rest2 w'
      end
    ∧ fs w' = if succeeds oracle s a then local_write a (fs w) else fs w.
Proof.
  intros Hin Htr Hfresh.
  destruct (turn_begin oracle _ _ _ _ _ _ _ Htr)
    as (w2 & Hd2 & Hc2 & He2 & Hr2 & Hp2 & Hid2 & Hoth2 & Hb2 & Hf2).
  destruct (inner_drives oracle id (S p) a w2 Hc2)
    as (n & w3 & o & Hd3 & Hst & Ho & Hf3).
  { by rewrite He2. }
  destruct Hst as [He3 Hr3 Ha3 Hp3 Hb3 Hc3].
  destruct Htr as [He Hj Hr Hp Hcs Hfc Ha].
  destruct (turn_end oracle p id a rest o w3) as
    (w4 & Hd4 & He4 & Hid4 & Hoth4 & Hb4 & Hcs4 & Hfc4 & Hp4 & Hshape & Hf4).
  { exact Hc3. }
  { by rewrite Hr3, Hr2. }
  { intros m Hm. rewrite Hp3, Hp2. by apply Hp. }
  { by rewrite Ha3. }
  exists (2 + n + 2), w4. split; [|split; [|split; [|split; [|split]]]];
    [| | | | |by rewrite Hf4, Hf3, Ho, He2, Hf2].
  - by rewrite !drive_add, Hd2, Hd3.
  - rewrite Hid4. unfold ended, final_state. by rewrite Ho, He2.
  - intros id' Hne. by rewrite Hoth4, Ha3, Hoth2.
  - by rewrite Hb4, Hb3, Hb2.
  - destruct rest as [|ia rest2].
    + destruct Hshape as [Hm4 Hr4]. by repeat split.
    + destruct ia as [id2 a2].
      destruct Hshape as (v' & Hm4 & Hr4). exists v'. constructor; try done.
      * congruence.
      * intros ia' Hia'.
        assert (ia'.1 ≠ id).
        { intros E. apply Hfresh. rewrite <- E. by apply list_elem_of_fmap_2. }
        rewrite Hoth4, Ha3, Hoth2 by done. apply Ha. by right.
Qed.

Lemma turn_runs oracle s :
  (E2B.isReady s = true → installed s) →
  ∀ rest p v id a (w : World),
    turn_ready s p v id a rest w →
    NoDup ((id, a) :: rest).*1 →
    ∃ n,
      idle (drive oracle n w)
      ∧ begun (trace (drive oracle n w)) = begun (trace w) ++ ((id, a) :: rest).*1
      ∧ (∀ ia, ia ∈ (id, a) :: rest →
           alist_lookup ia.1 (actions (drive oracle n w))
           = Some (final_state oracle s ia.2))
      ∧ (∀ id', id' ∉ ((id, a) :: rest).*1 →
           alist_lookup id' (actions (drive oracle n w))
           = alist_lookup id' (actions w))
      ∧ fs (drive oracle n w) = local_writes oracle s ((id, a) :: rest) (fs w).
Proof.
  intros Hin rest. induction rest as [|ia rest2 IH]; intros p v id a w Htr Hnd.
  - destruct (turn_step oracle s p v id a [] w Hin Htr) as
      (n & w' & Hd & Hid & Hoth & Hb & Hidle & Hfs); [apply not_elem_of_nil|].
    exists n. rewrite Hd. split; [done|]. split; [done|]. split; [|split].
    + intros ia Hia. apply list_elem_of_singleton in Hia. by subst.
    + intros id' Hid'. apply Hoth. intros ->. apply Hid'. by left.
    + exact Hfs.
  - apply NoDup_cons in Hnd as [Hfresh Hnd].
    destruct (turn_step oracle s p v id a (ia :: rest2) w Hin Htr Hfresh) as
      (n & w' & Hd & Hid & Hoth & Hb & (v' & Htr') & Hfs).
    destruct (IH _ _ _ _ _ Htr') as (n2 & Hidle & Hb2 & Hfin & Hoth2 & Hfs2).
    { by destruct ia. }
    exists (n + n2). rewrite drive_add, Hd. split; [done|]. split; [|split; [|split]].
    + rewrite Hb2, Hb, <- app_assoc. by destruct ia.
    + intros ia' Hia'. apply elem_of_cons in Hia' as [->|Hia'].
      * cbn [fst snd]. rewrite Hoth2; [done|]. by destruct ia.
      * apply Hfin. by destruct ia.
    + intros id' Hid'. rewrite Hoth2.
      * apply Hoth. intros ->. apply Hid'. by left.
      * destruct ia. intros E. apply Hid'. by right.
    + rewrite Hfs2, Hfs. by destruct ia.
Qed.

(** ** The submissions of a turn *)

Lemma run_app (es1 es2 : list event) (w : World) :
  run (es1 ++ es2) w = run es2 (run es1 w).
Proof. apply fold_left_app. Qed.

Lemma alist_set_set {A : Type} (k : string) (v v' : A) (l : list (string * A)) :
  alist_set k v (alist_set k v' l) = alist_set k v l.
Proof.
  induction l as [|[k0 v0] l IH]; cbn.
  - by rewrite decide_True.
  - destruct (decide (k0 = k)) as [->|Hne]; cbn.
    + by rewrite decide_True.
    + rewrite decide_False by done. by rewrite IH.
Qed.

(** One more action joins a chain whose last link is pending. *)
Lemma submit_pending mid id a p (w : World) :
  artifact w = mid → tail w = p → nextChain w = S p →
  promises w !! PChain p = None →
  promises w !! PChain (S p) = None →
  alist_lookup id (actions w) = None →
  run [EvAddAction (mkData mid id a); EvRunAction (mkData mid id a)] w
  = mkWorld (fs w) (e2b w)
      (alist_set id (mkAction a pending None true false) (actions w))
      (S (S p)) (artifact w) (promises w) (S (S (S p))) (nextOp w) (nextCall w)
      (registry w ++ wait_full p [(id, a)]) (microtasks w)
      (trace w ++ [OSubmit id (S p) (S (S p))]) (syncResults w).
Proof.
  intros <- Ht Hn Hp Hp' Hid.
  assert (H1 : step (EvAddAction (mkData (artifact w) id a)) w
               = mkWorld (fs w) (e2b w)
                   (alist_set id (mkAction a pending None false false) (actions w))
                   (tail w) (artifact w) (promises w) (nextChain w) (nextOp w)
                   (nextCall w) (registry w ++ [(PChain p, RSetRunning id)])
                   (microtasks w) (trace w) (syncResults w)).
  { cbn [step messageId]. rewrite decide_True by done.
    unfold Runner.addAction. cbn [actionId data_action]. rewrite Hid.
    unfold on_settled. cbn [promises with_actions tail]. by rewrite Ht, Hp. }
  cbn [run fold_left]. rewrite H1. clear H1.
  cbn [step messageId artifact]. rewrite decide_True by done.
  unfold Runner.runAction.
  cbn [actionId data_action actions fs e2b tail artifact promises nextChain nextOp
       nextCall registry microtasks trace syncResults with_actions].
  rewrite alist_lookup_set, decide_True by done. cbn [executed status error signal_aborted].
  rewrite alist_set_set. rewrite Hn.
  unfold on_settled.
  cbn [actionId data_action actions fs e2b tail artifact promises nextChain nextOp
       nextCall registry microtasks trace syncResults with_actions].
  rewrite Ht, Hp.
  cbn [actionId data_action actions fs e2b tail artifact promises nextChain nextOp
       nextCall registry microtasks trace syncResults with_actions].
  rewrite Hp'.
  cbn [actionId data_action actions fs e2b tail artifact promises nextChain nextOp
       nextCall registry microtasks trace syncResults with_actions wait_full fst snd].
  by rewrite <- !app_assoc.
Qed.

Lemma submit_rest mid :
  ∀ (l : list (string * BoltAction)) (w : World) p,
    artifact w = mid → tail w = p → nextChain w = S p →
    (∀ n, p ≤ n → promises w !! PChain n = None) →
    (∀ id, id ∈ l.*1 → alist_lookup id (actions w) = None) →
    NoDup l.*1 →
    let w' := run (submit_all mid l) w in
    registry w' = registry w ++ wait_full p l
    ∧ microtasks w' = microtasks w
    ∧ promises w' = promises w
    ∧ e2b w' = e2b w
    ∧ nextCall w' = nextCall w
    ∧ calls (trace w') = calls (trace w)
    ∧ begun (trace w') = begun (trace w)
    ∧ (∀ ia, ia ∈ l →
         alist_lookup ia.1 (actions w') = Some (mkAction ia.2 pending None true false))
    ∧ (∀ id, id ∉ l.*1 → alist_lookup id (actions w') = alist_lookup id (actions w)).
Proof.
  induction l as [|[id a] l IH]; intros w p Hmid Ht Hn Hp Hnew Hnd.
  - cbn. rewrite app_nil_r. repeat split; try done. intros ia Hia. inversion Hia.
  - apply NoDup_cons in Hnd as [Hfresh Hnd].
    change (submit_all mid ((id, a) :: l))
      with ([EvAddAction (mkData mid id a); EvRunAction (mkData mid id a)]
              ++ submit_all mid l).
    cbv zeta. rewrite run_app.
    rewrite (submit_pending mid id a p w); try done;
      [|by apply Hp|apply Hp; lia|apply Hnew; by left].
    match goal with |- context [run (submit_all mid l) ?x] => set (w1 := x) end.
    destruct (IH w1 (S (S p))) as (Hr & Hm & Hpr & He & Hnc & Hc & Hb & Hin & Hout);
      try done.
    { intros n Hle. apply Hp. lia. }
    { intros id' Hid'. unfold w1. cbn [actions].
      rewrite alist_lookup_set, decide_False by (intros ->; done).
      apply Hnew. by right. }
    rewrite Hr, Hm, Hpr, He, Hnc, Hc, Hb. unfold w1.
    cbn [registry microtasks promises e2b nextCall trace actions].
    rewrite calls_snoc, begun_snoc, !app_nil_r, <- app_assoc.
    repeat split; try done.
    + intros ia Hia. apply elem_of_cons in Hia as [->|Hia]; [|by apply Hin].
      cbn [fst snd]. rewrite Hout by done. unfold w1. cbn [actions].
      by rewrite alist_lookup_set, decide_True.
    + intros id' Hid'. rewrite Hout by (intros E; apply Hid'; by right).
      unfold w1. cbn [actions]. rewrite alist_lookup_set, decide_False; [done|].
      intros ->. apply Hid'. by left.
Qed.

(** The first action of a turn finds the chain settled: its jobs are queued
    at once. *)
Lemma submit_first mid s id a :
  run [EvAddAction (mkData mid id a); EvRunAction (mkData mid id a)] (start mid s)
  = mkWorld FilesStore.empty s [(id, mkAction a pending None true false)] 2 mid
      {[PChain 0 := Resolved VUndef]} 3 0 0 [(PChain 1, RCatchLog 2)]
      [(RSetRunning id, Resolved VUndef); (RThenExec id 1, Resolved VUndef)]
      [OSubmit id 1 2] [].
Proof.
  assert (H1 : step (EvAddAction (mkData mid id a)) (start mid s)
               = mkWorld FilesStore.empty s [(id, mkAction a pending None false false)]
                   0 mid {[PChain 0 := Resolved VUndef]} 1 0 0 []
                   [(RSetRunning id, Resolved VUndef)] [] []).
  { unfold start, init, with_e2b.
    cbn [step messageId artifact fs e2b actions tail promises nextChain nextOp
         nextCall registry microtasks trace syncResults].
    rewrite decide_True by done.
    unfold Runner.addAction, on_settled.
    cbn [actionId data_action actions alist_lookup with_actions alist_set tail
         promises].
    by rewrite lookup_singleton_eq. }
  cbn [run fold_left]. rewrite H1. clear H1.
  cbn [step messageId artifact]. rewrite decide_True by done.
  unfold Runner.runAction, with_actions.
  cbn [actionId data_action actions alist_lookup]. rewrite decide_True by done.
  cbn [executed status error signal_aborted actions alist_set fs e2b tail artifact
       promises nextChain nextOp nextCall registry microtasks trace syncResults].
  rewrite decide_True by done. unfold on_settled at 2.
  cbn [actions fs e2b tail artifact promises nextChain nextOp nextCall registry
       microtasks trace syncResults].
  rewrite lookup_singleton_eq. unfold push_job, on_settled.
  cbn [actions fs e2b tail artifact promises nextChain nextOp nextCall registry
       microtasks trace syncResults].
  rewrite lookup_singleton_ne by done.
  done.
Qed.



(** The turn of the three actions, run: the second has failed, the first
    and the third are complete. *)
Example C2_second_of_three_throws :
  (λ ia : string * ActionState, (ia.1, status ia.2, error ia.2)) <$> actions C2_turn
  = [("0", complete, None); ("1", failed, Some "Action failed");
     ("2", complete, None)]
  ∧ begun (trace C2_turn) = ["0"; "1"; "2"]
  ∧ microtasks C2_turn = [] ∧ registry C2_turn = [].
Proof. by vm_compute. Qed.

(** ** The file store: folders, counter, conversations *)

Section store.
Import FilesStore.

Lemma loop_fields (parts : list string) :
  ∀ cur s,
    filesCount (ensureFolder_loop parts cur s) = filesCount s
    ∧ chatId (ensureFolder_loop parts cur s) = chatId s
    ∧ modifiedFiles (ensureFolder_loop parts cur s) = modifiedFiles s
    ∧ storage (ensureFolder_loop parts cur s) = storage s.
Proof.
  induction parts as [|part rest IH]; intros cur s; [done|].
  cbn [ensureFolder_loop]. 
  match goal with |- context [ensureFolder_loop rest ?c ?x] =>
    destruct (IH c x) as (-> & -> & -> & ->) end.
  by destruct (files s !! _).
Qed.

(** Every key keeps its entry, and a key that gains one gains a folder. *)
Lemma loop_files (parts : list string) :
  ∀ cur s k,
    files (ensureFolder_loop parts cur s) !! k = files s !! k
    ∨ (files s !! k = None
       ∧ files (ensureFolder_loop parts cur s) !! k = Some Folder).
Proof.
  induction parts as [|part rest IH]; intros cur s k; [by left|].
  cbn [ensureFolder_loop].
  set (c := if Js.truthy cur then _ else _).
  destruct (files s !! c) as [d|] eqn:Hc; [apply IH|].
  destruct (IH c (setKey c Folder s) k) as [H|[H1 H2]].
  - rewrite H. cbn. destruct (decide (c = k)) as [<-|Hne].
    + right. by rewrite lookup_insert_eq.
    + left. by rewrite lookup_insert_ne.
  - cbn in H1. destruct (decide (c = k)) as [<-|Hne].
    + by rewrite lookup_insert_eq in H1.
    + rewrite lookup_insert_ne in H1 by done. by right.
Qed.

Lemma loop_absorb (parts : list string) :
  ∀ cur s s',
    (∀ k, is_Some (files (ensureFolder_loop parts cur s) !! k) →
          is_Some (files s' !! k)) →
    ensureFolder_loop parts cur s' = s'.
Proof.
  induction parts as [|part rest IH]; intros cur s s' H; [done|].
  cbn [ensureFolder_loop] in *.
  set (c := if Js.truthy cur then _ else _) in *.
  set (s1 := match files s !! c with Some _ => s | None => setKey c Folder s end) in *.
  assert (Hc : is_Some (files s' !! c)).
  { apply H. destruct (loop_files rest c s1 c) as [E|[_ E]]; rewrite E; [|done].
    unfold s1. destruct (files s !! c) eqn:Hs; [by rewrite Hs|].
    cbn. by rewrite lookup_insert_eq. }
  destruct Hc as [d Hd]. rewrite Hd. by apply (IH c s1).
Qed.

Lemma with_parents_fields np s :
  filesCount (with_parents np s) = filesCount s
  ∧ chatId (with_parents np s) = chatId s
  ∧ modifiedFiles (with_parents np s) = modifiedFiles s
  ∧ storage (with_parents np s) = storage s.
Proof.
  unfold with_parents, ensureFolderExists.
  destruct (_ && _); [apply loop_fields|done].
Qed.

Lemma with_parents_files np s k :
  files (with_parents np s) !! k = files s !! k
  ∨ (files s !! k = None ∧ files (with_parents np s) !! k = Some Folder).
Proof.
  unfold with_parents, ensureFolderExists.
  destruct (_ && _); [apply loop_files|by left].
Qed.

Lemma with_parents_absorb np s s' :
  (∀ k, is_Some (files (with_parents np s) !! k) → is_Some (files s' !! k)) →
  with_parents np s' = s'.
Proof.
  unfold with_parents, ensureFolderExists.
  destruct (_ && _); [apply loop_absorb|done].
Qed.

Lemma addFile_view filePath content s :
  let np := normalize filePath in
  let s1 := with_parents np s in
  addFile filePath content s
  = mk (match files s1 !! np with
        | Some (File _ _) => filesCount s
        | _ => S (filesCount s)
        end)
      (chatId s) (modifiedFiles s) (<[np := File content false]> (files s1))
      (match chatId s with
       | Some id => <[id := <[np := File content false]> (files s1)]> (storage s)
       | None => storage s
       end).
Proof.
  intros np s1. unfold addFile. fold np. fold s1.
  destruct (with_parents_fields np s) as (Hc & Hi & Hm & Hst). fold s1 in Hc, Hi, Hm, Hst.
  unfold persistToStorage, setKey, set_files, bump.
  destruct (files s1 !! np) as [[]|]; cbn; rewrite ?Hi; destruct (chatId s); cbn;
    by rewrite ?Hc, ?Hi, ?Hm, ?Hst.
Qed.

End store.

Section store2.
Import FilesStore.

(** X1: after [addFile], [getFile] at the normalized path returns the
    content just added; every other key either keeps what it had or, if it
    had nothing, has gained a folder entry. *)
Theorem addFile_entries filePath content (s : t) :
  let s' := addFile filePath content s in
  getFile (normalize filePath) s' = Some (File content false)
  ∧ ∀ k, k = normalize filePath
         ∨ files s' !! k = files s !! k
         ∨ (files s !! k = None ∧ files s' !! k = Some Folder).
Proof.
  intros s'. split; [apply addFile_getFile|]. intros k.
  destruct (decide (k = normalize filePath)) as [->|Hne]; [by left|right].
  unfold s'. rewrite addFile_view. cbn. rewrite lookup_insert_ne by done.
  apply with_parents_files.
Qed.

(** X2: adding the same content at the same path a second time changes
    nothing: no entry, not the counter, not the stored copy. *)
Theorem addFile_idempotent filePath content (s : t) :
  addFile filePath content (addFile filePath content s)
  = addFile filePath content s.
Proof.
  set (s1 := addFile filePath content s).
  assert (Hp : with_parents (normalize filePath) s1 = s1).
  { apply (with_parents_absorb _ s). intros k Hk. unfold s1.
    rewrite addFile_view. cbn.
    destruct (decide (normalize filePath = k)) as [<-|Hne].
    - by rewrite lookup_insert_eq.
    - by rewrite lookup_insert_ne. }
  rewrite (addFile_view filePath content s1). cbn zeta. rewrite Hp.
  unfold s1. rewrite addFile_view. cbn.
  rewrite lookup_insert_eq, insert_insert_eq.
  destruct (chatId s); [|done]. by rewrite insert_insert_eq.
Qed.

Lemma file_count_folder k (m : gmap string Dirent) :
  m !! k = None → file_count (<[k := Folder]> m) = file_count m.
Proof.
  intros H. unfold file_count. rewrite map_filter_insert_False by (cbn; done).
  by rewrite delete_id.
Qed.

Lemma file_count_file k c b (m : gmap string Dirent) :
  file_count (<[k := File c b]> m)
  = match m !! k with
    | Some (File _ _) => file_count m
    | _ => S (file_count m)
    end.
Proof.
  unfold file_count. rewrite map_filter_insert_True by done.
  rewrite map_size_insert.
  destruct (m !! k) as [[c' b'|]|] eqn:Hk.
  - by erewrite map_lookup_filter_Some_2.
  - rewrite map_lookup_filter_None_2; [done|]. right. intros x Hx. naive_solver.
  - rewrite map_lookup_filter_None_2; [done|]. by left.
Qed.

Lemma loop_file_count (parts : list string) :
  ∀ cur s, file_count (files (ensureFolder_loop parts cur s)) = file_count (files s).
Proof.
  induction parts as [|part rest IH]; intros cur s; [done|].
  cbn [ensureFolder_loop]. rewrite IH.
  destruct (files s !! _) eqn:H; [done|]. cbn. by apply file_count_folder.
Qed.

Lemma with_parents_file_count np s :
  file_count (files (with_parents np s)) = file_count (files s).
Proof.
  unfold with_parents, ensureFolderExists.
  destruct (_ && _); [apply loop_file_count|done].
Qed.

Lemma addFile_counted filePath content s :
  counted s → counted (addFile filePath content s).
Proof.
  unfold counted. intros H. rewrite addFile_view. cbn.
  rewrite file_count_file, with_parents_file_count.
  by destruct (files _ !! _) as [[]|]; rewrite H.
Qed.

Lemma clearFiles_counted s : counted (clearFiles s).
Proof. unfold counted, file_count. cbn. by rewrite map_filter_empty, map_size_empty. Qed.

Lemma setChatId_counted id s : counted s → counted (setChatId id s).
Proof.
  intros H. unfold setChatId. destruct (decide _); [done|].
  match goal with |- context [clearFiles ?x] => set (s0 := x) end.
  pose proof (clearFiles_counted s0) as H0.
  destruct id as [i|]; [|done]. destruct (Js.truthy i); [|done].
  unfold loadFromStorage. change (storage (clearFiles s0)) with (storage s).
  destruct (storage s !! i) as [stored|]; [|done].
  unfold counted, file_count. cbn. by rewrite (right_id_L ∅ (∪)).
Qed.

(** X3: from a new store, over any browser storage, and through any
    sequence of [addFile], [setChatId], [resetFiles] and
    [resetFileModifications], [filesCount] is the number of file entries of
    the map, folders left out. *)
Theorem filesCount_counts_files (st : gmap string (gmap string Dirent))
    (ops : list store_op) :
  counted (fold_left store_apply ops (FilesStore.mk 0 None ∅ ∅ st)).
Proof.
  assert (H0 : counted (FilesStore.mk 0 None ∅ ∅ st)).
  { unfold counted, file_count. cbn. by rewrite map_filter_empty, map_size_empty. }
  revert H0. generalize (FilesStore.mk 0 None ∅ ∅ st).
  induction ops as [|o ops IH]; intros s Hs; [done|].
  cbn [fold_left]. apply IH. destruct o; cbn [store_apply].
  - by apply addFile_counted.
  - by apply setChatId_counted.
  - apply (clearFiles_counted s).
  - exact Hs.
Qed.

End store2.

Section store3.
Import FilesStore.

Lemma persist_fields (x : t) :
  files (persistToStorage x) = files x
  ∧ filesCount (persistToStorage x) = filesCount x
  ∧ modifiedFiles (persistToStorage x) = modifiedFiles x
  ∧ chatId (persistToStorage x) = chatId x.
Proof. unfold persistToStorage. destruct (chatId x) eqn:E; cbn; rewrite ?E; done. Qed.

(** X4: [saveFile] never changes [filesCount]; at a path that holds no
    file it adds a file entry all the same, so the counter falls behind the
    map by one. *)
Theorem saveFile_count filePath content (s : t) :
  let s' := saveFile filePath content s in
  filesCount s' = filesCount s
  ∧ file_count (files s')
    = match getFile filePath s with
      | Some _ => file_count (files s)
      | None => S (file_count (files s))
      end.
Proof.
  intros s'. unfold s', saveFile.
  match goal with |- context [persistToStorage ?x] =>
    destruct (persist_fields x) as (-> & -> & _) end.
  split; [done|]. cbn [files]. rewrite file_count_file. unfold getFile.
  by destruct (files s !! filePath) as [[]|].
Qed.

Lemma prefix_app (p x : string) : String.prefix p (p +:+ x) = true.
Proof.
  induction p as [|a p IH]; [by destruct x|].
  change (String a p +:+ x) with (String a (p +:+ x)). cbn [String.prefix].
  destruct (Ascii.ascii_dec a a); [exact IH|done].
Qed.
End store3.

Section paths.
Import FilesStore.

(** X6: the key under which [addFile] stores a path starts with the work
    directory, normalizing twice is normalizing once, and [addFile] of the
    normalized path is [addFile] of the path. *)
Theorem normalize_under_work_dir (filePath : string) :
  Js.startsWith (normalize filePath) WORK_DIR = true
  ∧ normalize (normalize filePath) = normalize filePath
  ∧ ∀ content s, addFile (normalize filePath) content s = addFile filePath content s.
Proof.
  assert (H : Js.startsWith (normalize filePath) WORK_DIR = true).
  { unfold normalize. destruct (Js.startsWith filePath WORK_DIR) eqn:E; [done|].
    apply prefix_app. }
  assert (H2 : normalize (normalize filePath) = normalize filePath).
  { unfold normalize at 1. by rewrite H. }
  split; [done|]. split; [done|]. intros content s.
  unfold addFile. by rewrite H2.
Qed.

(** X7: the path a file action writes in the sandbox starts with
    [/home/user/], whatever the path of the action, and a path already in
    that form is kept. *)
Theorem sandbox_path_under_home (filePath : string) :
  Js.startsWith (Runner.sandbox_path filePath) "/home/user/" = true
  ∧ Runner.sandbox_path (Runner.sandbox_path filePath) = Runner.sandbox_path filePath.
Proof.
  assert (H : Js.startsWith (Runner.sandbox_path filePath) "/home/user/" = true).
  { unfold Runner.sandbox_path.
    destruct (Js.startsWith filePath "/home/user/") eqn:E; [done|].
    apply prefix_app. }
  split; [done|]. unfold Runner.sandbox_path at 1. by rewrite H.
Qed.

(** X5: with a conversation whose id is not empty, the map that [addFile]
    or [saveFile] leaves is stored under that id: switching to any other
    conversation (or to none) and back restores exactly that map, with the
    counter equal to its number of files; the modification baseline does
    not come back. *)
Theorem conversation_round_trip (s : t) (id : string) (other : option string)
    (filePath content : string) :
  chatId s = Some id → Js.truthy id = true → other ≠ Some id →
  let s1 := addFile filePath content s in
  let s2 := saveFile filePath content s in
  let back x := setChatId (Some id) (setChatId other x) in
  (files (back s1) = files s1
   ∧ filesCount (back s1) = file_count (files s1)
   ∧ modifiedFiles (back s1) = ∅)
  ∧ (files (back s2) = files s2
     ∧ filesCount (back s2) = file_count (files s2)
     ∧ modifiedFiles (back s2) = ∅).
Proof.
  intros Hid Ht Hne s1 s2 back.
  assert (Hback : ∀ x, chatId x = Some id → storage x !! id = Some (files x) →
            files (back x) = files x
            ∧ filesCount (back x) = file_count (files x)
            ∧ modifiedFiles (back x) = ∅).
  { intros x Hx Hst. unfold back.
    set (y := setChatId other x).
    assert (Hy : chatId y = other ∧ storage y = storage x).
    { unfold y, setChatId. rewrite Hx. rewrite decide_False by done.
      destruct other as [o|]; [|done]. destruct (Js.truthy o); [|done].
      unfold loadFromStorage. cbn. by destruct (storage x !! o). }
    destruct Hy as [Hy1 Hy2].
    unfold setChatId. rewrite Hy1. rewrite decide_False by done. rewrite Ht.
    unfold loadFromStorage. cbn. rewrite Hy2, Hst. cbn.
    by rewrite (right_id_L ∅ (∪)). }
  split; apply Hback.
  - unfold s1. rewrite addFile_view. cbn. by rewrite Hid.
  - unfold s1. rewrite addFile_view. cbn. rewrite Hid. cbn. by rewrite lookup_insert_eq.
  - unfold s2, saveFile. by destruct (persist_fields
      (mk (filesCount s) (chatId s)
         match modifiedFiles s !! filePath with
         | Some _ => modifiedFiles s
         | None => match getFile filePath s ≫= content_of with
                   | Some old => <[filePath:=old]> (modifiedFiles s)
                   | None => modifiedFiles s end end
         (<[filePath:=File content false]> (files s)) (storage s))) as (_ & _ & _ & ->).
  - unfold s2, saveFile, persistToStorage. cbn. rewrite Hid. cbn.
    by rewrite lookup_insert_eq.
Qed.
End paths.

Lemma conversation_round_trip_witness :
  FilesStore.chatId X_store = Some "c1"
  ∧ FilesStore.files
      (FilesStore.setChatId (Some "c1")
         (FilesStore.setChatId (Some "c2") (FilesStore.addFile "b.ts" "y" X_store)))
    = FilesStore.files (FilesStore.addFile "b.ts" "y" X_store).
Proof.
  split; [reflexivity|].
  destruct (conversation_round_trip X_store "c1" (Some "c2") "b.ts" "y")
    as [[H _] _]; [reflexivity|reflexivity|done|exact H].
Defined.
(** ** The queue of the sandbox link, in every reachable world *)

Lemma op_frame_ok hole (w w' : World) :
  queue_inv hole w → op_frame w w' → queue_inv hole w'.
Proof.
  intros [] [Hq Hn Ho Hd]. unfold queued in *.
  split; unfold queued; rewrite ?Hq, ?Hn; try done.
  - intros q Hin. rewrite Ho. auto.
  - intros q Hin. rewrite Ho. auto.
  - intros op Hin. rewrite Hd in Hin. auto.
  - intros q Hlt. rewrite Ho, Hd. auto.
Qed.

Lemma op_frame_refl w : op_frame w w.
Proof. by split. Qed.

Lemma ok_note hole o w : queue_inv hole w → queue_inv hole (note o w).
Proof. intros H. eapply op_frame_ok; [exact H|]. by split. Qed.

Lemma ok_with_fs hole f w : queue_inv hole w → queue_inv hole (with_fs f w).
Proof. intros H. eapply op_frame_ok; [exact H|]. by split. Qed.

Lemma ok_with_actions hole f w : queue_inv hole w → queue_inv hole (with_actions f w).
Proof. intros H. eapply op_frame_ok; [exact H|]. by split. Qed.

Lemma ok_with_e2b hole f w :
  (∀ s, E2B.pendingOperations (f s) = E2B.pendingOperations s) →
  queue_inv hole w → queue_inv hole (with_e2b f w).
Proof. intros Hf H. eapply op_frame_ok; [exact H|]. split; try done. apply Hf. Qed.

Lemma drains_push r o w : drains (push_job r o w) = drains w ++ omap drain_op [r].
Proof. unfold drains, pool. cbn. by rewrite fmap_app, app_assoc, omap_app. Qed.

Lemma drains_register p r w (w' : World) :
  registry w' = registry w ++ [(p, r)] → microtasks w' = microtasks w →
  drains w' ≡ₚ drains w ++ omap drain_op [r].
Proof.
  intros H1 H2. unfold drains, pool. rewrite H1, H2. rewrite fmap_app, !omap_app. cbn.
  rewrite <- !app_assoc. f_equiv. apply Permutation_app_comm.
Qed.

Lemma ok_push_job hole r o w : drain_op r = None → queue_inv hole w → queue_inv hole (push_job r o w).
Proof.
  intros Hr H. eapply op_frame_ok; [exact H|]. split; try done.
  rewrite drains_push. cbn. rewrite Hr. by rewrite app_nil_r.
Qed.

Lemma ok_on_settled hole p r w : drain_op r = None → queue_inv hole w → queue_inv hole (on_settled p r w).
Proof.
  intros Hr H. unfold on_settled. destruct (promises w !! p); [by apply ok_push_job|].
  eapply op_frame_ok; [exact H|]. split; try done.
  erewrite drains_register; [|reflexivity|reflexivity]. cbn. rewrite Hr.
  by rewrite app_nil_r.
Qed.

Lemma ok_await hole a f w :
  drain_op (RResume f) = None → queue_inv hole w → queue_inv hole (await a f w).
Proof. intros Hr H. destruct a; [by apply ok_on_settled|by apply ok_push_job]. Qed.

Lemma drains_settle p o w : drains (settle p o w) ≡ₚ drains w.
Proof. unfold drains. by rewrite settle_pool. Qed.

Lemma ok_settle hole (p : pid) o w : non_chain p → (∀ q, p ≠ POp q) → queue_inv hole w → queue_inv hole (settle p o w).
Proof.
  intros _ Hp H. eapply op_frame_ok; [exact H|]. split.
  - by rewrite settle_e2b.
  - unfold settle. by destruct (promises w !! p).
  - intros q. apply settle_other. apply Hp.
  - apply drains_settle.
Qed.

Lemma ok_settle_chain hole n o w : queue_inv hole w → queue_inv hole (settle (PChain n) o w).
Proof.
  intros H. eapply op_frame_ok; [exact H|]. split.
  - by rewrite settle_e2b.
  - unfold settle. by destruct (promises w !! _).
  - intros q. by apply settle_other.
  - apply drains_settle.
Qed.

Lemma ok_settle_call hole n o w : queue_inv hole w → queue_inv hole (settle (PCall n) o w).
Proof.
  intros H. eapply op_frame_ok; [exact H|]. split.
  - by rewrite settle_e2b.
  - unfold settle. by destruct (promises w !! _).
  - intros q. by apply settle_other.
  - apply drains_settle.
Qed.

Lemma ok_invoke hole h k w : queue_inv hole w → queue_inv hole (Link.invoke h k w).1.
Proof. intros H. eapply op_frame_ok; [exact H|]. by split. Qed.

Lemma ok_enqueue hole ty path content command w :
  op_wf (E2B.mkOp ty path content command (nextOp w)) →
  queue_inv hole w → queue_inv hole (Link.enqueue ty path content command w).1.
Proof.
  intros Hwf []. 
  assert (Hq : queued (Link.enqueue ty path content command w).1
               = queued w ++ [nextOp w]).
  { unfold queued. cbn. by rewrite fmap_app. }
  split; rewrite ?Hq.
  - apply NoDup_app. split; [done|]. split; [|apply NoDup_singleton].
    intros q Hin ->%list_elem_of_singleton. apply qo_below0 in Hin. lia.
  - intros q [Hin| ->%list_elem_of_singleton]%elem_of_app; cbn; auto.
  - intros q [Hin| ->%list_elem_of_singleton]%elem_of_app; cbn; [|lia].
    apply qo_below0 in Hin. lia.
  - intros q Hle. cbn in *. apply qo_fresh0. lia.
  - intros op Hin. change (drains (Link.enqueue ty path content command w).1)
      with (drains w) in Hin. destruct (qo_flight0 op Hin) as [H1 H2]. cbn. split; [lia|].
    intros [?|E%list_elem_of_singleton]%elem_of_app; [done|lia].
  - cbn. apply Forall_app. split; [done|]. by constructor.
  - intros q Hlt. cbn in Hlt.
    change (drains (Link.enqueue ty path content command w).1) with (drains w).
    change (promises (Link.enqueue ty path content command w).1) with (promises w).
    destruct (decide (q = nextOp w)) as [->|Hne].
    + right. left. apply elem_of_app. right. by apply list_elem_of_singleton.
    + destruct (qo_live0 q) as [?|[?|[?|?]]]; [lia|auto..].
      right. left. apply elem_of_app. by left.
  - intros q Hin. destruct (qo_hole0 q Hin) as [H1 H2]. cbn. split; [lia|].
    intros [?|E%list_elem_of_singleton]%elem_of_app; [done|lia].
Qed.

(** The operation in hand is settled. *)
Lemma inv_settle_hole q o w :
  queue_inv [q] w → queue_inv [] (settle (POp q) o w).
Proof.
  intros [].
  destruct (qo_hole0 q) as [Hlt Hnq]; [by left|].
  assert (Hqd : queued (settle (POp q) o w) = queued w).
  { unfold queued. by rewrite settle_e2b. }
  assert (Hn : nextOp (settle (POp q) o w) = nextOp w).
  { unfold settle. by destruct (promises w !! _). }
  split; rewrite ?Hqd, ?Hn; try done.
  - intros q' Hin. rewrite settle_other by (intros [= ->]; done). auto.
  - intros q' Hle. rewrite settle_other by (intros [= ->]; lia). auto.
  - intros op Hin. rewrite drains_settle in Hin. auto.
  - by rewrite settle_e2b.
  - intros q' Hlt'. rewrite drains_settle.
    destruct (qo_live0 q' Hlt') as [[x Hx]|[?|[?|Hh]]]; auto.
    + left. exists x. by apply settle_settled.
    + apply list_elem_of_singleton in Hh as ->. left.
      destruct (promises w !! POp q) as [x|] eqn:Hx.
      * exists x. by apply settle_settled.
      * exists o. by apply settle_pending.
  - intros q' Hin. inversion Hin.
Qed.

(** The operation in hand waits for its call. *)
Lemma inv_flight_hole a op w :
  queue_inv [E2B.op_promise op] w → queue_inv [] (await a (KDrain op) w).
Proof.
  intros [].
  destruct (qo_hole0 (E2B.op_promise op)) as [Hlt Hnq]; [by left|].
  assert (Hd : drains (await a (KDrain op) w) ≡ₚ drains w ++ [op]).
  { destruct a as [p|o]; cbn [await]; [|by rewrite drains_push].
    unfold on_settled. destruct (promises w !! p); [by rewrite drains_push|].
    apply (drains_register p (RResume (KDrain op)) w); reflexivity. }
  assert (He : e2b (await a (KDrain op) w) = e2b w
               ∧ nextOp (await a (KDrain op) w) = nextOp w
               ∧ promises (await a (KDrain op) w) = promises w).
  { destruct a as [p|o]; cbn [await]; [|done].
    unfold on_settled. by destruct (promises w !! p). }
  destruct He as (He & Hn & Hp).
  split; unfold queued; rewrite ?He, ?Hn, ?Hp; try done.
  - intros op' Hin. rewrite Hd in Hin.
    apply elem_of_app in Hin as [Hin| ->%list_elem_of_singleton]; auto.
  - intros q Hq. rewrite Hd, fmap_app.
    destruct (qo_live0 q Hq) as [?|[?|[?|Hh]]]; auto.
    + right. right. left. apply elem_of_app. by left.
    + apply list_elem_of_singleton in Hh as ->.
      right. right. left. apply elem_of_app. right. by left.
  - intros q Hin. inversion Hin.
Qed.

(** The head of the queue is taken in hand. *)
Lemma inv_pop_queue op rest w :
  E2B.pendingOperations (e2b w) = op :: rest →
  queue_inv [] w →
  queue_inv [E2B.op_promise op] (with_e2b (E2B.with_queue rest) w).
Proof.
  intros Hq []. unfold queued in *. rewrite Hq in *. cbn in qo_nodup0.
  apply NoDup_cons in qo_nodup0 as [Hnin Hnd].
  split; unfold queued; cbn [e2b with_e2b E2B.pendingOperations E2B.with_queue
                            promises nextOp]; try done.
  - intros q Hin. apply qo_pending0. by right.
  - intros q Hin. apply qo_below0. by right.
  - intros op' Hin. destruct (qo_flight0 op' Hin) as [H1 H2]. split; [done|].
    intros Hx. apply H2. by right.
  - by apply Forall_cons in qo_wf0 as [_ ?].
  - intros q Hlt. destruct (qo_live0 q Hlt) as [?|[Hin|[?|Hh]]]; auto.
    + cbn in Hin. apply elem_of_cons in Hin as [->|Hin]; auto.
      right. right. right. by left.
    + inversion Hh.
  - intros q ->%list_elem_of_singleton. split; [|done]. apply qo_below0. by left.
Qed.

(** A job of the drain loop is taken from the queue of jobs. *)
Lemma inv_pop_job op o rest w :
  microtasks w = (RResume (KDrain op), o) :: rest →
  queue_inv [] w →
  queue_inv [E2B.op_promise op] (with_microtasks rest w).
Proof.
  intros Hm [].
  assert (Hd : drains w ≡ₚ op :: drains (with_microtasks rest w)).
  { unfold drains, pool. rewrite Hm. cbn. rewrite omap_app. cbn.
    by rewrite <- Permutation_middle, <- omap_app. }
  destruct (qo_flight0 op) as [H1 H2]; [rewrite Hd; by left|].
  split; try done.
  - intros op' Hin. apply qo_flight0. rewrite Hd. by right.
  - intros q Hlt. destruct (qo_live0 q Hlt) as [?|[Hin|[Hin|Hh]]]; auto.
    + rewrite Hd in Hin. cbn in Hin. apply elem_of_cons in Hin as [->|Hin]; auto.
      right. right. right. by left.
    + inversion Hh.
  - by intros q ->%list_elem_of_singleton.
Qed.

Lemma frame_pop_job r o rest w :
  microtasks w = (r, o) :: rest → drain_op r = None →
  op_frame w (with_microtasks rest w).
Proof.
  intros Hm Hr. split; try done.
  unfold drains, pool. rewrite Hm. cbn. rewrite !omap_app. cbn. by rewrite Hr.
Qed.

Lemma ok_writeFile hole who path content w :
  queue_inv hole w → queue_inv hole (Link.writeFile who path content w).1.
Proof.
  intros H. rewrite writeFile_eq. cbn zeta.
  apply (ok_note hole (ORequest who (CWrite path content))) in H.
  destruct (E2B.fileWriteCallback (e2b w)); [by apply ok_invoke|].
  destruct (E2B.accepting (e2b w)); [|by apply ok_note].
  apply ok_enqueue; [|done]. split; by eexists.
Qed.

Lemma ok_makeDirectory hole who path w :
  queue_inv hole w → queue_inv hole (Link.makeDirectory who path w).1.
Proof.
  intros H. rewrite makeDirectory_eq. cbn zeta.
  apply (ok_note hole (ORequest who (CMkdir path))) in H.
  destruct (E2B.makeDirectoryCallback (e2b w)); [by apply ok_invoke|].
  destruct (E2B.accepting (e2b w)); [|by apply ok_note].
  apply ok_enqueue; [|done]. by eexists.
Qed.

Lemma ok_runCommand hole who command w :
  queue_inv hole w → queue_inv hole (Link.runCommand who command w).1.
Proof.
  intros H. rewrite runCommand_eq. cbn zeta.
  apply (ok_note hole (ORequest who (CRun command))) in H.
  destruct (E2B.runCommandCallback (e2b w)); [by apply ok_invoke|].
  destruct (E2B.accepting (e2b w)); [|by apply ok_note].
  apply ok_enqueue; [|done]. by eexists.
Qed.

Lemma ok_op_await hole f (w : World) (res : World * awaitable) :
  drain_op (RResume f) = None →
  queue_inv hole res.1 →
  queue_inv hole (let '(w1, a) := res in await a f w1).
Proof. destruct res as [w1 a]. intros Hf H. by apply ok_await. Qed.

Lemma ok_drain (ops : list E2B.PendingOperation) :
  ∀ w, E2B.pendingOperations (e2b w) = ops → queue_ok w → queue_ok (Link.drain ops w).
Proof.
  induction ops as [|op rest IH]; intros w Hq H.
  - by apply ok_with_e2b.
  - cbn [Link.drain]. apply (inv_pop_queue op rest w Hq) in H.
    set (w1 := with_e2b (E2B.with_queue rest) w) in *.
    destruct (Link.drain_call op (e2b w1)) as [[h k]|].
    + apply (ok_invoke _ h k) in H. destruct (Link.invoke h k w1) as [w2 p].
      by apply inv_flight_hole.
    + apply IH; [by rewrite settle_e2b|]. by apply inv_settle_hole.
Qed.

Lemma ok_drain_resume op o rest w :
  microtasks w = (RResume (KDrain op), o) :: rest →
  queue_ok w → queue_ok (Link.drain_resume op o (with_microtasks rest w)).
Proof.
  intros Hm H. apply (inv_pop_job op o rest w Hm) in H.
  unfold Link.drain_resume. cbn zeta. apply ok_drain; [done|].
  destruct o; apply inv_settle_hole; [done|]. by apply ok_note.
Qed.

Lemma ok_processQueue w : queue_ok w → queue_ok (Link.processQueue w).
Proof.
  intros H. unfold Link.processQueue.
  destruct (_ || _); [done|].
  destruct (E2B.fileWriteCallback (e2b w)); [|done].
  destruct (E2B.makeDirectoryCallback (e2b w)); [|done].
  apply ok_drain; [done|]. by apply ok_with_e2b.
Qed.

Lemma ok_register c w : queue_ok w → queue_ok (Link.registerSandboxCallbacks c w).
Proof.
  intros H. unfold Link.registerSandboxCallbacks.
  apply ok_processQueue. by apply ok_with_e2b.
Qed.

Lemma ok_reject_all (ops : list E2B.PendingOperation) :
  ∀ w, E2B.pendingOperations (e2b w) = ops → queue_ok w →
       queue_ok (Link.reject_all ops w).
Proof.
  induction ops as [|op rest IH]; intros w Hq H; [done|].
  cbn [Link.reject_all]. apply IH; [by rewrite settle_e2b|].
  apply inv_settle_hole. by apply inv_pop_queue.
Qed.

Lemma ok_reset w : queue_ok w → queue_ok (Link.reset w).
Proof.
  intros H. unfold Link.reset. apply ok_reject_all; [done|]. by apply ok_with_e2b.
Qed.

Lemma ok_sync_mkdir hole st todo filePath content e2bPath (parts : list string) :
  ∀ currentPath w,
    queue_inv hole w →
    queue_inv hole
      (Sync.mkdir_loop st todo filePath content e2bPath currentPath parts w).
Proof.
  induction parts as [|part rest IH]; intros cur w H; cbn [Sync.mkdir_loop].
  - apply (ok_op_await hole (KSyncWrite st todo filePath content e2bPath)
             w (Link.writeFile FromSync e2bPath content w)); [done|].
    by apply ok_writeFile.
  - destruct (Js.startsWith _ _); [|by apply IH].
    apply (ok_op_await hole
             (KSyncMkdir st todo filePath content e2bPath (cur +:+ "/" +:+ part) rest)
             w (Link.makeDirectory FromSync (cur +:+ "/" +:+ part) w)); [done|].
    by apply ok_makeDirectory.
Qed.

Lemma ok_sync_finish hole st w : queue_inv hole w → queue_inv hole (Sync.finish st w).
Proof. intros H. eapply op_frame_ok; [exact H|]. by split. Qed.

Lemma ok_sync_loop hole (todo : list (string * string)) :
  ∀ st w, queue_inv hole w → queue_inv hole (Sync.loop st todo w).
Proof.
  induction todo as [|[filePath content] rest IH]; intros st w H; cbn [Sync.loop].
  - by apply ok_sync_finish.
  - destruct (s_current st !! FilesStore.normalize filePath) as [[]|].
    + by apply IH.
    + apply (ok_with_fs hole (FilesStore.addFile filePath content)) in H.
      destruct (E2B.isReady _); [by apply ok_sync_mkdir|by apply IH].
    + apply (ok_with_fs hole (FilesStore.addFile filePath content)) in H.
      destruct (E2B.isReady _); [by apply ok_sync_mkdir|by apply IH].
Qed.

Lemma ok_syncMissingFiles hole mid w :
  queue_inv hole w → queue_inv hole (Sync.syncMissingFiles mid w).
Proof.
  intros H. unfold Sync.syncMissingFiles. destruct (decide _); [by apply ok_sync_loop|].
  eapply op_frame_ok; [exact H|]. by split.
Qed.

Lemma ok_updateStatus hole id s err w :
  queue_inv hole w → queue_inv hole (Runner.updateStatus id s err w).
Proof. apply ok_with_actions. Qed.

Lemma ok_addAction hole data w :
  queue_inv hole w → queue_inv hole (Runner.addAction data w).
Proof.
  intros H. unfold Runner.addAction.
  destruct (alist_lookup (actionId data) (actions w)); [done|].
  apply ok_on_settled; [done|]. by apply ok_with_actions.
Qed.

Lemma ok_runAction hole data w :
  queue_inv hole w → queue_inv hole (Runner.runAction data w).
Proof.
  intros H. unfold Runner.runAction.
  destruct (alist_lookup (actionId data) (actions w)) as [a|]; [|done].
  destruct (executed a); [done|]. cbn zeta.
  match goal with |- queue_inv hole (mkWorld (fs ?x) _ _ _ _ _ _ _ _ _ _ _ _) =>
    assert (Hx : queue_inv hole x) end.
  { apply ok_on_settled; [done|]. apply ok_on_settled; [done|].
    eapply op_frame_ok; [exact H|]. by split. }
  eapply op_frame_ok; [exact Hx|]. by split.
Qed.

Lemma ok_abort hole id w : queue_inv hole w → queue_inv hole (Runner.abort id w).
Proof.
  intros H. unfold Runner.abort. destruct (alist_lookup id (actions w)); [|done].
  apply ok_updateStatus. by apply ok_with_actions.
Qed.

Lemma ok_inner_done hole id t o w :
  queue_inv hole w → queue_inv hole (Runner.inner_done id t o w).
Proof. by apply ok_push_job. Qed.

Lemma ok_file_local hole id t filePath content w :
  queue_inv hole w → queue_inv hole (Runner.file_local id t filePath content w).
Proof. intros H. apply ok_inner_done. by apply ok_with_fs. Qed.

Lemma ok_runner_mkdir hole id t filePath content normalizedPath (parts : list string) :
  ∀ currentPath w,
    queue_inv hole w →
    queue_inv hole
      (Runner.mkdir_loop id t filePath content normalizedPath currentPath parts w).
Proof.
  induction parts as [|part rest IH]; intros cur w H; cbn [Runner.mkdir_loop].
  - apply (ok_op_await hole (KFileWrite id t filePath content normalizedPath) w
             (Link.writeFile (FromAction id) normalizedPath content w)); [done|].
    by apply ok_writeFile.
  - destruct (Js.startsWith _ _); [|by apply IH].
    apply (ok_op_await hole
             (KFileMkdir id t filePath content normalizedPath (cur +:+ "/" +:+ part) rest)
             w (Link.makeDirectory (FromAction id) (cur +:+ "/" +:+ part) w)); [done|].
    by apply ok_makeDirectory.
Qed.

Lemma ok_runFileAction hole id t filePath content w :
  queue_inv hole w → queue_inv hole (Runner.runFileAction id t filePath content w).
Proof.
  intros H. unfold Runner.runFileAction. destruct (E2B.isReady _).
  - by apply ok_runner_mkdir.
  - by apply ok_file_local.
Qed.

Lemma ok_runShellAction hole id t content w :
  queue_inv hole w → queue_inv hole (Runner.runShellAction id t content w).
Proof.
  intros H. unfold Runner.runShellAction. destruct (E2B.isReady _).
  - apply (ok_op_await hole (KShellRun id t) w
             (Link.runCommand (FromAction id) content w)); [done|].
    by apply ok_runCommand.
  - by apply ok_inner_done.
Qed.

Lemma ok_executeAction hole id t w :
  queue_inv hole w → queue_inv hole (Runner.executeAction id t w).
Proof.
  intros H. unfold Runner.executeAction.
  destruct (alist_lookup id (actions w)) as [a|]; [|by apply ok_settle_chain].
  cbn zeta. apply (ok_note hole (OBegin id)) in H.
  apply (ok_updateStatus hole id running None) in H.
  destruct (action a); [by apply ok_runFileAction|by apply ok_runShellAction].
Qed.

Lemma ok_join hole id t o w : queue_inv hole w → queue_inv hole (Runner.join id t o w).
Proof.
  intros H. unfold Runner.join. destruct o.
  - apply ok_settle_chain, ok_note. by apply ok_updateStatus.
  - apply ok_settle_chain, ok_note. by apply ok_updateStatus.
Qed.

Lemma ok_tick w : queue_ok w → queue_ok (tick w).
Proof.
  intros H. unfold tick. destruct (microtasks w) as [|[r o] rest] eqn:Hm; [done|].
  destruct (drain_op r) as [op|] eqn:Hr.
  - destruct r as [| | |[]]; try done. injection Hr as ->.
    cbn [run_job resume]. by apply ok_drain_resume.
  - pose proof (op_frame_ok [] _ _ H (frame_pop_job r o rest w Hm Hr)) as H0.
    fold (queue_ok (with_microtasks rest w)) in H0.
    destruct r as [id|id t|p|f]; cbn [run_job].
    + destruct o; [by apply ok_updateStatus|done].
    + destruct o; [by apply ok_executeAction|by apply ok_settle_chain].
    + destruct o; [by apply ok_settle_chain|]. by apply ok_settle_chain, ok_note.
    + destruct f; try done; cbn [resume].
      * destruct o; [by apply ok_runner_mkdir|]. by apply ok_inner_done, ok_note.
      * destruct o; [by apply ok_file_local|]. by apply ok_inner_done, ok_note.
      * destruct o; [by apply ok_inner_done|]. by apply ok_inner_done, ok_note.
      * by apply ok_join.
      * destruct o; [by apply ok_sync_mkdir|]. by apply ok_sync_loop, ok_note.
      * destruct o; [by apply ok_sync_loop|]. by apply ok_sync_loop, ok_note.
Qed.

Lemma ok_step e w : queue_ok w → queue_ok (step e w).
Proof.
  intros H. destruct e; cbn [step].
  - destruct (decide _); [|done]. by apply ok_addAction.
  - destruct (decide _); [|done]. by apply ok_runAction.
  - by apply ok_abort.
  - by apply ok_with_e2b.
  - by apply ok_with_e2b.
  - by apply ok_with_e2b.
  - by apply ok_register.
  - by apply ok_reset.
  - by apply ok_writeFile.
  - by apply ok_makeDirectory.
  - by apply ok_runCommand.
  - by apply ok_with_fs.
  - by apply ok_with_fs.
  - by apply ok_syncMissingFiles.
  - destruct (bool_decide _); [|done]. by apply ok_settle_call.
  - by apply ok_tick.
Qed.

Lemma ok_init mid : queue_ok (init mid).
Proof.
  split; try done; try (intros ? Hin; by inversion Hin); constructor.
Qed.

Lemma ok_run es : ∀ w, queue_ok w → queue_ok (run es w).
Proof.
  induction es as [|e es IH]; intros w Hi; [done|].
  cbn. apply IH. by apply ok_step.
Qed.

(** X8: in every world the engine can reach, the queued operations have
    distinct promises, each carries the arguments of its kind, each is
    still pending, and [reset] rejects each with the error "E2B sandbox
    reset". *)
Theorem queued_operations_wait (mid : string) (es : list event) :
  let w := run es (init mid) in
  NoDup (queued w)
  ∧ ∀ op, op ∈ E2B.pendingOperations (e2b w) →
      op_wf op
      ∧ promises w !! POp (E2B.op_promise op) = None
      ∧ promises (step EvReset w) !! POp (E2B.op_promise op)
        = Some (Rejected "E2B sandbox reset").
Proof.
  intros w. destruct (ok_run es (init mid) (ok_init mid)) as [Hnd Hp _ _ _ Hwf _ _].
  fold w in Hnd, Hp, Hwf. split; [done|]. intros op Hin.
  assert (Hpend : promises w !! POp (E2B.op_promise op) = None).
  { apply Hp. unfold queued. by apply list_elem_of_fmap_2. }
  split; [|split; [done|]].
  - by eapply Forall_forall in Hwf.
  - cbn [step]. unfold Link.reset. by apply reject_all_rejects.
Qed.

Lemma queued_operations_wait_witness :
  E2B.mkOp E2B.OpRunCommand None None (Some "ls") 1
    ∈ E2B.pendingOperations (e2b (run X_two_queued (init "m")))
  ∧ promises (step EvReset (run X_two_queued (init "m"))) !! POp 1
    = Some (Rejected "E2B sandbox reset").
Proof.
  assert (Hin : E2B.mkOp E2B.OpRunCommand None None (Some "ls") 1
                  ∈ E2B.pendingOperations (e2b (run X_two_queued (init "m")))).
  { vm_compute. right. left. }
  split; [exact Hin|].
  destruct (queued_operations_wait "m" X_two_queued) as [_ H].
  destruct (H _ Hin) as (_ & _ & Hr). exact Hr.
Defined.

(** X9: in every world the engine can reach, a promise handed out for a
    queued operation is settled, or its operation is still queued, or the
    drain loop holds the operation while it waits for its call; and no
    promise exists for an operation that was never queued. *)
Theorem operation_promises_accounted (mid : string) (es : list event) :
  let w := run es (init mid) in
  ∀ q,
    if decide (q < nextOp w) then
      is_Some (promises w !! POp q) ∨ q ∈ queued w
      ∨ q ∈ E2B.op_promise <$> drains w
    else promises w !! POp q = None.
Proof.
  intros w q. destruct (ok_run es (init mid) (ok_init mid)) as [_ _ _ Hf _ _ Hl _].
  fold w in Hf, Hl. destruct (decide (q < nextOp w)) as [Hlt|Hge].
  - destruct (Hl q Hlt) as [?|[?|[?|Hh]]]; auto. inversion Hh.
  - apply Hf. lia.
Qed.

(** ** The local store after a turn *)

Lemma addAction_fs data w : fs (Runner.addAction data w) = fs w.
Proof.
  unfold Runner.addAction. destruct (alist_lookup _ _); [done|].
  unfold on_settled. cbn. by destruct (promises w !! _).
Qed.

Lemma runAction_fs data w : fs (Runner.runAction data w) = fs w.
Proof.
  unfold Runner.runAction. destruct (alist_lookup _ _) as [a|]; [|done].
  destruct (executed a); [done|]. unfold on_settled. cbn.
  destruct (promises w !! PChain (tail w)); cbn;
    by destruct (promises w !! PChain (nextChain w)).
Qed.

Lemma submit_fs mid (l : list (string * BoltAction)) :
  ∀ w, fs (run (submit_all mid l) w) = fs w.
Proof.
  induction l as [|ia l IH]; intros w; [done|].
  change (submit_all mid (ia :: l))
    with ([EvAddAction (mkData mid ia.1 ia.2); EvRunAction (mkData mid ia.1 ia.2)]
            ++ submit_all mid l).
  rewrite run_app, IH. cbn [run fold_left].
  assert (H1 : ∀ d w0, fs (step (EvAddAction d) w0) = fs w0).
  { intros d w0. cbn [step]. destruct (decide _); [apply addAction_fs|done]. }
  assert (H2 : ∀ d w0, fs (step (EvRunAction d) w0) = fs w0).
  { intros d w0. cbn [step]. destruct (decide _); [apply runAction_fs|done]. }
  by rewrite H2, H1.
Qed.

Lemma turn_from_start oracle mid s acts :
  (E2B.isReady s = true → installed s) →
  NoDup acts.*1 →
  ∃ n,
    idle (drive oracle n (run (submit_all mid acts) (start mid s)))
    ∧ fs (drive oracle n (run (submit_all mid acts) (start mid s)))
      = local_writes oracle s acts FilesStore.empty
    ∧ ∀ ia, ia ∈ acts →
        alist_lookup ia.1
          (actions (drive oracle n (run (submit_all mid acts) (start mid s))))
        = Some (final_state oracle s ia.2).
Proof.
  intros Hin Hnd. destruct acts as [|[id a] rest].
  - exists 0. cbn. split; [|split; [done|]].
    + repeat split; try done. constructor.
    + intros ia Hia. inversion Hia.
  - change (submit_all mid ((id, a) :: rest))
      with ([EvAddAction (mkData mid id a); EvRunAction (mkData mid id a)]
              ++ submit_all mid rest).
    rewrite run_app, submit_first.
    match goal with |- context [run (submit_all mid rest) ?x] => set (w1 := x) end.
    pose proof Hnd as Hnd'. apply NoDup_cons in Hnd' as [Hfresh Hnd'].
    destruct (submit_rest mid rest w1 2) as
      (Hr & Hm & Hpr & He & Hnc & Hc & Hb & Hacts & Hout); try done.
    { intros n Hn. unfold w1. cbn [promises].
      apply lookup_singleton_ne. intros [=]. lia. }
    { intros id' Hid'. unfold w1. cbn [actions alist_lookup].
      rewrite decide_False; [done|]. intros ->. done. }
    destruct (turn_runs oracle s Hin rest 0 VUndef id a (run (submit_all mid rest) w1))
      as (n & Hidle & _ & Hfin & _ & Hfs); [|done|].
    { constructor; try done.
      - intros n Hn. rewrite Hpr. unfold w1. cbn [promises].
        apply lookup_singleton_ne. intros [=]. lia.
      - unfold calls_settled. rewrite Hc. constructor.
      - intros c _. rewrite Hpr. unfold w1. cbn [promises].
        by apply lookup_singleton_ne.
      - intros ia Hia. apply elem_of_cons in Hia as [->|Hia]; [|by apply Hacts].
        cbn [fst snd]. rewrite Hout by done. unfold w1. cbn [actions alist_lookup].
        by rewrite decide_True. }
    exists n. split; [done|]. split; [|done]. by rewrite Hfs, submit_fs.
Qed.

Lemma addFile_other_file p c k d (s : FilesStore.t) :
  k ≠ FilesStore.normalize p →
  FilesStore.files s !! k = Some d →
  FilesStore.files (FilesStore.addFile p c s) !! k = Some d.
Proof.
  intros Hne Hk. rewrite addFile_view. cbn. rewrite lookup_insert_ne by done.
  destruct (with_parents_files (FilesStore.normalize p) s k) as [->|[E _]]; congruence.
Qed.

Lemma local_writes_keep oracle s (l : list (string * BoltAction)) :
  ∀ k d f,
    FilesStore.files f !! k = Some d →
    (∀ ia p c, ia ∈ l → ia.2 = FileAction p c → FilesStore.normalize p ≠ k) →
    FilesStore.files (local_writes oracle s l f) !! k = Some d.
Proof.
  induction l as [|[id a] l IH]; intros k d f Hk Hl; [done|].
  change (local_writes oracle s ((id, a) :: l) f)
    with (local_writes oracle s l
            (if succeeds oracle s (id, a).2 then local_write (id, a).2 f else f)).
  apply IH.
  - cbn [snd]. destruct (succeeds oracle s a); [|done].
    destruct a as [p c|c]; [|done]. cbn [local_write].
    apply addFile_other_file; [|done]. intros E. eapply (Hl (id, FileAction p c)); [by left|done|done].
  - intros ia p c Hin. apply Hl. by right.
Qed.

Lemma local_writes_app oracle s l1 l2 f :
  local_writes oracle s (l1 ++ l2) f = local_writes oracle s l2 (local_writes oracle s l1 f).
Proof. apply fold_left_app. Qed.

(** X10: after a turn whose actions are all added and submitted, with
    distinct ids, to a fresh runner and run to the end under a sandbox that
    answers, the local store is the empty store to which the file actions
    whose sandbox calls all resolved were added, in order; every such file
    action whose local path no later file action shares has its content at
    that path. *)
Theorem turn_local_store oracle mid s acts :
  (E2B.isReady s = true → installed s) →
  NoDup acts.*1 →
  ∃ n,
    let w := drive oracle n (run (submit_all mid acts) (start mid s)) in
    idle w
    ∧ fs w = local_writes oracle s acts FilesStore.empty
    ∧ ∀ l1 id p c l2,
        acts = l1 ++ (id, FileAction p c) :: l2 →
        succeeds oracle s (FileAction p c) = true →
        (∀ ia p' c', ia ∈ l2 → ia.2 = FileAction p' c' →
                     FilesStore.normalize p' ≠ FilesStore.normalize p) →
        FilesStore.getFile (FilesStore.normalize p) (fs w) = Some (File c false).
Proof.
  intros Hin Hnd. destruct (turn_from_start oracle mid s acts Hin Hnd) as (n & Hi & Hfs & _).
  exists n. cbv zeta. split; [done|]. split; [done|].
  intros l1 id p c l2 -> Hok Hl2. rewrite Hfs, local_writes_app.
  change (local_writes oracle s ((id, FileAction p c) :: l2) ?f)
    with (local_writes oracle s l2
            (if succeeds oracle s (FileAction p c)
             then FilesStore.addFile p c f else f)).
  rewrite Hok.
  unfold FilesStore.getFile.
  rewrite (local_writes_keep oracle s l2 (FilesStore.normalize p) (File c false));
    [done| |exact Hl2].
  apply addFile_files.
Qed.

(** The action given to [runAction] replaces the one given to [addAction]. *)
Lemma submit_amended mid s id a0 a :
  run [EvAddAction (mkData mid id a0); EvRunAction (mkData mid id a)] (start mid s)
  = mkWorld FilesStore.empty s [(id, mkAction a pending None true false)] 2 mid
      {[PChain 0 := Resolved VUndef]} 3 0 0 [(PChain 1, RCatchLog 2)]
      [(RSetRunning id, Resolved VUndef); (RThenExec id 1, Resolved VUndef)]
      [OSubmit id 1 2] [].
Proof.
  assert (H1 : step (EvAddAction (mkData mid id a0)) (start mid s)
               = mkWorld FilesStore.empty s [(id, mkAction a0 pending None false false)]
                   0 mid {[PChain 0 := Resolved VUndef]} 1 0 0 []
                   [(RSetRunning id, Resolved VUndef)] [] []).
  { unfold start, init, with_e2b.
    cbn [step messageId artifact fs e2b actions tail promises nextChain nextOp
         nextCall registry microtasks trace syncResults].
    rewrite decide_True by done.
    unfold Runner.addAction, on_settled.
    cbn [actionId data_action actions alist_lookup with_actions alist_set tail
         promises].
    by rewrite lookup_singleton_eq. }
  cbn [run fold_left]. rewrite H1. clear H1.
  cbn [step messageId artifact]. rewrite decide_True by done.
  unfold Runner.runAction, with_actions.
  cbn [actionId data_action actions alist_lookup]. rewrite decide_True by done.
  cbn [executed status error signal_aborted actions alist_set fs e2b tail artifact
       promises nextChain nextOp nextCall registry microtasks trace syncResults].
  rewrite decide_True by done. unfold on_settled at 2.
  cbn [actions fs e2b tail artifact promises nextChain nextOp nextCall registry
       microtasks trace syncResults].
  rewrite lookup_singleton_eq. unfold push_job, on_settled.
  cbn [actions fs e2b tail artifact promises nextChain nextOp nextCall registry
       microtasks trace syncResults].
  rewrite lookup_singleton_ne by done.
  done.
Qed.


(** X11: the payload that is executed is the one given to [runAction]: an
    action added with one payload and submitted with another ends in the
    state, and leaves the store, of an action added and submitted with the
    second. *)
Theorem amended_action_runs_as_submitted oracle mid s id a0 a :
  (E2B.isReady s = true → installed s) →
  ∃ n,
    let w := drive oracle n
               (run [EvAddAction (mkData mid id a0); EvRunAction (mkData mid id a)]
                  (start mid s)) in
    idle w
    ∧ alist_lookup id (actions w) = Some (final_state oracle s a)
    ∧ fs w = (if succeeds oracle s a then local_write a FilesStore.empty
              else FilesStore.empty).
Proof.
  intros Hin.
  destruct (turn_from_start oracle mid s [(id, a)] Hin) as (n & Hi & Hfs & Hst).
  { apply NoDup_singleton. }
  exists n. cbv zeta. rewrite submit_amended, <- submit_first.
  change (run [EvAddAction (mkData mid id a); EvRunAction (mkData mid id a)] (start mid s))
    with (run (submit_all mid [(id, a)]) (start mid s)).
  split; [done|]. split; [|done]. apply (Hst (id, a)). by left.
Qed.

(** X12: [addAction] for an id the runner already knows changes nothing,
    whatever the message id and payload of the second call: the first entry
    stays, and no second status update is chained. *)
Theorem addAction_first_wins (m1 m2 id : string) (a1 a2 : BoltAction) (w : World) :
  Runner.addAction (mkData m2 id a2) (Runner.addAction (mkData m1 id a1) w)
  = Runner.addAction (mkData m1 id a1) w.
Proof.
  set (d1 := mkData m1 id a1). set (d2 := mkData m2 id a2).
  assert (E : actionId d2 = actionId d1) by done.
  assert (H : is_Some (alist_lookup (actionId d1) (actions (Runner.addAction d1 w)))).
  { unfold Runner.addAction.
    destruct (alist_lookup (actionId d1) (actions w)) eqn:Hl; [by rewrite Hl|].
    unfold on_settled. cbn.
    destruct (promises w !! PChain (tail w)); cbn;
      rewrite alist_lookup_set, decide_True by done; done. }
  destruct H as [a Ha]. unfold Runner.addAction at 1. by rewrite E, Ha.
Qed.

Lemma alist_lookup_one {A : Type} (k : string) (v : A) :
  alist_lookup k [(k, v)] = Some v.
Proof. cbn. by rewrite decide_True. Qed.

Lemma alist_set_one {A : Type} (k : string) (v v' : A) :
  alist_set k v' [(k, v)] = [(k, v')].
Proof. cbn. by rewrite decide_True. Qed.

(** The two jobs that start an execution, whatever the entry holds. *)
Lemma exec_begin oracle id t v st (w : World) :
  microtasks w = [(RSetRunning id, Resolved v); (RThenExec id t, Resolved v)] →
  alist_lookup id (actions w) = Some st →
  ∃ w2,
    drive oracle 2 w = run_inner id t (action st) w2
    ∧ microtasks w2 = [] ∧ registry w2 = registry w ∧ promises w2 = promises w
    ∧ e2b w2 = e2b w ∧ fs w2 = fs w ∧ nextCall w2 = nextCall w
    ∧ trace w2 = trace w ++ [OBegin id]
    ∧ alist_lookup id (actions w2)
      = Some (mkAction (action st) running (error st) (executed st)
                (signal_aborted st)).
Proof.
  intros Hj Hid.
  set (st1 := mkAction (action st) running (error st) (executed st) (signal_aborted st)).
  set (w1 := Runner.updateStatus id running None
               (with_microtasks [(RThenExec id t, Resolved v)] w)).
  assert (Hid1 : alist_lookup id (actions w1) = Some st1).
  { unfold w1. cbn. rewrite alist_lookup_alter, decide_True by done.
    by rewrite Hid. }
  set (w2 := Runner.updateStatus id running None
               (note (OBegin id) (with_microtasks [] w1))).
  exists w2. split; [|repeat split].
  - cbn [drive]. rewrite (drive1_job _ _ _ _ _ Hj). cbn [run_job]. fold w1.
    rewrite (drive1_job oracle (RThenExec id t) (Resolved v) [] w1) by done.
    cbn [run_job]. unfold Runner.executeAction.
    change (actions (with_microtasks [] w1)) with (actions w1).
    rewrite Hid1. fold w2. cbn [action st1]. by destruct (action st).
  - unfold w2. cbn. rewrite alist_lookup_alter, decide_True by done.
    change (alist_lookup id (actions w1) = Some st1) in Hid1.
    cbn in Hid1. by rewrite Hid1.
Qed.

(** The two jobs that end the last execution of a chain. *)
Lemma exec_end_last oracle id t p o st (w : World) :
  calm w →
  registry w = [(PChain t, RCatchLog p)] → t ≠ p →
  promises w !! PChain t = None → promises w !! PChain p = None →
  alist_lookup id (actions w) = Some st →
  idle (drive oracle 2 (Runner.inner_done id t o w))
  ∧ alist_lookup id (actions (drive oracle 2 (Runner.inner_done id t o w)))
    = Some (joined st o)
  ∧ begun (trace (drive oracle 2 (Runner.inner_done id t o w))) = begun (trace w)
  ∧ fs (drive oracle 2 (Runner.inner_done id t o w)) = fs w.
Proof.
  intros (Hm & Hco & Hcs & Hfc) Hr Htp Hpt Hpp Hid.
  cbn [drive]. unfold Runner.inner_done.
  rewrite (drive1_job oracle (RResume (KExecJoin id t)) o [] (push_job _ o w))
    by (cbn; by rewrite Hm).
  cbn [run_job resume].
  set (o' := match o with Resolved _ => Resolved VUndef | Rejected e => Rejected e end).
  assert (Hj : Runner.join id t o
                 (with_microtasks [] (push_job (RResume (KExecJoin id t)) o w))
               = mkWorld (fs w) (e2b w) (alist_set id (joined st o) (actions w))
                   (tail w) (artifact w) (<[PChain t := o']> (promises w))
                   (nextChain w) (nextOp w) (nextCall w) [] [(RCatchLog p, o')]
                   (trace w ++ [OEnd id (is_resolved o)]) (syncResults w)).
  { unfold o'. destruct o as [v|e]; unfold Runner.join;
      cbn [actions with_microtasks push_job]; rewrite ?Hid;
      rewrite settle_view by exact Hpt; cbn; rewrite Hr; cbn [List.filter List.map];
      rewrite waits_on_chain, bool_decide_eq_true_2 by done; cbn [negb List.map app];
      unfold alist_alter; rewrite Hid; done. }
  rewrite Hj. clear Hj. erewrite drive1_job by reflexivity.
  match goal with |- context [run_job _ _ ?x] => set (wj := x) end.
  set (wc := match o' with
             | Resolved _ => wj
             | Rejected _ => note (OError "Action failed:") wj
             end).
  set (v' := match o' with Resolved v => v | Rejected _ => VUndef end).
  assert (Hrun : run_job (RCatchLog p) o' wj = settle (PChain p) (Resolved v') wc).
  { unfold wc, v'. by destruct o'. }
  rewrite Hrun. clear Hrun.
  assert (Hcp : promises wc = <[PChain t := o']> (promises w)) by (unfold wc; by destruct o').
  assert (Hca : actions wc = alist_set id (joined st o) (actions w))
    by (unfold wc; by destruct o').
  assert (Hcr : registry wc = []) by (unfold wc; by destruct o').
  assert (Hcm : microtasks wc = []) by (unfold wc; by destruct o').
  assert (Hcf : fs wc = fs w) by (unfold wc; by destruct o').
  assert (Hcn : nextCall wc = nextCall w) by (unfold wc; by destruct o').
  assert (Hcc : calls (trace wc) = calls (trace w)).
  { unfold wc. destruct o'; cbn; by rewrite ?calls_snoc, ?app_nil_r. }
  assert (Hcb : begun (trace wc) = begun (trace w)).
  { unfold wc. destruct o'; cbn; by rewrite ?begun_snoc, ?app_nil_r. }
  clearbody wc. clear wj.
  rewrite settle_view
    by (rewrite Hcp, lookup_insert_ne by (intros [=]; done); exact Hpp).
  cbn [fs e2b actions tail artifact promises nextChain nextOp nextCall registry
       microtasks trace syncResults].
  rewrite Hcp, Hca, Hcr, Hcm, Hcf, Hcb. cbn [List.filter List.map app].
  split; [|split; [|done]].
  - repeat split; try done.
    + unfold calls_settled. cbn [promises trace]. rewrite Hcc.
      eapply Forall_impl; [exact Hcs|]. intros x [ox Hx]. cbn.
      rewrite !lookup_insert_ne by done. eauto.
    + intros c Hc. cbn in *. rewrite !lookup_insert_ne by done. apply Hfc. lia.
  - by rewrite alist_lookup_set, decide_True.
Qed.

Ltac one_action :=
  unfold Runner.updateStatus, with_actions, alist_alter, note, with_microtasks;
  repeat (progress (rewrite ?alist_lookup_one, ?alist_set_one;
                    cbn [actions fs e2b tail artifact promises nextChain nextOp nextCall
                         registry microtasks trace syncResults action status error
                         executed signal_aborted app])).

Lemma abort_world mid s id a :
  run [EvAddAction (mkData mid id a); EvRunAction (mkData mid id a); EvAbort id]
    (start mid s)
  = mkWorld FilesStore.empty s [(id, mkAction a aborted None true true)] 2 mid
      {[PChain 0 := Resolved VUndef]} 3 0 0 [(PChain 1, RCatchLog 2)]
      [(RSetRunning id, Resolved VUndef); (RThenExec id 1, Resolved VUndef)]
      [OSubmit id 1 2] [].
Proof.
  change [EvAddAction (mkData mid id a); EvRunAction (mkData mid id a); EvAbort id]
    with ([EvAddAction (mkData mid id a); EvRunAction (mkData mid id a)]
            ++ [EvAbort id]).
  rewrite run_app, submit_first. cbn [run fold_left step].
  unfold Runner.abort. one_action. reflexivity.
Qed.

(** X13: aborting an action that is submitted but not yet begun does not
    cancel it: the execution is still entered, its sandbox calls are made
    and its file is written locally; an execution that resolves ends
    [aborted], one that rejects ends [failed]. *)
Theorem abort_does_not_cancel oracle mid s id a :
  (E2B.isReady s = true → installed s) →
  ∃ n,
    let w := drive oracle n
               (run [EvAddAction (mkData mid id a); EvRunAction (mkData mid id a);
                     EvAbort id] (start mid s)) in
    idle w
    ∧ begun (trace w) = [id]
    ∧ alist_lookup id (actions w) = Some (aborted_state oracle s a)
    ∧ fs w = (if succeeds oracle s a then local_write a FilesStore.empty
              else FilesStore.empty).
Proof.
  intros Hin. rewrite abort_world.
  match goal with |- ∃ n, let w := drive oracle n ?x in _ => set (w1 := x) end.
  destruct (exec_begin oracle id 1 VUndef (mkAction a aborted None true true) w1)
    as (w2 & H2 & Hm2 & Hr2 & Hp2 & He2 & Hf2 & Hn2 & Ht2 & Hid2); [done| |].
  { unfold w1. cbn [actions]. apply alist_lookup_one. }
  cbn [action error executed signal_aborted] in H2, Hid2.
  change (e2b w1) with s in He2. change (fs w1) with FilesStore.empty in Hf2.
  assert (Hc2 : calm w2).
  { split; [done|]. split; [|split].
    - unfold chain_only. rewrite Hr2. constructor; [done|constructor].
    - unfold calls_settled. rewrite Ht2. constructor.
    - intros c _. rewrite Hp2. by apply lookup_singleton_ne. }
  destruct (inner_drives oracle id 1 a w2 Hc2)
    as (n & w3 & o & Hd3 & [He3 Hr3 Ha3 Hp3 Hb3 Hc3] & Ho & Hf3).
  { by rewrite He2. }
  destruct (exec_end_last oracle id 1 2 o (mkAction a running None true true) w3)
    as (Hidle & Hst & Hb & Hfs); try done.
  { by rewrite Hr3, Hr2. }
  { rewrite Hp3, Hp2. by apply lookup_singleton_ne. }
  { rewrite Hp3, Hp2. by apply lookup_singleton_ne. }
  { by rewrite Ha3. }
  exists (2 + n + 2). cbv zeta. rewrite !drive_add, H2, Hd3.
  split; [done|]. split; [|split].
  - rewrite Hb, Hb3, Ht2. done.
  - rewrite Hst. unfold joined, aborted_state. rewrite <- He2, <- Ho.
    by destruct o.
  - by rewrite Hfs, Hf3, Hf2, <- He2, <- Ho.
Qed.

Lemma turn_local_store_witness :
  (E2B.isReady C2_sandbox = true → installed C2_sandbox)
  ∧ NoDup C2_acts.*1
  ∧ ∃ n,
      fs (drive C2_oracle n (run (submit_all "m" C2_acts) (start "m" C2_sandbox)))
      = local_writes C2_oracle C2_sandbox C2_acts FilesStore.empty.
Proof.
  assert (Hin : E2B.isReady C2_sandbox = true → installed C2_sandbox).
  { intros _. repeat split; by eexists. }
  assert (Hnd : NoDup C2_acts.*1).
  { apply (bool_decide_unpack _). by vm_compute. }
  split; [exact Hin|]. split; [exact Hnd|].
  destruct (turn_local_store C2_oracle "m" C2_sandbox C2_acts Hin Hnd)
    as (n & _ & H & _).
  exists n. exact H.
Defined.

Lemma amended_action_runs_as_submitted_witness :
  (E2B.isReady C2_sandbox = true → installed C2_sandbox)
  ∧ ∃ n,
      alist_lookup "0"
        (actions
           (drive C2_oracle n
              (run [EvAddAction (mkData "m" "0" (FileAction "a.txt" "draft"));
                    EvRunAction (mkData "m" "0" (FileAction "a.txt" "x"))]
                 (start "m" C2_sandbox))))
      = Some (final_state C2_oracle C2_sandbox (FileAction "a.txt" "x")).
Proof.
  assert (Hin : E2B.isReady C2_sandbox = true → installed C2_sandbox).
  { intros _. repeat split; by eexists. }
  split; [exact Hin|].
  destruct (amended_action_runs_as_submitted C2_oracle "m" C2_sandbox "0"
              (FileAction "a.txt" "draft") (FileAction "a.txt" "x") Hin)
    as (n & _ & H & _).
  exists n. exact H.
Defined.

Lemma abort_does_not_cancel_witness :
  (E2B.isReady C2_sandbox = true → installed C2_sandbox)
  ∧ ∃ n,
      alist_lookup "0"
        (actions
           (drive C2_oracle n
              (run [EvAddAction (mkData "m" "0" (FileAction "a.txt" "x"));
                    EvRunAction (mkData "m" "0" (FileAction "a.txt" "x"));
                    EvAbort "0"] (start "m" C2_sandbox))))
      = Some (aborted_state C2_oracle C2_sandbox (FileAction "a.txt" "x")).
Proof.
  assert (Hin : E2B.isReady C2_sandbox = true → installed C2_sandbox).
  { intros _. repeat split; by eexists. }
  split; [exact Hin|].
  destruct (abort_does_not_cancel C2_oracle "m" C2_sandbox "0"
              (FileAction "a.txt" "x") Hin) as (n & _ & _ & H & _).
  exists n. exact H.
Defined.

(** ** The repair pass under a sandbox that answers *)

Lemma sync_frame_called h k o (w : World) :
  calm w → sync_frame w (called FromSync h k o w).
Proof. intros Hc. split; try done. by apply called_calm. Qed.

Lemma sync_frame_error msg (w : World) : calm w → sync_frame w (note (OError msg) w).
Proof. intros Hc. split; try done. by destruct (same_turn_error msg w Hc). Qed.

Lemma sync_frame_trans w1 w2 w3 : sync_frame w1 w2 → sync_frame w2 w3 → sync_frame w1 w3.
Proof. intros [] []. split; congruence. Qed.

Lemma sync_mkdir_answers oracle st todo filePath content e2bPath hw hm :
  ∀ parts currentPath w,
    calm w →
    E2B.fileWriteCallback (e2b w) = Some hw →
    E2B.makeDirectoryCallback (e2b w) = Some hm →
    ∃ n w',
      drive oracle n
        (Sync.mkdir_loop st todo filePath content e2bPath currentPath parts w)
      = Sync.loop
          (if forallb (λ hk, is_resolved (oracle hk.1 hk.2))
                (dir_requests hm currentPath parts ++ [(hw, CWrite e2bPath content)])
           then Sync.counted st else st) todo w'
      ∧ sync_frame w w' ∧ fs w' = fs w.
Proof.
  intros parts. induction parts as [|part rest IH]; intros cur w Hc Hw Hm.
  - cbn [Sync.mkdir_loop dir_requests app forallb fst snd].
    set (k := CWrite e2bPath content).
    set (w1 := called FromSync hw k (oracle hw k) w).
    assert (H1 : sync_frame w w1) by by apply sync_frame_called.
    destruct (oracle hw k) as [v|e] eqn:Ho.
    + exists 2, w1. split; [|done].
      erewrite answer_writeFile by done. fold k. rewrite Ho. done.
    + exists 2, (note (OError "Failed to sync file") w1). split; [|split; [|done]].
      * erewrite answer_writeFile by done. fold k. rewrite Ho. done.
      * eapply sync_frame_trans; [exact H1|]. apply sync_frame_error, H1.
  - cbn [Sync.mkdir_loop dir_requests].
    destruct (Js.startsWith (cur +:+ "/" +:+ part) "/home/user") eqn:Hs.
    + set (k := CMkdir (cur +:+ "/" +:+ part)).
      set (w1 := called FromSync hm k (oracle hm k) w).
      assert (H1 : sync_frame w w1) by by apply sync_frame_called.
      cbn [app forallb fst snd]. fold k.
      destruct (oracle hm k) as [v|e] eqn:Ho.
      * destruct (IH (cur +:+ "/" +:+ part) w1) as (n & w' & Hd & Hst & Hfs);
          [apply H1|done|done|].
        exists (2 + n), w'. split; [|split].
        -- rewrite drive_add. erewrite answer_makeDirectory by done.
           fold k. rewrite Ho. exact Hd.
        -- eapply sync_frame_trans; [exact H1|exact Hst].
        -- by rewrite Hfs.
      * exists 2, (note (OError "Failed to sync file") w1). split; [|split; [|done]].
        -- erewrite answer_makeDirectory by done. fold k. rewrite Ho. done.
        -- eapply sync_frame_trans; [exact H1|]. apply sync_frame_error, H1.
    + cbn [app]. apply IH; done.
Qed.

(** The repair of one missing file, up to the next round of the loop. *)
Lemma sync_one_answers oracle st rest p c (w : World) :
  calm w →
  (E2B.isReady (e2b w) = true → installed (e2b w)) →
  ∃ n w',
    drive oracle n
      (let st := Sync.noticed p st in
       let w := with_fs (FilesStore.addFile p c) w in
       if E2B.isReady (e2b w) then
         Sync.mkdir_loop st rest p c (Runner.sandbox_path p) ""
           (removelast (Js.path_parts (Runner.sandbox_path p))) w
       else Sync.loop (Sync.counted st) rest w)
    = Sync.loop
        (if succeeds oracle (e2b w) (FileAction p c)
         then Sync.counted (Sync.noticed p st) else Sync.noticed p st) rest w'
    ∧ sync_frame w w'
    ∧ fs w' = FilesStore.addFile p c (fs w).
Proof.
  intros Hc Hin. cbv zeta.
  set (w1 := with_fs (FilesStore.addFile p c) w).
  assert (H1 : sync_frame w w1).
  { by split. }
  change (e2b w1) with (e2b w). unfold succeeds, action_requests.
  destruct (E2B.isReady (e2b w)) eqn:Hr.
  - destruct (Hin eq_refl) as ([hw Hw] & [hm Hm] & _). rewrite Hw, Hm.
    destruct (sync_mkdir_answers oracle (Sync.noticed p st) rest p c
                (Runner.sandbox_path p) hw hm
                (removelast (Js.path_parts (Runner.sandbox_path p))) "" w1)
      as (n & w' & Hd & Hst & Hfs); [apply H1|done|done|].
    exists n, w'. split; [exact Hd|]. split; [|done].
    eapply sync_frame_trans; [exact H1|exact Hst].
  - exists 0, w1. done.
Qed.

Lemma sync_loop_answers oracle (todo : list (string * string)) :
  ∀ st w,
    calm w →
    (E2B.isReady (e2b w) = true → installed (e2b w)) →
    ∃ n w',
      drive oracle n (Sync.loop st todo w)
      = Sync.finish
          (mkSync (s_current st)
             (s_synced st + length (repaired oracle (e2b w) (lacking (s_current st) todo)))
             (s_missing st ++ (lacking (s_current st) todo).*1)
             (s_total st)) w'
      ∧ sync_frame w w'
      ∧ fs w' = add_all (lacking (s_current st) todo) (fs w).
Proof.
  induction todo as [|[p c] rest IH]; intros st w Hc Hin.
  - exists 0, w. cbn. rewrite app_nil_r, Nat.add_0_r. split; [by destruct st|].
    split; [by split|done].
  - assert (Hmiss :
      match s_current st !! FilesStore.normalize p with
      | Some (File _ _) => False
      | _ => True
      end →
      ∃ n w',
        drive oracle n
          (let st := Sync.noticed p st in
           let w := with_fs (FilesStore.addFile p c) w in
           if E2B.isReady (e2b w) then
             Sync.mkdir_loop st rest p c (Runner.sandbox_path p) ""
               (removelast (Js.path_parts (Runner.sandbox_path p))) w
           else Sync.loop (Sync.counted st) rest w)
        = Sync.finish
            (mkSync (s_current st)
               (s_synced st
                + length (repaired oracle (e2b w) (lacking (s_current st) ((p, c) :: rest))))
               (s_missing st ++ (lacking (s_current st) ((p, c) :: rest)).*1)
               (s_total st)) w'
        ∧ sync_frame w w'
        ∧ fs w' = add_all (lacking (s_current st) ((p, c) :: rest)) (fs w)).
    { intros Hno.
      assert (El : lacking (s_current st) ((p, c) :: rest)
                   = (p, c) :: lacking (s_current st) rest).
      { unfold lacking. cbn [List.filter fst].
        by destruct (s_current st !! FilesStore.normalize p) as [[]|]. }
      rewrite El. clear El.
      destruct (sync_one_answers oracle st rest p c w Hc Hin)
        as (n1 & w1 & Hd1 & Hf1 & Hfs1).
      set (st1 := if succeeds oracle (e2b w) (FileAction p c)
                  then Sync.counted (Sync.noticed p st) else Sync.noticed p st) in *.
      destruct (IH st1 w1) as (n2 & w2 & Hd2 & Hf2 & Hfs2).
      { apply Hf1. }
      { rewrite (sf_e2b _ _ Hf1). exact Hin. }
      exists (n1 + n2), w2. rewrite drive_add, Hd1, Hd2.
      rewrite (sf_e2b _ _ Hf1).
      split; [|split].
      - f_equal. unfold repaired. cbn [List.filter fst snd fmap list_fmap length].
        unfold st1. destruct (succeeds oracle (e2b w) (FileAction p c)); cbn;
          rewrite <- ?app_assoc; f_equal; lia.
      - eapply sync_frame_trans; [exact Hf1|exact Hf2].
      - rewrite Hfs2, Hfs1.
        replace (s_current st1) with (s_current st); [done|].
        unfold st1. by destruct (succeeds oracle (e2b w) (FileAction p c)). }
    cbn [Sync.loop].
    destruct (s_current st !! FilesStore.normalize p) as [[cc b|]|] eqn:Hcur.
    + unfold lacking. cbn [List.filter fst]. rewrite Hcur. apply IH; done.
    + by apply Hmiss.
    + by apply Hmiss.
Qed.

Lemma sync_answers oracle (w : World) :
  calm w →
  (E2B.isReady (e2b w) = true → installed (e2b w)) →
  ∃ n,
    let w' := drive oracle n (step (EvSync (artifact w)) w) in
    let todo := Sync.file_actions (actions w) in
    let lack := lacking (FilesStore.files (fs w)) todo in
    syncResults w'
    = syncResults w
        ++ [mkResult (length (repaired oracle (e2b w) lack)) (length todo) lack.*1]
    ∧ fs w' = add_all lack (fs w)
    ∧ calm w' ∧ actions w' = actions w ∧ e2b w' = e2b w
    ∧ artifact w' = artifact w.
Proof.
  intros Hc Hin. cbn [step]. unfold Sync.syncMissingFiles.
  rewrite decide_True by done.
  destruct (sync_loop_answers oracle (Sync.file_actions (actions w))
              (mkSync (FilesStore.files (fs w)) 0 [] (length (Sync.file_actions (actions w))))
              w Hc Hin) as (n & w' & Hd & [] & Hfs).
  exists n. cbv zeta. rewrite Hd. cbn. split; [by rewrite sf_results0|].
  split; [done|]. split; [|done].
  destruct sf_calm0 as (? & ? & ? & ?). by repeat split.
Qed.



(** ** A reset while the queue is being drained *)

Lemma reject_all_nextOp (ops : list E2B.PendingOperation) :
  ∀ w, nextOp (Link.reject_all ops w) = nextOp w.
Proof.
  induction ops as [|op ops IH]; intros w; [done|].
  cbn [Link.reject_all]. rewrite IH. unfold settle. by destruct (promises _ !! _).
Qed.

Lemma reset_e2b (w : World) :
  e2b (Link.reset w)
  = E2B.mk E2B.initialState None None None None None None []
      (E2B.isProcessingQueue (e2b w)).
Proof.
  unfold Link.reset. rewrite reject_all_e2b.
  change (E2B.pendingOperations (e2b (with_e2b E2B.cleared w)))
    with (E2B.pendingOperations (e2b w)).
  destruct (E2B.pendingOperations (e2b w)) eqn:Hq; [|done].
  cbn. unfold E2B.cleared. by rewrite Hq.
Qed.

(** X15: [reset] leaves the flag of the drain loop as it is.  If the engine
    is reset while a drain waits for a call, then an operation issued once
    the sandbox connects again is queued, and registering implementations
    installs them but drains nothing: the operation stays queued, its
    promise pending, and no implementation is called. *)
Theorem reset_keeps_drain_flag (mid : string) (es : list event)
    (path content : string) (c : E2B.Callbacks) :
  let w := run es (init mid) in
  E2B.isProcessingQueue (e2b w) = true →
  let w' := run [EvReset; EvSetConnecting true; EvWriteFile path content;
                 EvRegister c] w in
  E2B.pendingOperations (e2b w')
  = [E2B.mkOp E2B.OpWriteFile (Some path) (Some content) None (nextOp w)]
  ∧ promises w' !! POp (nextOp w) = None
  ∧ calls (trace w') = calls (trace w)
  ∧ E2B.fileWriteCallback (e2b w') = Some (E2B.cb_writeFile c).
Proof.
  intros w Hflag w'. unfold w'. cbn [run fold_left step].
  pose proof (ok_reset w (ok_run es (init mid) (ok_init mid))) as Hok.
  pose proof (reset_e2b w) as He. rewrite Hflag in He.
  assert (Hn : nextOp (Link.reset w) = nextOp w).
  { unfold Link.reset. by rewrite reject_all_nextOp. }
  assert (Ht : trace (Link.reset w) = trace w).
  { unfold Link.reset. by destruct (reject_all_trace
      (E2B.pendingOperations (e2b (with_e2b E2B.cleared w))) (with_e2b E2B.cleared w)). }
  assert (Hp : promises (Link.reset w) !! POp (nextOp w) = None).
  { apply (qo_fresh _ _ Hok). by rewrite Hn. }
  set (w1 := Link.reset w) in *. clearbody w1.
  set (w2 := with_e2b (E2B.with_state (E2B.setConnecting true)) w1).
  rewrite (writeFile_eq FromOutside path content w2). cbv zeta.
  change (e2b w2) with (E2B.with_state (E2B.setConnecting true) (e2b w1)).
  rewrite He. cbn [E2B.with_state E2B.fileWriteCallback E2B.accepting E2B.state
                   E2B.setConnecting E2B.isConnecting orb fst].
  unfold Link.registerSandboxCallbacks, Link.processQueue, Link.enqueue, note, with_e2b.
  cbn [e2b fs actions tail artifact promises nextChain nextOp nextCall registry
       microtasks trace syncResults fst].
  change (e2b w2) with (E2B.with_state (E2B.setConnecting true) (e2b w1)).
  change (nextOp w2) with (nextOp w1). change (promises w2) with (promises w1).
  change (trace w2) with (trace w1).
  rewrite He, Hn, Ht.
  cbn [E2B.install E2B.with_queue E2B.with_state E2B.isProcessingQueue
       E2B.pendingOperations E2B.fileWriteCallback E2B.state orb app
       e2b fs actions tail artifact promises nextChain nextOp nextCall registry
       microtasks trace syncResults].
  split; [done|]. split; [done|]. split; [|done].
  by rewrite calls_snoc, app_nil_r.
Qed.

Lemma reset_keeps_drain_flag_witness :
  E2B.isProcessingQueue (e2b (run X_draining (init "m"))) = true
  ∧ E2B.pendingOperations
      (e2b (run [EvReset; EvSetConnecting true; EvWriteFile "/home/user/b" "2";
                 EvRegister C3_callbacks] (run X_draining (init "m"))))
    = [E2B.mkOp E2B.OpWriteFile (Some "/home/user/b") (Some "2") None 1].
Proof.
  split; [reflexivity|].
  destruct (reset_keeps_drain_flag "m" X_draining "/home/user/b" "2" C3_callbacks)
    as (H & _); [reflexivity|exact H].
Defined.

(** ** The artifacts of the workbench *)

Section artifacts.
Import Workbench.

Lemma addArtifact_listed d s : listed s → listed (addArtifact d s).
Proof.
  intros [Hnd Hl]. unfold addArtifact, getArtifact.
  destruct (artifacts s !! ad_messageId d) eqn:Hm; [done|].
  assert (Hnin : ad_messageId d ∉ artifactIdList s).
  { intros Hin. apply Hl in Hin. rewrite Hm in Hin. by destruct Hin. }
  rewrite bool_decide_eq_false_2 by done. split; cbn.
  - apply NoDup_app. split; [done|]. split; [|apply NoDup_singleton].
    intros x Hx ->%list_elem_of_singleton. done.
  - intros id. rewrite elem_of_app, list_elem_of_singleton, Hl.
    destruct (decide (ad_messageId d = id)) as [->|Hne].
    + rewrite lookup_insert_eq. split; [eauto|]. by right.
    + rewrite lookup_insert_ne by done. split; [|by left].
      intros [?|?]; [done|congruence].
Qed.

Lemma updateArtifact_listed m u s : listed s → listed (updateArtifact m u s).
Proof.
  intros [Hnd Hl]. unfold updateArtifact, getArtifact.
  destruct (artifacts s !! m) eqn:Hm; [|done]. split; [done|]. cbn.
  intros id. rewrite Hl. destruct (decide (m = id)) as [->|Hne].
  - rewrite lookup_insert_eq, Hm. split; eauto.
  - by rewrite lookup_insert_ne.
Qed.

(** X16: through any sequence of [addArtifact], [updateArtifact] and the
    clearing done by [setChatId(undefined)] and [resetForNewChat],
    [artifactIdList] names exactly the artifacts that exist, each once. *)
Theorem artifacts_listed_once (ops : list op) :
  listed (fold_left apply ops Workbench.empty).
Proof.
  assert (H0 : listed Workbench.empty).
  { split; [constructor|]. intros id. cbn. rewrite lookup_empty. split.
    - intros H. inversion H.
    - intros [x Hx]. done. }
  revert H0. generalize Workbench.empty.
  induction ops as [|o ops IH]; intros s Hs; [done|].
  cbn [fold_left]. apply IH. destruct o; cbn [apply].
  - by apply addArtifact_listed.
  - by apply updateArtifact_listed.
  - split; [constructor|]. intros id. cbn. rewrite lookup_empty. split.
    + intros H. inversion H.
    + intros [x Hx]. done.
Qed.

(** X17: [addArtifact] for a message that has an artifact changes nothing,
    whatever title and id it brings; and [updateArtifact] keeps the id and
    the runner of the artifact. *)
Theorem addArtifact_first_wins (m t1 i1 t2 i2 : string) (u : ArtifactUpdate) (s : t) :
  let s1 := addArtifact (mkArtifactData m t1 i1) s in
  addArtifact (mkArtifactData m t2 i2) s1 = s1
  ∧ (art_runner <$> getArtifact m (updateArtifact m u s1))
    = (art_runner <$> getArtifact m s1)
  ∧ (art_id <$> getArtifact m (updateArtifact m u s1)) = (art_id <$> getArtifact m s1).
Proof.
  intros s1.
  assert (H : is_Some (getArtifact m s1)).
  { unfold s1, addArtifact, getArtifact. cbn.
    destruct (artifacts s !! m) eqn:Hm; [by rewrite Hm|]. cbn.
    by rewrite lookup_insert_eq. }
  destruct H as [a Ha]. split; [|split].
  - unfold addArtifact at 1. cbn [ad_messageId]. by rewrite Ha.
  - unfold updateArtifact. rewrite Ha. unfold getArtifact. cbn.
    by rewrite lookup_insert_eq.
  - unfold updateArtifact. rewrite Ha. unfold getArtifact. cbn.
    by rewrite lookup_insert_eq.
Qed.

End artifacts.

(** ** The choice of the model provider *)

(** X18: with no headers among the options, [streamText] sends the
    Anthropic beta header exactly when the client gave no API key.  A
    request to OpenRouter never carries it; a request with an API key but
    no model id goes to the Anthropic model of the environment without
    it. *)
Theorem beta_header_follows_key_only (envKey : string)
    (cfg : option Llm.ProviderConfig) :
  Llm.headers None cfg
  = (if bool_decide (is_Some (Llm.given_key cfg)) then [] else [Llm.beta_header])
  ∧ match Llm.choose_model envKey cfg with
    | Llm.OpenRouter k m =>
        Llm.given_key cfg = Some k ∧ Llm.given_model cfg = Some m
        ∧ Llm.headers None cfg = []
    | Llm.Anthropic k =>
        k = envKey
        ∧ (Llm.headers None cfg = []
           ↔ is_Some (Llm.given_key cfg) ∧ Llm.given_model cfg = None)
    end.
Proof.
  unfold Llm.headers, Llm.own_headers, Llm.choose_model. cbn [default].
  destruct (Llm.given_key cfg) as [k|], (Llm.given_model cfg) as [m|]; cbn.
  - done.
  - split; [done|]. split; [done|]. split; [eauto|done].
  - split; [done|]. split; [done|]. split; [done|]. by intros [[] _].
  - split; [done|]. split; [done|]. split; [done|]. by intros [[] _].
Qed.

(** ** The API key of the sandbox link *)

(** X19: where localStorage exists, [loadApiKey] after [setApiKey] returns
    the key and changes nothing.  [reset] empties the key of the state map
    and leaves [getApiKey] and the stored item alone, and a [loadApiKey]
    after it puts the key back; without localStorage [loadApiKey] returns
    the empty string. *)
Theorem apiKey_round_trip (key : string) (s : ApiKey.t) :
  ApiKey.loadApiKey true (ApiKey.setApiKey true key s)
  = (ApiKey.setApiKey true key s, key)
  ∧ ApiKey.loadApiKey true (ApiKey.reset (ApiKey.setApiKey true key s))
    = (ApiKey.mk (ApiKey.with_key key E2B.initialState) key
         (Some key), key)
  ∧ E2B.apiKey (ApiKey.state (ApiKey.reset (ApiKey.setApiKey true key s))) = ""
  ∧ ApiKey.getApiKey (ApiKey.reset (ApiKey.setApiKey true key s)) = key
  ∧ (ApiKey.loadApiKey false (ApiKey.setApiKey false key s)).2 = "".
Proof.
  unfold ApiKey.loadApiKey, ApiKey.setApiKey, ApiKey.reset, ApiKey.getApiKey. cbn.
  unfold Js.truthy. destruct (decide (key = "")) as [->|Hne].
  - done.
  - rewrite !bool_decide_eq_false_2 by done. done.
Qed.

(** ** Executions, once each *)

(** X20: in every world the engine can reach, no action id has entered
    [executeAction] twice, and every id that has entered it belongs to an
    entry marked executed. *)
Theorem executed_at_most_once (mid : string) (es : list event) :
  let w := run es (init mid) in
  NoDup (begun (trace w))
  ∧ ∀ id, id ∈ begun (trace w) →
      ∃ a, alist_lookup id (actions w) = Some a ∧ executed a = true.
Proof.
  intros w. destruct (chain_ok_reachable mid w) as (d & ph & Hi); [by exists es|].
  pose proof (ci_begun _ _ _ _ _ _ Hi) as Hb.
  pose proof (ci_nodup _ _ _ _ _ _ Hi) as Hnd.
  pose proof (ci_executed _ _ _ _ _ _ Hi) as Hex.
  rewrite Hb. split.
  - eapply sublist_NoDup; [exact Hnd|apply sublist_take].
  - intros id Hin. apply Hex. eapply elem_of_sublist; [exact Hin|apply sublist_take].
Qed.

(** X21: an action that is added to an idle runner and never submitted has
    status [running] after the next job, with nothing executed and nothing
    left to run: the status update chained by [addAction] does not wait for
    [runAction]. *)
Theorem added_action_shows_running (mid : string) (s : E2B.t) (id : string)
    (a : BoltAction) :
  let w := run [EvAddAction (mkData mid id a); EvTick] (start mid s) in
  alist_lookup id (actions w) = Some (mkAction a running None false false)
  ∧ begun (trace w) = []
  ∧ microtasks w = [] ∧ registry w = [].
Proof.
  cbn [run fold_left]. 
  assert (H1 : step (EvAddAction (mkData mid id a)) (start mid s)
               = mkWorld FilesStore.empty s [(id, mkAction a pending None false false)]
                   0 mid {[PChain 0 := Resolved VUndef]} 1 0 0 []
                   [(RSetRunning id, Resolved VUndef)] [] []).
  { unfold start, init, with_e2b.
    cbn [step messageId artifact fs e2b actions tail promises nextChain nextOp
         nextCall registry microtasks trace syncResults].
    rewrite decide_True by done.
    unfold Runner.addAction, on_settled.
    cbn [actionId data_action actions alist_lookup with_actions alist_set tail
         promises].
    by rewrite lookup_singleton_eq. }
  rewrite H1. cbn [step]. unfold tick. cbn [microtasks run_job].
  unfold Runner.updateStatus, with_actions, with_microtasks, alist_alter.
  cbn [actions]. rewrite alist_lookup_one. cbn [actions]. rewrite alist_set_one.
  cbn. by rewrite decide_True.
Qed.

(** ** A second repair pass *)

Lemma addFile_file_at p c k (f : FilesStore.t) :
  file_at (FilesStore.files f) k = true →
  file_at (FilesStore.files (FilesStore.addFile p c f)) k = true.
Proof.
  unfold file_at. intros H.
  destruct (decide (k = FilesStore.normalize p)) as [->|Hne].
  - by rewrite addFile_files.
  - destruct (FilesStore.files f !! k) as [d|] eqn:Hk; [|done].
    by rewrite (addFile_other_file p c k d f Hne Hk).
Qed.

Lemma add_all_file_at (l : list (string * string)) :
  ∀ f k, file_at (FilesStore.files f) k = true →
         file_at (FilesStore.files (add_all l f)) k = true.
Proof.
  induction l as [|[p c] l IH]; intros f k H; [done|].
  cbn [add_all fold_left]. apply (IH (FilesStore.addFile p c f)).
  by apply addFile_file_at.
Qed.

Lemma add_all_added (l : list (string * string)) :
  ∀ f p c, (p, c) ∈ l →
           file_at (FilesStore.files (add_all l f)) (FilesStore.normalize p) = true.
Proof.
  induction l as [|[p' c'] l IH]; intros f p c Hin; [by apply elem_of_nil in Hin|].
  cbn [add_all fold_left]. apply elem_of_cons in Hin as [[= -> ->]|Hin].
  - apply (add_all_file_at l (FilesStore.addFile p' c' f)).
    unfold file_at. by rewrite addFile_files.
  - by apply (IH (FilesStore.addFile p' c' f) p c).
Qed.

Lemma lacking_file_at cur (todo : list (string * string)) :
  lacking cur todo
  = List.filter (λ pc, negb (file_at cur (FilesStore.normalize pc.1))) todo.
Proof.
  unfold lacking, file_at. induction todo as [|[p c] l IH]; [done|].
  cbn. rewrite IH. by destruct (cur !! FilesStore.normalize p) as [[]|].
Qed.

Lemma lacking_after (f : FilesStore.t) (todo : list (string * string)) :
  lacking (FilesStore.files (add_all (lacking (FilesStore.files f) todo) f)) todo = [].
Proof.
  set (L := lacking (FilesStore.files f) todo).
  assert (H : ∀ pc, pc ∈ todo →
            file_at (FilesStore.files (add_all L f)) (FilesStore.normalize pc.1) = true).
  { intros [p c] Hin. cbn [fst].
    destruct (file_at (FilesStore.files f) (FilesStore.normalize p)) eqn:Hf.
    - by apply add_all_file_at.
    - apply (add_all_added L f p c). unfold L. rewrite lacking_file_at.
      apply list_elem_of_In, List.filter_In. split; [by apply list_elem_of_In|].
      cbn [fst]. by rewrite Hf. }
  rewrite lacking_file_at. clearbody L.
  induction todo as [|pc l IH]; [done|].
  cbn [List.filter]. rewrite (H pc) by (by left). cbn [negb].
  apply IH. intros pc' Hin. apply H. by right.
Qed.

Lemma sync_loop_nothing (todo : list (string * string)) :
  ∀ st w, lacking (s_current st) todo = [] → Sync.loop st todo w = Sync.finish st w.
Proof.
  induction todo as [|[p c] l IH]; intros st w H; [done|].
  cbn [Sync.loop]. unfold lacking in H. cbn [List.filter fst] in H.
  destruct (s_current st !! FilesStore.normalize p) as [[]|]; [by apply IH|done|done].
Qed.

(** X22: a repair pass that follows a finished one, with the same actions,
    finds nothing missing whatever the sandbox answered the first time: it
    reports zero synced of the same total, and changes neither the store
    nor the sandbox. *)
Theorem second_repair_finds_nothing oracle (w : World) :
  calm w →
  (E2B.isReady (e2b w) = true → installed (e2b w)) →
  ∃ n,
    let w1 := drive oracle n (step (EvSync (artifact w)) w) in
    let w2 := step (EvSync (artifact w)) w1 in
    syncResults w2
    = syncResults w1 ++ [mkResult 0 (length (Sync.file_actions (actions w))) []]
    ∧ fs w2 = fs w1
    ∧ trace w2 = trace w1.
Proof.
  intros Hc Hin.
  destruct (sync_answers oracle w Hc Hin) as (n & _ & Hfs & _ & Ha & _ & Har).
  exists n. cbv zeta in *.
  set (w1 := drive oracle n (step (EvSync (artifact w)) w)) in *.
  cbn [step]. unfold Sync.syncMissingFiles.
  rewrite decide_True by done. rewrite Ha, Hfs.
  rewrite sync_loop_nothing by (cbn [s_current]; apply lacking_after).
  done.
Qed.

Lemma second_repair_finds_nothing_witness :
  calm X_two_files
  ∧ ∃ n,
      syncResults
        (step (EvSync "m") (drive C2_oracle n (step (EvSync "m") X_two_files)))
      = syncResults (drive C2_oracle n (step (EvSync "m") X_two_files))
          ++ [mkResult 0 2 []].
Proof.
  assert (Hc : calm X_two_files).
  { split; [reflexivity|]. split; [|split].
    - unfold chain_only. vm_compute. constructor.
    - unfold calls_settled. vm_compute. constructor.
    - intros c _.
      change (promises X_two_files) with ({[PChain 0 := Resolved VUndef]} : gmap pid outcome).
      by apply lookup_singleton_ne. }
  split; [exact Hc|].
  destruct (second_repair_finds_nothing C2_oracle X_two_files Hc) as (n & H & _).
  { intros _. repeat split; by eexists. }
  exists n. exact H.
Defined.

Lemma executed_at_most_once_witness :
  "0" ∈ begun (trace (run X_begun (init "m")))
  ∧ ∃ a, alist_lookup "0" (actions (run X_begun (init "m"))) = Some a
         ∧ executed a = true.
Proof.
  assert (Hin : "0" ∈ begun (trace (run X_begun (init "m")))).
  { vm_compute. left. }
  split; [exact Hin|].
  destruct (executed_at_most_once "m" X_begun) as [_ H]. exact (H "0" Hin).
Defined.

(** ** The provider settings across a reload *)

(** X23: in a browser, the API key and the selected model set through the
    store, in either order, are what the store holds after the page is
    loaded again, except that an empty selected model comes back as the
    default model; the error does not come back. *)
Theorem provider_settings_reload (key modelId : string) (s : Provider.t) :
  let s1 := Provider.setSelectedModel true modelId (Provider.setApiKey true key s) in
  let s2 := Provider.setApiKey true key (Provider.setSelectedModel true modelId s) in
  Provider.apiKey (Provider.settings (Provider.reload true s1)) = key
  ∧ Provider.selectedModel (Provider.settings (Provider.reload true s1))
    = (if Js.truthy modelId then modelId else Provider.default_model)
  ∧ Provider.settings (Provider.reload true s2)
    = Provider.settings (Provider.reload true s1)
  ∧ Provider.error (Provider.settings (Provider.reload true s1)) = None.
Proof.
  assert (Ho : ∀ a b, Provider.or_else (Provider.or_else a "") b = Provider.or_else a b).
  { intros a b. unfold Provider.or_else. by destruct (Js.truthy a) eqn:E; rewrite ?E. }
  assert (Hk : Provider.or_else key "" = key).
  { unfold Provider.or_else, Js.truthy. destruct (decide (key = "")) as [->|Hk]; [done|].
    by rewrite bool_decide_eq_false_2. }
  unfold Provider.reload, Provider.initial, Provider.setApiKey, Provider.setSelectedModel,
    Provider.saveToStorage, Provider.loadFromStorage.
  cbn [Provider.settings Provider.item Provider.apiKey Provider.selectedModel
       Provider.error fmap option_fmap option_map default fst snd].
  unfold id. rewrite !Ho, !Hk. done.
Qed.
